(** * Bit-rate-aware joint training of a detector and its control network

    A shallow embedding of the tensor helpers and of the training-step
    skeleton of [train.py] (downscaling variant), [train2_0602_qf80_8.py]
    (luminance/blur variant) and [val2_0602_qf80_8.py].

    Conventions.
    - A tensor axis is a [list]; a tensor of shape (P, 64) is a list of P
      blocks of 64 coefficients.  Leading batch axes are mapped over.
    - Tensor elements are real numbers ([R]) wherever the code calls
      transcendental functions; helpers that only add and subtract are
      written over an arbitrary element type, so that they run on [Z] and
      on single-precision floating-point numbers ([float32]).
    - A Python dict with string keys is a [gmap string _]. *)

From stdpp Require Import base list strings pretty gmap sorting.
From Stdlib Require Import ZArith QArith Qabs Qcanon Qminmax Lqa Reals Lra Lia.
From Corelib Require SpecFloat.

(** ** Tensor slicing helpers shared by the pipeline *)

Section Slices.
Context {T : Type}.

(** [t[..., 0:1]] on a (P, K) tensor: the first coefficient of every block,
    kept as a length-one axis. *)
Definition slice_first (t : list (list T)) : list (list T) :=
  map (firstn 1) t.

(** [t[..., 1:]] on a (P, K) tensor. *)
Definition slice_rest (t : list (list T)) : list (list T) :=
  map (skipn 1) t.

(** [torch.cat([a, b], dim=-1)] for two tensors with the same number of
    blocks. *)
Definition cat_last (a b : list (list T)) : list (list T) :=
  zip_with app a b.

(** Elementwise binary operation on two tensors of the same (P, K) shape. *)
Definition elementwise (op : T -> T -> T) (a b : list (list T))
  : list (list T) :=
  zip_with (zip_with op) a b.
End Slices.

(** ** [delta_encode] (train2_0602_qf80_8.py:125, val2_0602_qf80_8.py:111) *)

Section DeltaEncode.
Context {T : Type} (sub add : T -> T -> T).

(** [[
    ac = coefs[..., 1:]
    dc = coefs[..., 0:1]
    dc = torch.cat([dc[..., 0:1, :], dc[..., 1:, :] - dc[..., :-1, :]], dim=-2)
    return torch.cat([dc, ac], dim=-1)
    ]] *)
Definition delta_encode (coefs : list (list T)) : list (list T) :=
  let ac := slice_rest coefs in
  let dc := slice_first coefs in
  let dc := firstn 1 dc ++ elementwise sub (skipn 1 dc) (removelast dc) in
  cat_last dc ac.

(** A view of the encoder used in the proofs: block by block, every block
    after the first is encoded against the DC slice of its predecessor. *)
Fixpoint encode_after (prev : list T) (blocks : list (list T))
  : list (list T) :=
  match blocks with
  | [] => []
  | b :: rest =>
      (zip_with sub (firstn 1 b) prev ++ skipn 1 b)
        :: encode_after (firstn 1 b) rest
  end.

(** The same function on a (B, C, P, 64) tensor: the ellipsis of the
    slices ranges over the two leading axes. *)
Definition delta_encode_bc (coefs : list (list (list (list T))))
  : list (list (list (list T))) :=
  map (map delta_encode) coefs.

(** [torch.cumsum(dc, dim=-2)] on a (P, 1) tensor: running sums along the
    block axis, [out[i] = out[i-1] + dc[i]]. *)
Fixpoint cumsum_from (acc : list T) (dc : list (list T)) : list (list T) :=
  match dc with
  | [] => []
  | d :: rest =>
      let s := zip_with add acc d in
      s :: cumsum_from s rest
  end.

Definition cumsum_blocks (dc : list (list T)) : list (list T) :=
  match dc with
  | [] => []
  | d :: rest => d :: cumsum_from d rest
  end.

(** Modelled from the spec: the prefix-sum decoder.  The repository only
    contains the encoder; the decoder is the cumulative sum along the block
    axis applied to the DC channel, the AC channels passing through. *)
Definition delta_decode (coefs : list (list T)) : list (list T) :=
  let ac := slice_rest coefs in
  let dc := slice_first coefs in
  cat_last (cumsum_blocks dc) ac.

Definition delta_decode_bc (coefs : list (list (list (list T))))
  : list (list (list (list T))) :=
  map (map delta_decode) coefs.
End DeltaEncode.

(** ** Single-precision elements

    The coefficients that reach [delta_encode] are [torch.float32] tensors.
    Their sums and differences are those of IEEE 754 binary32, rounded to
    nearest with ties to even: the operations of [SpecFloat] at 24 bits of
    precision and maximal exponent 128. *)
Definition float32 : Type := SpecFloat.spec_float.

Definition f32_add : float32 -> float32 -> float32 := SpecFloat.SFadd 24 128.

Definition f32_sub : float32 -> float32 -> float32 := SpecFloat.SFsub 24 128.

Definition f32_div : float32 -> float32 -> float32 := SpecFloat.SFdiv 24 128.

(** The element nearest to an integer. *)
Definition f32_of_Z (z : Z) : float32 :=
  SpecFloat.binary_normalize 24 128 z 0 false.

(** The number a finite element stands for. *)
Definition f32_value (x : float32) : Q :=
  match x with
  | SpecFloat.S754_finite s m e =>
      ((if s then -1 else 1) * inject_Z (Z.pos m) * Qpower 2 e)%Q
  | _ => 0%Q
  end.

(** Two (2, 64) tensors, with DC coefficients [2^25] and [1], and with DC
    coefficients [1000.5] and [0.3] (as [torch.tensor] rounds it); a
    (3, 64) tensor whose DC coefficients are 5, 7 and 2. *)
Definition blocks_far : list (list float32) :=
  [f32_of_Z (2 ^ 25) :: repeat (f32_of_Z 3) 63;
   f32_of_Z 1 :: repeat (f32_of_Z (-4)) 63].

Definition blocks_dct : list (list float32) :=
  [f32_div (f32_of_Z 2001) (f32_of_Z 2) :: repeat (f32_of_Z 3) 63;
   f32_div (f32_of_Z 3) (f32_of_Z 10) :: repeat (f32_of_Z (-4)) 63].

Definition blocks_near : list (list float32) :=
  [f32_of_Z 5 :: repeat (f32_of_Z 3) 63;
   f32_of_Z 7 :: repeat (f32_of_Z (-4)) 63;
   f32_of_Z 2 :: repeat (f32_of_Z 0) 63].

(** ** Real-valued tensor helpers *)

Local Open Scope R_scope.

(** [t.sum()] on a 1-D and on a 2-D tensor. *)
Definition sum_list (l : list R) : R := foldr Rplus 0 l.

Definition tensor_sum (t : list (list R)) : R := sum_list (map sum_list t).

(** [t.t()] on a 2-D tensor given as a list of rows. *)
Fixpoint transpose {A : Type} (m : list (list A)) : list (list A) :=
  match m with
  | [] => []
  | [r] => map (fun x => [x]) r
  | r :: rs => zip_with cons r (transpose rs)
  end.

(** Shape predicates: every row of a plane has [W] entries, and so on up to a
    (B, C, H, W) tensor. *)
Definition shape2 (H W : nat) (t : list (list R)) : Prop :=
  length t = H /\ Forall (fun row => length row = W) t.

Definition shape3 (C H W : nat) (t : list (list (list R))) : Prop :=
  length t = C /\ Forall (shape2 H W) t.

Definition shape4 (B C H W : nat) (t : list (list (list (list R)))) : Prop :=
  length t = B /\ Forall (shape3 C H W) t.

(** Element [(i, j)] of a plane and element [(c, i, j)] of an image, when
    in range. *)
Definition at2 (t : list (list R)) (i j : nat) : option R :=
  row ← t !! i; row !! j.

Definition pixel (t : list (list (list R))) (c i j : nat) : option R :=
  plane ← t !! c; at2 plane i j.

(** ** Control networks *)

(** [torch.sigmoid] *)
Definition sigmoid (x : R) : R := 1 / (1 + exp (- x)).

(** [torch.clamp(x, min=lo, max=hi)] *)
Definition clamp (lo hi x : R) : R := Rmin (Rmax x lo) hi.

Section ControlNetworks.
Context {image : Type}.

(** [DownscalingNetwork] (train.py:194).  [pre_tanh] stands for
    [self.resnet101] followed by every layer of [self.extended_fc] but its
    last one, [nn.Tanh()]: it maps a batch to one value per image. *)
Variable pre_tanh : list image -> list R.

Definition extended_fc (batch : list image) : list R :=
  map tanh (pre_tanh batch).

(** [[
    x = self.resnet101(x)
    x = self.extended_fc(x)
    x = (x + 1) / 2 * 3 + 1
    ]] *)
Definition DownscalingNetwork_forward (batch : list image) : list R :=
  map (fun x => (x + 1) / 2 * 3 + 1) (extended_fc batch).

(** [DynamicLuminanceWeightNetwork] (train2_0602_qf80_8.py:220,
    val2_0602_qf80_8.py:201).  [fc4_out] stands for the layers from
    [self.upsample] to [self.fc4]: it maps a batch to a (B, 2) tensor,
    one pair per image. *)
Variable fc4_out : list image -> list (R * R).

(** [[
    x[:, 0] = torch.sigmoid(x[:, 0]) * 0.5 + 0.5
    x[:, 1] = torch.sigmoid(x[:, 1]) * 0.5 + 0.5
    ]] *)
Definition DynamicLuminanceWeightNetwork_forward (batch : list image)
  : list (R * R) :=
  let x := fc4_out batch in
  let x := map (fun row => (sigmoid (fst row) * 0.5 + 0.5, snd row)) x in
  let x := map (fun row => (fst row, sigmoid (snd row) * 0.5 + 0.5)) x in
  x.

(** [torch.clamp(dynamic_luminance_weights, min=0, max=5)]
    (train2_0602_qf80_8.py:654) *)
Definition clamp_weights (w : list (R * R)) : list (R * R) :=
  map (fun row => (clamp 0 5 (fst row), clamp 0 5 (snd row))) w.
End ControlNetworks.

(** ** [ReinhardToneMapping.forward] (train2_0602_qf80_8.py:285,
       val2_0602_qf80_8.py:174) *)

Definition luminance_of (r g b : R) : R :=
  0.2126 * r + 0.7152 * g + 0.0722 * b.

(** [luminance / (1 + luminance / (weights + 1e-6))] *)
Definition ldr_luminance_of (weights luminance : R) : R :=
  luminance / (1 + luminance / (weights + 1e-6)).

(** [ldr_luminance / (luminance + 1e-6)] *)
Definition scale_factor_of (weights luminance : R) : R :=
  ldr_luminance_of weights luminance / (luminance + 1e-6).

(** The forward pass on one image of shape (C, H, W) (the batch axis added by
    [img.unsqueeze(0)] is left out) with the 0-dim tensor [predicted_weights].
    Indexing channel 0, 1 or 2 of an image with fewer channels raises. *)
Definition ReinhardToneMapping_forward (white_point : R)
    (hdr_image : list (list (list R))) (predicted_weights : R)
  : option (list (list (list R))) :=
  let weights := predicted_weights in
  match hdr_image with
  | ch0 :: ch1 :: ch2 :: _ =>
      let luminance :=
        elementwise Rplus
          (elementwise Rplus (map (map (Rmult 0.2126)) ch0)
                             (map (map (Rmult 0.7152)) ch1))
          (map (map (Rmult 0.0722)) ch2) in
      let ldr_luminance :=
        map (map (fun l => l / (1 + l / (weights + 1e-6)))) luminance in
      let scale_factor :=
        elementwise (fun ldr l => ldr / (l + 1e-6)) ldr_luminance luminance in
      let ldr_image :=
        map (fun ch => elementwise Rmult ch scale_factor) hdr_image in
      Some (if Req_dec_T white_point 1 then ldr_image
            else map (map (map (fun v => v * white_point))) ldr_image)
  | _ => None
  end.

(** ** [gaussian_blur] (train2_0602_qf80_8.py:139, val2_0602_qf80_8.py:82) *)

(** [torch.arange(kernel_size[0]).float() - radius] *)
Definition x_coords (kernel_size radius : nat) : list R :=
  map (fun i => INR i - INR radius) (seq 0 kernel_size).

(** [[
    radius = kernel_size // 2
    x_grid = x_coords.repeat(kernel_size[1]).view(kernel_size[1], kernel_size[0])
    y_grid = x_grid.t()
    sq_dist = x_grid**2 + y_grid**2
    kernel = torch.exp(-sq_dist / (2 * sigma**2))
    kernel = kernel / kernel.sum()
    ]] *)
Definition gaussian_kernel (kernel_size : nat) (sigma : R) : list (list R) :=
  let radius := (kernel_size / 2)%nat in
  let x_grid := repeat (x_coords kernel_size radius) kernel_size in
  let y_grid := transpose x_grid in
  let sq_dist :=
    elementwise Rplus (map (map (fun x => x ^ 2)) x_grid)
                      (map (map (fun y => y ^ 2)) y_grid) in
  let kernel := map (map (fun d => exp (- d / (2 * sigma ^ 2)))) sq_dist in
  let total := tensor_sum kernel in
  map (map (fun v => v / total)) kernel.

(** Zero padding of one (H, W) plane by [p] on each side. *)
Definition pad2d (p : nat) (plane : list (list R)) : list (list R) :=
  let W := length (hd [] plane) in
  let zrow := repeat 0 (p + W + p) in
  repeat zrow p
    ++ map (fun row => repeat 0 p ++ row ++ repeat 0 p) plane
    ++ repeat zrow p.

(** The [k] by [k] window of a plane whose top-left corner is at [(i, j)]. *)
Definition window (k i j : nat) (plane : list (list R)) : list (list R) :=
  map (fun row => firstn k (skipn j row)) (firstn k (skipn i plane)).

(** [F.conv2d] on one channel: cross-correlation of the padded plane with a
    [k] by [k] kernel, stride 1.  A kernel larger than the padded plane
    raises. *)
Definition conv2d_plane (p : nat) (kernel plane : list (list R))
  : option (list (list R)) :=
  let k := length kernel in
  let padded := pad2d p plane in
  let Hp := length padded in
  let Wp := length (hd [] padded) in
  if (k <=? Hp)%nat && (k <=? Wp)%nat then
    Some (map (fun i =>
                 map (fun j =>
                        tensor_sum (elementwise Rmult (window k i j padded) kernel))
                     (seq 0 (Wp - k + 1)))
              (seq 0 (Hp - k + 1)))
  else None.

(** [F.conv2d(image, kernel, padding=padding, groups=image.size(1))] with a
    kernel tensor of shape (C, 1, k, k): channel [c] of every image is
    filtered with [kernel[c][0]].  [groups = 0] raises. *)
Definition conv2d_grouped (p : nat) (kernels : list (list (list R)))
    (image : list (list (list (list R))))
  : option (list (list (list (list R)))) :=
  match kernels with
  | [] => None
  | _ =>
      mapM (fun img =>
              mapM (fun ck : list (list R) * list (list R) =>
                      conv2d_plane p (snd ck) (fst ck))
                   (zip img kernels))
           image
  end.

(** [image.size(1)] of a (B, C, H, W) tensor. *)
Definition size1 (image : list (list (list (list R)))) : nat :=
  length (hd [] image).

(** [[
    kernel = kernel.view(1, 1, *kernel.size())
    kernel = kernel.repeat(image.size(1), 1, 1, 1)
    padding = radius
    blurred_image = F.conv2d(image, kernel, padding=padding, groups=image.size(1))
    ]] *)
Definition gaussian_blur (image : list (list (list (list R))))
    (kernel_size : nat) (sigma : R)
  : option (list (list (list (list R)))) :=
  let radius := (kernel_size / 2)%nat in
  let kernel := gaussian_kernel kernel_size sigma in
  let kernel := repeat kernel (size1 image) in
  let padding := radius in
  conv2d_grouped padding kernel image.

(** ** Bit-rate features and the bpp estimate
       (train2_0602_qf80_8.py:730-739, val2_0602_qf80_8.py:505-520) *)

(** [(torch.log(torch.abs(blocks) + 1)) / (torch.log(torch.Tensor([2])))]
    on one coefficient. *)
Definition log_scale (c : R) : R := ln (Rabs c + 1) / ln 2.

(** [[
    blocks = rearrange(blocks, "b c n co -> b (c n) co")
    blocks = (torch.log(torch.abs(blocks) + 1)) / (torch.log(torch.Tensor([2])))
    blocks = rearrange(blocks, "b cn co -> (b cn) co")
    ]] on the zigzag-ordered tensor of shape (B, C, N, 64). *)
Definition estimator_features (zigzag : list (list (list (list R))))
  : list (list R) :=
  let blocks := map (fun img => concat img) zigzag in
  let blocks := map (map (map log_scale)) blocks in
  concat blocks.

(** [rearrange(t, "(b p1) 1 -> b p1", b=b)] on a (b * p1, 1) tensor given as
    the list of its rows' single entries; raises when the length is not a
    multiple of [b]. *)
Fixpoint chunks (p1 b : nat) (t : list R) : list (list R) :=
  match b with
  | O => []
  | S b' => firstn p1 t :: chunks p1 b' (skipn p1 t)
  end.

Definition rearrange_b_p1 (b : nat) (t : list R) : option (list (list R)) :=
  if (b =? 0)%nat then None
  else if (length t mod b =? 0)%nat then Some (chunks (length t / b) b t)
  else None.

(** [torch.mean] of a 1-D tensor. *)
Definition mean (t : list R) : R := sum_list t / INR (length t).

(** [[
    bpp_loss = rearrange(pred_code_len, "(b p1) 1  -> b p1", b=quantized_dct.shape[0])
    bpp_loss = torch.sum(bpp_loss, dim=1)
    bpp_loss = torch.mean(bpp_loss)
    bpp_loss = bpp_loss / (quantized_dct.shape[1] * quantized_dct.shape[2] * quantized_dct.shape[3])
    ]] where [shape = (B, C, H, W)] is the shape of [quantized_dct]. *)
Definition bpp_of_code_lengths (shape : nat * nat * nat * nat)
    (pred_code_len : list R) : option R :=
  let '(B, C, H, W) := shape in
  bpp_loss ← rearrange_b_p1 B pred_code_len;
  let bpp_loss := map sum_list bpp_loss in
  let bpp_loss := mean bpp_loss in
  Some (bpp_loss / INR (C * H * W)).

Section BitRate.
(** The frozen [Model_bpp_estimator]: one predicted code length per row of
    its (rows, 64) input. *)
Variable bitEstimator : list (list R) -> list R.

(** [pred_code_len = bitEstimator(blocks)] followed by the normalisation. *)
Definition bpp_estimate (shape : nat * nat * nat * nat)
    (zigzag : list (list (list (list R)))) : option R :=
  let blocks := estimator_features zigzag in
  let pred_code_len := bitEstimator blocks in
  bpp_of_code_lengths shape pred_code_len.
End BitRate.

(** ** The training step ([train] in train.py and train2_0602_qf80_8.py)

    The step is written over an arbitrary element type [V] with the
    arithmetic the step itself performs, so that it can be run on rationals
    and read on reals; nothing below relies on an algebraic law. *)

Class Arith (V : Type) : Type := {
  of_int : Z -> V;
  add : V -> V -> V;
  mul : V -> V -> V;
  div : V -> V -> V
}.

#[export] Instance Arith_R : Arith R :=
  {| of_int := IZR; add := Rplus; mul := Rmult; div := Rdiv |}.

#[export] Instance Arith_Q : Arith Q :=
  {| of_int := inject_Z; add := Qplus; mul := Qmult; div := Qdiv |}.

Module Training.

(** Which module a parameter tensor belongs to. *)
Inductive owner : Type :=
| Detector          (* model *)
| ControlBackbone   (* downscaling_network.resnet101 / dynamic_luminance_network.resnet *)
| ControlHead       (* extended_fc / fc1..fc4, bn1..bn3 *)
| BitEstimator.     (* bitEstimator *)

Inductive optimizer_id : Type :=
| optimizer         (* smart_optimizer(model, ...) *)
| ctrl_optimizer.   (* dfm_optimizer / dln_optimizer: Adam over the control network *)

Inductive loss_id : Type := TotalLoss | DetectionLoss.

Inductive event : Type :=
| EvBackward (l : loss_id) (scaled retain_graph : bool)
| EvUnscale (o : optimizer_id)
| EvClipGrad (o : optimizer_id)
| EvStep (o : optimizer_id) (through_scaler : bool)
| EvScalerUpdate
| EvZeroGrad (o : optimizer_id)
| EvEmaUpdate.

#[export] Instance owner_eq_dec : EqDecision owner.
Proof. solve_decision. Defined.
#[export] Instance optimizer_id_eq_dec : EqDecision optimizer_id.
Proof. solve_decision. Defined.
#[export] Instance loss_id_eq_dec : EqDecision loss_id.
Proof. solve_decision. Defined.
#[export] Instance event_eq_dec : EqDecision event.
Proof. solve_decision. Defined.

(** The parameters an optimizer was built over: [model] for [optimizer],
    [downscaling_network.parameters()] or
    [dynamic_luminance_network.parameters()] for the control optimizer. *)
Definition in_group (o : optimizer_id) (w : owner) : bool :=
  match o, w with
  | optimizer, Detector => true
  | ctrl_optimizer, (ControlBackbone | ControlHead) => true
  | _, _ => false
  end.

(** The components the training loop freezes. *)
Definition frozen_owner (w : owner) : bool :=
  match w with
  | ControlBackbone | BitEstimator => true
  | Detector | ControlHead => false
  end.

Section Step.
Context {V : Type} `{Arith V} {ostate batch : Type}.

Record param : Type := Param {
  p_name : string;
  p_owner : owner;
  p_data : V;
  p_requires_grad : bool;
  p_grad : option V
}.

Definition set_requires_grad (b : bool) (p : param) : param :=
  Param (p_name p) (p_owner p) (p_data p) b (p_grad p).

Definition set_grad (g : option V) (p : param) : param :=
  Param (p_name p) (p_owner p) (p_data p) (p_requires_grad p) g.

Definition set_data (d : V) (p : param) : param :=
  Param (p_name p) (p_owner p) d (p_requires_grad p) (p_grad p).

(** A freshly constructed [nn.Parameter]: gradients requested, none stored. *)
Definition fresh_param (spec : string * owner * V) : param :=
  let '(name, w, d) := spec in Param name w d true None.

(** *** Freezing before training *)

Definition owned_by (w : owner) (p : param) : bool :=
  bool_decide (p_owner p = w).

(** [for param in <selection>: param.requires_grad = b] *)
Definition freeze_where (sel : param -> bool) (b : bool)
    (ps : list param) : list param :=
  map (fun p => if sel p then set_requires_grad b p else p) ps.

(** [[
    for k, v in model.named_parameters():
        v.requires_grad = True
        if any(x in k for x in freeze):
            v.requires_grad = False
    ]] with [in_freeze k] for [any(x in k for x in freeze)]. *)
Definition freeze_detector_layers (in_freeze : string -> bool)
    (ps : list param) : list param :=
  map (fun p =>
         if owned_by Detector p then
           let p := set_requires_grad true p in
           if in_freeze (p_name p) then set_requires_grad false p else p
         else p) ps.

(** train.py:249-263. *)
Definition setup_train (in_freeze : string -> bool) (ps : list param)
  : list param :=
  let ps := freeze_where (owned_by ControlBackbone) false ps in
  let ps := freeze_where (owned_by ControlHead) true ps in
  freeze_detector_layers in_freeze ps.

(** train2_0602_qf80_8.py:403-404, 232-233 (in the constructor of the
    control network, called at line 405) and 433-438. *)
Definition setup_train2 (in_freeze : string -> bool) (ps : list param)
  : list param :=
  let ps := freeze_where (owned_by BitEstimator) false ps in
  let ps := freeze_where (owned_by ControlBackbone) false ps in
  freeze_detector_layers in_freeze ps.

(** *** State, effects and the environment of the loop *)

(** [OptState] of [torch.cuda.amp.GradScaler]. *)
Inductive opt_stage : Type := READY | UNSCALED | STEPPED.

Record grad_scaler : Type := GradScaler {
  gs_scale : V;
  gs_stage : optimizer_id -> opt_stage
}.

Record train_state : Type := TrainState {
  params : list param;
  last_opt_step : Z;
  accumulate : Z;
  scaler : grad_scaler;
  opt_state : ostate
}.

(** What the step prints: [bpp_loss], [loss] (the 1-element detection loss)
    and [total_loss], tensors given as the list of their elements. *)
Record step_losses : Type := StepLosses {
  sl_bpp_loss : list V;
  sl_loss : V;
  sl_total_loss : list V
}.

(** Options and process environment read by the loop. *)
Record config : Type := Config {
  RANK : Z;
  WORLD_SIZE : Z;
  quad : bool;
  amp : bool;
  nw : Z
}.

(** The parts of the loop that are not in this repository's sources or are
    whole networks: they are arbitrary functions. *)
Record environment : Type := Environment {
  (** derivative of a loss with respect to parameter [i] at the current
      parameters, [None] when the graph of the loss does not reach it *)
  gradient : loss_id -> list param -> batch -> nat -> option V;
  (** [downscaling_network(before_dfm_imgs)], one factor per image *)
  downscaling_network : list param -> batch -> list V;
  (** the scalar of train2_0602_qf80_8.py:652-739 *)
  bpp_of_batch : list param -> batch -> V;
  (** [compute_loss(pred, targets, ...)] after the detector's forward pass *)
  compute_loss : list param -> batch -> V;
  (** the update rule of an optimizer for the value and gradient of
      parameter [i], and how its own state moves on *)
  opt_update : optimizer_id -> ostate -> nat -> V -> V -> V;
  opt_advance : optimizer_id -> ostate -> list param -> ostate;
  (** the clipping coefficient of [clip_grad_norm_(..., max_norm=10.0)]
      from the gradients present *)
  clip_coef : list V -> V;
  (** the scale chosen by [scaler.update()] *)
  next_scale : V -> V;
  (** [np.interp(ni, xi, [1, nbs / batch_size]).round()] *)
  interp_round : Z -> Z;
  (** the learning-rate changes of the warm-up and of [scheduler.step()] *)
  warmup_lr : Z -> ostate -> ostate;
  scheduler_step : ostate -> ostate
}.

(** Computations of the loop: they read and write the training state, record
    the calls they make and may raise. *)
Definition M (A : Type) : Type :=
  train_state -> option (A * train_state * list event).

#[export] Instance M_ret : MRet M :=
  fun A a st => Some (a, st, []).

#[export] Instance M_bind : MBind M :=
  fun A B f m st =>
    match m st with
    | Some (a, st', evs) =>
        match f a st' with
        | Some (b, st'', evs') => Some (b, st'', evs ++ evs')
        | None => None
        end
    | None => None
    end.

Definition get : M train_state := fun st => Some (st, st, []).

Definition put (st : train_state) : M unit := fun _ => Some (tt, st, []).

Definition emit (e : event) : M unit := fun st => Some (tt, st, [e]).

Definition raise {A : Type} : M A := fun _ => None.

Definition with_params (ps : list param) (st : train_state) : train_state :=
  TrainState ps (last_opt_step st) (accumulate st) (scaler st) (opt_state st).

Definition with_scaler (g : grad_scaler) (st : train_state) : train_state :=
  TrainState (params st) (last_opt_step st) (accumulate st) g (opt_state st).

Definition with_opt_state (os : ostate) (st : train_state) : train_state :=
  TrainState (params st) (last_opt_step st) (accumulate st) (scaler st) os.

Definition with_accumulate (a : Z) (st : train_state) : train_state :=
  TrainState (params st) (last_opt_step st) a (scaler st) (opt_state st).

Definition with_last_opt_step (n : Z) (st : train_state) : train_state :=
  TrainState (params st) n (accumulate st) (scaler st) (opt_state st).

Definition set_stage (o : optimizer_id) (s : opt_stage) (g : grad_scaler)
  : grad_scaler :=
  GradScaler (gs_scale g)
             (fun o' => if bool_decide (o' = o) then s else gs_stage g o').

Variable cfg : config.
Variable E : environment.

(** *** Autograd, the optimizers and the gradient scaler *)

Definition accumulate_grad (old : option V) (g : V) : option V :=
  match old with
  | None => Some g
  | Some g0 => Some (add g0 g)
  end.

(** [(factor * l).backward()]: a gradient is accumulated into every leaf that
    requests one and that the graph of the loss reaches. *)
Definition autograd_backward (l : loss_id) (factor : option V) (b : batch)
    (ps : list param) : list param :=
  imap (fun i p =>
          if p_requires_grad p then
            match gradient E l ps b i with
            | Some g =>
                let g := match factor with
                         | Some s => mul s g
                         | None => g
                         end in
                set_grad (accumulate_grad (p_grad p) g) p
            | None => p
            end
          else p) ps.

(** [l.backward(retain_graph=...)], on [scaler.scale(l)] when [scaled]. *)
Definition backward (l : loss_id) (scaled retain_graph : bool) (b : batch)
  : M unit :=
  st ← get;
  let factor :=
    if scaled && amp cfg then Some (gs_scale (scaler st)) else None in
  put (with_params (autograd_backward l factor b (params st)) st);;
  emit (EvBackward l scaled retain_graph).

Definition map_group_grads (o : optimizer_id) (f : V -> V)
    (ps : list param) : list param :=
  map (fun p =>
         if in_group o (p_owner p) then set_grad (f <$> p_grad p) p else p) ps.

(** The in-place division of a group's gradients by the scale. *)
Definition unscale_grads (o : optimizer_id) (st : train_state) : train_state :=
  let inv_scale := div (of_int 1) (gs_scale (scaler st)) in
  let st := with_params
              (map_group_grads o (fun g => mul g inv_scale) (params st)) st in
  with_scaler (set_stage o UNSCALED (scaler st)) st.

(** [scaler.unscale_(o)] *)
Definition scaler_unscale_ (o : optimizer_id) : M unit :=
  st ← get;
  (if amp cfg then
     match gs_stage (scaler st) o with
     | READY => put (unscale_grads o st)
     | UNSCALED | STEPPED => raise
     end
   else mret tt);;
  emit (EvUnscale o).

(** [torch.nn.utils.clip_grad_norm_(<network of o>.parameters(), max_norm=10.0)] *)
Definition clip_grad_norm_ (o : optimizer_id) : M unit :=
  st ← get;
  let grads :=
    omap (fun p => if in_group o (p_owner p) then p_grad p else None)
         (params st) in
  let c := clip_coef E grads in
  put (with_params (map_group_grads o (fun g => mul g c) (params st)) st);;
  emit (EvClipGrad o).

(** [o.step()]: parameters of the group without a gradient are skipped. *)
Definition optimizer_step (o : optimizer_id) (st : train_state) : train_state :=
  let ps :=
    imap (fun i p =>
            if in_group o (p_owner p) then
              match p_grad p with
              | Some g =>
                  set_data (opt_update E o (opt_state st) i (p_data p) g) p
              | None => p
              end
            else p) (params st) in
  with_opt_state (opt_advance E o (opt_state st) (params st))
                 (with_params ps st).

Definition opt_step (o : optimizer_id) : M unit :=
  st ← get;
  put (optimizer_step o st);;
  emit (EvStep o false).

(** [scaler.step(o)]: unscales first when [unscale_] did not run since the
    last [update], then steps.  (The skip on non-finite gradients has no
    counterpart here.) *)
Definition scaler_step (o : optimizer_id) : M unit :=
  st ← get;
  (if amp cfg then
     match gs_stage (scaler st) o with
     | READY =>
         let st := optimizer_step o (unscale_grads o st) in
         put (with_scaler (set_stage o STEPPED (scaler st)) st)
     | UNSCALED =>
         let st := optimizer_step o st in
         put (with_scaler (set_stage o STEPPED (scaler st)) st)
     | STEPPED => raise
     end
   else put (optimizer_step o st));;
  emit (EvStep o true).

(** [scaler.update()] *)
Definition scaler_update : M unit :=
  st ← get;
  (if amp cfg then
     put (with_scaler
            (GradScaler (next_scale E (gs_scale (scaler st))) (fun _ => READY))
            st)
   else mret tt);;
  emit EvScalerUpdate.

(** [o.zero_grad()]; the stored gradients are dropped (set to [None]). *)
Definition zero_grad (o : optimizer_id) : M unit :=
  st ← get;
  put (with_params
         (map (fun p => if in_group o (p_owner p) then set_grad None p else p)
              (params st)) st);;
  emit (EvZeroGrad o).

(** [if ema: ema.update(model, <control network>)], where [ema] exists on
    ranks -1 and 0 only.  The shadow weights are not part of the state. *)
Definition ema_update : M unit :=
  if bool_decide (RANK cfg = (-1)%Z) || bool_decide (RANK cfg = 0%Z)
  then emit EvEmaUpdate else mret tt.

(** [[
    if ni <= nw:
        accumulate = max(1, np.interp(ni, xi, [1, nbs / batch_size]).round())
        for j, x in enumerate(optimizer.param_groups): ...
    ]] *)
Definition warmup (ni : Z) : M unit :=
  st ← get;
  if (ni <=? nw cfg)%Z then
    put (with_opt_state (warmup_lr E ni (opt_state st))
           (with_accumulate (Z.max 1 (interp_round E ni)) st))
  else mret tt.

(** [[
    if RANK != -1:
        loss *= WORLD_SIZE
    if opt.quad:
        loss *= 4.0
    ]] *)
Definition scale_detection_loss (loss : V) : V :=
  let loss :=
    if bool_decide (RANK cfg ≠ (-1)%Z)
    then mul loss (of_int (WORLD_SIZE cfg)) else loss in
  if quad cfg then mul loss (of_int 4) else loss.

(** *** The two training steps *)

(** [if ni - last_opt_step >= accumulate:] *)
Definition accumulation_reached (ni : Z) (st : train_state) : bool :=
  (accumulate st <=? ni - last_opt_step st)%Z.

(** [total_loss = 40 * bpp_loss + loss] (train.py:522) *)
Definition total_loss_downscaling (bpp_loss loss : V) : V :=
  add (mul (of_int 40) bpp_loss) loss.

(** [total_loss = 1 * bpp_loss + 8 * loss] (train2_0602_qf80_8.py:757) *)
Definition total_loss_luminance (bpp_loss loss : V) : V :=
  add (mul (of_int 1) bpp_loss) (mul (of_int 8) loss).

(** One iteration of the batch loop of train.py (lines 444-555).
    [bpp_loss = 1 / downscaling_factor] has one entry per image and so has
    [total_loss]; [backward] on a tensor with more than one element raises. *)
Definition train_step (ni : Z) (b : batch) : M step_losses :=
  warmup ni;;
  st ← get;
  let downscaling_factor := downscaling_network E (params st) b in
  let bpp_loss := map (fun d => div (of_int 1) d) downscaling_factor in
  let loss := compute_loss E (params st) b in
  let loss := scale_detection_loss loss in
  let total_loss := map (fun x => total_loss_downscaling x loss) bpp_loss in
  match total_loss with
  | [_] => backward TotalLoss false true b
  | _ => raise
  end;;
  backward DetectionLoss true false b;;
  st ← get;
  (if accumulation_reached ni st then
     scaler_unscale_ optimizer;;
     clip_grad_norm_ optimizer;;
     opt_step ctrl_optimizer;;
     zero_grad ctrl_optimizer;;
     scaler_step optimizer;;
     scaler_update;;
     zero_grad optimizer;;
     ema_update;;
     st ← get;
     put (with_last_opt_step ni st)
   else mret tt);;
  mret (StepLosses bpp_loss loss total_loss).

(** One iteration of the batch loop of train2_0602_qf80_8.py (lines
    618-778).  [bpp_loss] is a 0-dim tensor and [total_loss] has one
    element. *)
Definition train2_step (ni : Z) (b : batch) : M step_losses :=
  warmup ni;;
  st ← get;
  let bpp_loss := bpp_of_batch E (params st) b in
  let loss := compute_loss E (params st) b in
  let loss := scale_detection_loss loss in
  let total_loss := total_loss_luminance bpp_loss loss in
  backward TotalLoss true false b;;
  st ← get;
  (if accumulation_reached ni st then
     scaler_unscale_ optimizer;;
     scaler_unscale_ ctrl_optimizer;;
     clip_grad_norm_ ctrl_optimizer;;
     clip_grad_norm_ optimizer;;
     scaler_step ctrl_optimizer;;
     scaler_update;;
     scaler_step optimizer;;
     scaler_update;;
     zero_grad ctrl_optimizer;;
     zero_grad optimizer;;
     ema_update;;
     st ← get;
     put (with_last_opt_step ni st)
   else mret tt);;
  mret (StepLosses [bpp_loss] loss [total_loss]).

(** *** The loops around the step *)

(** [for i, (imgs, targets, paths, _) in pbar:] with
    [ni = i + nb * epoch]. *)
Fixpoint batch_loop (step : Z -> batch -> M step_losses) (nb epoch i : Z)
    (batches : list batch) : M (list step_losses) :=
  match batches with
  | [] => mret []
  | b :: rest =>
      l ← step (i + nb * epoch)%Z b;
      ls ← batch_loop step nb epoch (i + 1)%Z rest;
      mret (l :: ls)
  end.

(** The body of the epoch loop: both [zero_grad] calls, the batches, then the
    schedulers. *)
Definition train_epoch (step : Z -> batch -> M step_losses) (epoch : Z)
    (batches : list batch) : M (list step_losses) :=
  zero_grad optimizer;;
  zero_grad ctrl_optimizer;;
  ls ← batch_loop step (Z.of_nat (length batches)) epoch 0 batches;
  st ← get;
  put (with_opt_state (scheduler_step E (opt_state st)) st);;
  mret ls.

(** [for epoch in range(start_epoch, epochs):] over the batches the loader
    yields in each epoch. *)
Fixpoint train_epochs (step : Z -> batch -> M step_losses) (epoch : Z)
    (loader : list (list batch)) : M (list step_losses) :=
  match loader with
  | [] => mret []
  | batches :: rest =>
      ls ← train_epoch step epoch batches;
      ls' ← train_epochs step (epoch + 1)%Z rest;
      mret (ls ++ ls')
  end.

(** The state training starts from: the networks' parameters after the
    freezing code, [last_opt_step = -1], [accumulate = max(round(nbs /
    batch_size), 1)] and a new gradient scaler. *)
Definition initial_state (ps : list param) (accumulate0 : Z) (scale0 : V)
    (os : ostate) : train_state :=
  TrainState ps (-1) accumulate0 (GradScaler scale0 (fun _ => READY)) os.

(** The frozen components hold their values as long as the backbone of the
    control network requests no gradient and stores none; the bit-rate
    estimator is in no optimizer. *)
Definition frozen_ok (ps : list param) : Prop :=
  Forall (fun p => p_owner p = ControlBackbone ->
                   p_requires_grad p = false /\ p_grad p = None) ps.

(** Same parameters in the same order, and the same values in the frozen
    components. *)
Definition same_frozen (ps ps' : list param) : Prop :=
  Forall2 (fun p p' =>
             p_name p' = p_name p /\ p_owner p' = p_owner p
             /\ (frozen_owner (p_owner p) = true -> p_data p' = p_data p))
          ps ps'.

(** One operation of the loop keeps the frozen components: if they were
    safe before, they are safe and unchanged after. *)
Definition keeps (ps ps' : list param) : Prop :=
  frozen_ok ps -> frozen_ok ps' /\ same_frozen ps ps'.

(** An update of single parameters that keeps names and owners, leaves the
    bit-rate estimator's values alone and does not touch a backbone
    parameter that neither requests nor stores a gradient. *)
Definition harmless (f : nat -> param -> param) : Prop :=
  forall (i : nat) (p : param),
    p_name (f i p) = p_name p /\ p_owner (f i p) = p_owner p
    /\ (p_owner p = BitEstimator -> p_data (f i p) = p_data p)
    /\ (p_owner p = ControlBackbone -> p_requires_grad p = false ->
        p_grad p = None -> f i p = p).

(** The value of [accumulate] the step compares against, after the warm-up
    branch, and whether the step reaches the optimizers. *)
Definition accumulate_at (ni : Z) (st : train_state) : Z :=
  if (ni <=? nw cfg)%Z then Z.max 1 (interp_round E ni) else accumulate st.

Definition steps_now (ni : Z) (st : train_state) : bool :=
  (accumulate_at ni st <=? ni - last_opt_step st)%Z.

(** The calls of [ema_update] and of the two [if ni - last_opt_step >=
    accumulate:] blocks, in program order. *)
Definition ema_events : list event :=
  if bool_decide (RANK cfg = (-1)%Z) || bool_decide (RANK cfg = 0%Z)
  then [EvEmaUpdate] else [].

Definition train_optimize_events : list event :=
  [EvUnscale optimizer; EvClipGrad optimizer;
   EvStep ctrl_optimizer false; EvZeroGrad ctrl_optimizer;
   EvStep optimizer true; EvScalerUpdate; EvZeroGrad optimizer]
  ++ ema_events.

Definition train2_optimize_events : list event :=
  [EvUnscale optimizer; EvUnscale ctrl_optimizer;
   EvClipGrad ctrl_optimizer; EvClipGrad optimizer;
   EvStep ctrl_optimizer true; EvScalerUpdate;
   EvStep optimizer true; EvScalerUpdate;
   EvZeroGrad ctrl_optimizer; EvZeroGrad optimizer]
  ++ ema_events.

Definition is_backward (e : event) : bool :=
  match e with
  | EvBackward _ _ _ => true
  | _ => false
  end.

Definition is_step (e : event) : bool :=
  match e with
  | EvStep _ _ => true
  | _ => false
  end.
(** A computation returns from every state that satisfies [pre], in a
    state that satisfies [post]. *)
Definition returns {A : Type} (pre : train_state -> Prop) (m : M A)
    (post : train_state -> Prop) : Prop :=
  forall st : train_state,
    pre st ->
    exists (a : A) (st' : train_state) (evs : list event),
      m st = Some (a, st', evs) /\ post st'.

(** Where the scaler stands for the two optimizers, when it is enabled. *)
Definition stage_is (s_det s_ctrl : opt_stage) (st : train_state) : Prop :=
  amp cfg = true ->
  gs_stage (scaler st) optimizer = s_det
  /\ gs_stage (scaler st) ctrl_optimizer = s_ctrl.

(** A step's record of calls starts with its only [backward], taken on the
    scaled combined loss. *)
Definition single_scaled_backward (evs : list event) : Prop :=
  exists rest : list event,
    evs = EvBackward TotalLoss true false :: rest
    /\ Forall (fun e => is_backward e = false) rest.

(** The combined loss of a step is the weighted sum [wa * bpp_loss +
    wb * loss] of its bpp estimate and its detection loss. *)
Definition weighted_sum (wa wb : Z) (l : step_losses) : Prop :=
  exists bpp : V,
    sl_bpp_loss l = [bpp]
    /\ sl_total_loss l
       = [add (mul (of_int wa) bpp) (mul (of_int wb) (sl_loss l))].

End Step.

(** *** A small instance on rationals, on which the steps run *)

Definition cfg0 : config := Config (-1) 1 false true 100.

Definition env0 : @environment Q unit unit :=
  {| gradient := fun _ _ _ _ => Some 1%Q;
     downscaling_network := fun _ _ => [2%Q];
     bpp_of_batch := fun _ _ => 3%Q;
     compute_loss := fun _ _ => 5%Q;
     opt_update := fun _ _ _ d g => (d - g)%Q;
     opt_advance := fun _ os _ => os;
     clip_coef := fun _ => 1%Q;
     next_scale := fun s => s;
     interp_round := fun _ => 1%Z;
     warmup_lr := fun _ os => os;
     scheduler_step := fun os => os |}.

Definition specs0 : list (string * owner * Q) :=
  [("model.0.conv.weight", Detector, 1%Q);
   ("resnet.conv1.weight", ControlBackbone, 2%Q);
   ("fc4.weight", ControlHead, 3%Q);
   ("dc_predictor.fc1.weight", BitEstimator, 4%Q)].

Definition train_state0 : @train_state Q unit :=
  initial_state (setup_train (fun _ => false) (map fresh_param specs0))
                1 65536%Q tt.

Definition train2_state0 : @train_state Q unit :=
  initial_state (setup_train2 (fun _ => false) (map fresh_param specs0))
                1 65536%Q tt.
End Training.

(** ** Loading a pretrained checkpoint (train.py:230-243,
       train2_0602_qf80_8.py:395-418) *)

Module Checkpoint.

Inductive log_record : Type :=
| LoggerInfo (msg : string)      (* LOGGER.info *)
| LoggerWarning (msg : string)   (* LOGGER.warning *)
| Stdout (msg : string).         (* print *)

Definition is_warning (r : log_record) : bool :=
  match r with
  | LoggerWarning _ => true
  | _ => false
  end.

Section Loading.
Context {V : Type}.

(** [utils.general.intersect_dicts(csd, model.state_dict(), exclude=exclude)];
    only the number of entries it keeps is used below. *)
Variable intersect_dicts : gmap string V -> gmap string V -> gmap string V.

(** [module.load_state_dict(state)], strict: the keys of [state] must be the
    module's own, otherwise it raises. *)
Definition load_state_dict (own state : gmap string V)
  : option (gmap string V) :=
  if decide (dom state = dom own) then Some state else None.

(** [module.load_state_dict(state, strict=False)]: entries under the module's
    own keys are taken over, the others are ignored. *)
Definition load_state_dict_lenient (own state : gmap string V)
  : gmap string V :=
  filter (fun kv => is_Some (own !! kv.1)) state ∪ own.

(** [f"Transferred {len(csd)}/{len(model.state_dict())} items from {weights}"] *)
Definition transferred_report (csd model : gmap string V) (weights : string)
  : string :=
  "Transferred " +:+ pretty (size csd) +:+ "/" +:+ pretty (size model)
    +:+ " items from " +:+ weights.

(** The [if pretrained:] branch of train.py.  A checkpoint is the dict
    [torch.load] returns, its entries given by their state dicts; the two
    networks come in freshly constructed.  The result is the detector's and
    the control network's state dict and what was logged. *)
Definition load_pretrained_train (weights : string)
    (ckpt : gmap string (gmap string V)) (model downscaling_network : gmap string V)
  : option (gmap string V * gmap string V * list log_record) :=
  csd ← ckpt !! "model";
  let csd := intersect_dicts csd model in
  let model' := load_state_dict_lenient model csd in
  match ckpt !! "downscaling_network" with
  | Some state =>
      downscaling_network' ← load_state_dict downscaling_network state;
      Some (model', downscaling_network',
            [Stdout "Loaded downscaling_network weight@@@@";
             LoggerInfo (transferred_report csd model' weights)])
  | None =>
      Some (model', downscaling_network,
            [LoggerInfo (transferred_report csd model' weights)])
  end.

(** The [if pretrained:] branch of train2_0602_qf80_8.py. *)
Definition load_pretrained_train2 (weights : string)
    (ckpt : gmap string (gmap string V))
    (model dynamic_luminance_network : gmap string V)
  : option (gmap string V * gmap string V * list log_record) :=
  csd ← ckpt !! "model";
  let csd := intersect_dicts csd model in
  let model' := load_state_dict_lenient model csd in
  match ckpt !! "dynamic_luminance_network" with
  | Some state =>
      dynamic_luminance_network' ←
        load_state_dict dynamic_luminance_network state;
      Some (model', dynamic_luminance_network',
            [Stdout "dynamic_luminance_network 가중치 pretrained 에서 가져옴."])
  | None =>
      Some (model', dynamic_luminance_network,
            [LoggerInfo (transferred_report csd model' weights)])
  end.
End Loading.

(** *** A checkpoint written by the stock detector training, without a
        control-network entry, and freshly constructed networks *)

Definition ckpt_plain : gmap string (gmap string Z) :=
  {[ "model" := {[ "model.0.conv.weight" := 5%Z ]} ]}.

Definition ckpt_joint : gmap string (gmap string Z) :=
  <[ "downscaling_network" := {[ "extended_fc.0.weight" := 9%Z ]} ]>
    (<[ "dynamic_luminance_network" := {[ "fc4.weight" := 8%Z ]} ]>
       ckpt_plain).

Definition fresh_model : gmap string Z := {[ "model.0.conv.weight" := 0%Z ]}.

Definition fresh_downscaling_network : gmap string Z :=
  {[ "extended_fc.0.weight" := 1%Z ]}.

Definition fresh_dynamic_luminance_network : gmap string Z :=
  {[ "fc4.weight" := 2%Z ]}.

(** Stand-in for [intersect_dicts]: the entries whose key the model has. *)
Definition keep_common (csd model : gmap string Z) : gmap string Z :=
  filter (fun kv => is_Some (model !! kv.1)) csd.
End Checkpoint.

(** ** The degradation loop (train2_0602_qf80_8.py:652-666) *)

(** [[
    resized_imgs = []
    for img, weights in zip(imgs, dynamic_luminance_weights):
        resized_img = reinhard_tone_mapping(img.unsqueeze(0), weights[0])
        kernel_size = 5 if weights[1] >= 0.8 else 3
        resized_img = gaussian_blur(resized_img, kernel_size=kernel_size, sigma=weights[1])
        resized_imgs.append(resized_img)
    resized_imgs = torch.cat(resized_imgs, dim=0)
    ]] on a (B, 3, H, W) batch and a (B, 2) weight tensor.  [torch.cat] of an
    empty list raises. *)
Definition choose_kernel_size (sigma : R) : nat :=
  if Rle_dec 0.8 sigma then 5%nat else 3%nat.

Definition tone_map_and_blur (imgs : list (list (list (list R))))
    (dynamic_luminance_weights : list (R * R))
  : option (list (list (list (list R)))) :=
  resized_imgs ←
    mapM (fun iw : list (list (list R)) * (R * R) =>
            let '(img, weights) := iw in
            resized_img ← ReinhardToneMapping_forward 1 img (fst weights);
            let kernel_size := choose_kernel_size (snd weights) in
            gaussian_blur [resized_img] kernel_size (snd weights))
         (zip imgs dynamic_luminance_weights);
  match resized_imgs with
  | [] => None
  | _ => Some (concat resized_imgs)
  end.

(** [nn.BatchNorm1d] in training mode calls [F.batch_norm], which starts
    with
    [[
    def _verify_batch_size(size):
        size_prods = size[0]
        for i in range(len(size) - 2):
            size_prods *= size[i + 2]
        if size_prods == 1:
            raise ValueError("Expected more than 1 value per channel when training, ...")
    ]] *)
Definition verify_batch_size (size : list nat) : option unit :=
  let size_prods := foldl Nat.mul (hd 0%nat size) (drop 2 size) in
  if bool_decide (size_prods = 1%nat) then None else Some tt.

Section Degrade.
(** The control network up to [fc4], as in [ControlNetworks]: in training
    mode its result depends on the whole batch (batch statistics, dropout),
    so it is a function of the batch. *)
Variable fc4_out : list (list (list (list R))) -> list (R * R).

(** [dynamic_luminance_network(imgs)] after
    [dynamic_luminance_network.train()] (train2_0602_qf80_8.py:591, 652):
    [self.bn1 = nn.BatchNorm1d(512)] receives a (B, 512) tensor
    (train2_0602_qf80_8.py:266) and raises on a batch of one image. *)
Definition DynamicLuminanceWeightNetwork_train
    (imgs : list (list (list (list R)))) : option (list (R * R)) :=
  verify_batch_size [length imgs; 512%nat];;
  Some (DynamicLuminanceWeightNetwork_forward fc4_out imgs).

(** [[
    dynamic_luminance_weights = dynamic_luminance_network(imgs)
    dynamic_luminance_weights = torch.clamp(dynamic_luminance_weights, min=0, max=5)
    ]] followed by the loop (train2_0602_qf80_8.py:652-666). *)
Definition degrade_train2 (imgs : list (list (list (list R))))
  : option (list (list (list (list R)))) :=
  dynamic_luminance_weights ← DynamicLuminanceWeightNetwork_train imgs;
  let dynamic_luminance_weights := clamp_weights dynamic_luminance_weights in
  tone_map_and_blur imgs dynamic_luminance_weights.
End Degrade.

(** All elements of a tensor lie in [0, 1]. *)
Definition unit_range2 (t : list (list R)) : Prop :=
  Forall (Forall (fun v => 0 <= v <= 1)) t.

Definition unit_range3 (t : list (list (list R))) : Prop :=
  Forall unit_range2 t.

Definition unit_range4 (t : list (list (list (list R)))) : Prop :=
  Forall unit_range3 t.

(** ** What an optimizing step leaves behind *)

Section StoredGradients.
Context {V : Type}.

(** No parameter of the optimizer [o] holds a gradient: the state after
    [o.zero_grad()]. *)
Definition no_stored_grads (o : Training.optimizer_id)
    (ps : list (@Training.param V)) : Prop :=
  Forall (fun p => Training.in_group o (Training.p_owner p) = true ->
                   Training.p_grad p = None) ps.
End StoredGradients.

(** ** The luminance/blur step on a batch of images *)

Section Train2Batch.
Context {V : Type} `{Arith V} {ostate batch : Type}.
Variable cfg : Training.config.
Variable E : @Training.environment V ostate batch.

(** [imgs.shape[0]] *)
Variable batch_size : batch -> nat.

(** One iteration of the batch loop of train2_0602_qf80_8.py on a batch of
    [batch_size b] images.  The loop runs after
    [dynamic_luminance_network.train()] (line 591), so the forward pass of
    line 652 raises in [self.bn1] on a batch of one image, before any loss
    is formed.  A step that raises leaves no result and no state here, so
    the check comes first. *)
Definition train2_batch_step (ni : Z) (b : batch)
    (st : @Training.train_state V ostate) :=
  verify_batch_size [batch_size b; 512%nat];;
  Training.train2_step cfg E ni b st.
End Train2Batch.

(** States in the middle of a run, past the warm-up when taken at batch 101:
    [accumulate = 4] and the last optimizer step at batch 100. *)
Definition train_state_mid : @Training.train_state Q unit :=
  Training.with_last_opt_step 100
    (Training.with_accumulate 4 Training.train_state0).

Definition train2_state_mid : @Training.train_state Q unit :=
  Training.with_last_opt_step 100
    (Training.with_accumulate 4 Training.train2_state0).

(** The downscaling variant on reals, with a control network whose last
    linear layer yields 0 on the one image of the batch. *)
Definition env_tanh : @Training.environment R unit unit :=
  {| Training.gradient := fun _ _ _ _ => Some 1;
     Training.downscaling_network :=
       fun _ _ => DownscalingNetwork_forward (fun _ : list unit => [0]) [tt];
     Training.bpp_of_batch := fun _ _ => 3;
     Training.compute_loss := fun _ _ => 5;
     Training.opt_update := fun _ _ _ d g => d - g;
     Training.opt_advance := fun _ os _ => os;
     Training.clip_coef := fun _ => 1;
     Training.next_scale := fun s => s;
     Training.interp_round := fun _ => 1%Z;
     Training.warmup_lr := fun _ os => os;
     Training.scheduler_step := fun os => os |}.

Definition train_stateR : @Training.train_state R unit :=
  Training.initial_state [] 1 65536 tt.

(** ** The end of a batch and of an epoch ([train] in train.py and
       train2_0602_qf80_8.py) *)

(** [[
    mloss = (mloss * i + loss_items) / (i + 1)
    mtotal_loss = (mtotal_loss * i + total_loss) / (i + 1)
    mbpp_loss = (mbpp_loss * i + bpp_loss) / (i + 1)
    ]] on one component, for batch [i] of the epoch. *)
Definition update_mean (m : R) (i : nat) (x : R) : R :=
  (m * INR i + x) / INR (i + 1).

(** The value shown after the batches [xs], numbered from [i]. *)
Fixpoint mean_loop (m : R) (i : nat) (xs : list R) : R :=
  match xs with
  | [] => m
  | x :: rest => mean_loop (update_mean m i x) (S i) rest
  end.

(** [lf = lambda x: (1 - x / epochs) * (1.0 - hyp["lrf"]) + hyp["lrf"]] *)
Definition lf (epochs lrf x : R) : R :=
  (1 - x / epochs) * (1.0 - lrf) + lrf.

(** [lr_lambda=lambda epoch: 0.95**epoch] of the control network's
    scheduler (train2_0602_qf80_8.py:476). *)
Definition dln_lr_lambda (epoch : nat) : R := 0.95 ^ epoch.

Section EpochEnd.
(** What a checkpoint holds of the networks, the optimizers and the
    options. *)
Context {W : Type}.

(** The entries ["epoch"] and ["best_fitness"] of the saved dict and the
    rest of it. *)
Record checkpoint : Type := Ckpt {
  ck_epoch : Z;
  ck_best_fitness : Qc;
  ck_state : W
}.

Record save_options : Type := SaveOptions {
  nosave : bool;
  evolve : bool;
  save_period : Z;
  epochs : Z
}.

(** [best_fitness] and the files of the weights directory. *)
Record run_state : Type := RunState {
  rs_best_fitness : Qc;
  rs_files : gmap string checkpoint
}.

(** [w / f"epoch{epoch}.pt"] *)
Definition epoch_file (epoch : Z) : string :=
  "epoch" +:+ pretty epoch +:+ ".pt".

(** [[
    final_epoch = (epoch + 1 == epochs) or stopper.possible_stop
    ...
    if fi > best_fitness:
        best_fitness = fi
    ...
    if (not nosave) or (final_epoch and not evolve):  # if save
        ckpt = {"epoch": epoch, "best_fitness": best_fitness, ...}
        torch.save(ckpt, last)
        if best_fitness == fi:
            torch.save(ckpt, best)
        if opt.save_period > 0 and epoch % opt.save_period == 0:
            torch.save(ckpt, w / f"epoch{epoch}.pt")
    ]] with the fitness [fi] of the epoch and the state to be saved. *)
Definition epoch_end (o : save_options) (epoch : Z) (possible_stop : bool)
    (fi : Qc) (state : W) (st : run_state) : run_state :=
  let final_epoch := bool_decide (epoch + 1 = epochs o)%Z || possible_stop in
  let best_fitness :=
    if bool_decide (rs_best_fitness st < fi)%Qc then fi
    else rs_best_fitness st in
  if negb (nosave o) || (final_epoch && negb (evolve o)) then
    let ckpt := Ckpt epoch best_fitness state in
    let files := <["last.pt" := ckpt]> (rs_files st) in
    let files :=
      if bool_decide (best_fitness = fi) then <["best.pt" := ckpt]> files
      else files in
    let files :=
      if bool_decide (0 < save_period o)%Z
         && bool_decide (epoch mod save_period o = 0)%Z
      then <[epoch_file epoch := ckpt]> files
      else files in
    RunState best_fitness files
  else RunState best_fitness (rs_files st).

(** [for epoch in range(start_epoch, epochs):] over the epochs that run
    before the loop ends or breaks, each with what the early stopper says,
    its fitness and the state it would save. *)
Fixpoint epochs_loop (o : save_options) (epoch : Z)
    (results : list (bool * Qc * W)) (st : run_state) : run_state :=
  match results with
  | [] => st
  | (possible_stop, fi, state) :: rest =>
      epochs_loop o (epoch + 1)%Z rest
        (epoch_end o epoch possible_stop fi state st)
  end.
End EpochEnd.

(** Three epochs of a run that saves every epoch: the second and the third
    reach the same, best fitness. *)
Definition three_epochs : list (bool * Qc * string) :=
  [(false, Q2Qc (1 # 4), "weights after epoch 0");
   (false, Q2Qc (1 # 2), "weights after epoch 1");
   (false, Q2Qc (1 # 2), "weights after epoch 2")].

Definition run_state0 : @run_state string := RunState (Q2Qc 0) ∅.

(** ** [process_batch] (val2_0602_qf80_8.py:288) *)

Section ProcessBatch.
(** A box [x1, y1, x2, y2] and [utils.metrics.box_iou], which returns the
    (M, N) matrix of the IoU of every label box with every detection box. *)
Context {box : Type}.
Variable box_iou : list box -> list box -> list (list Qc).

(** [matches[:, 2].argsort()]: numpy's default sort is not stable, so the
    order among equal keys is left to the argument. *)
Variable argsort : list Qc -> list nat.

(** [torch.where((iou >= iouv[i]) & correct_class)] and the rows
    [label, detect, iou] built from it, in row-major order. *)
Definition where_matches (iou : list (list Qc)) (label_cls det_cls : list Z)
    (threshold : Qc) : list (nat * nat * Qc) :=
  concat
    (imap (fun (l : nat) (lrow : list Qc * Z) =>
             omap (fun o => o)
               (imap (fun (d : nat) (dv : Qc * Z) =>
                        if bool_decide (threshold <= dv.1)%Qc
                           && bool_decide (lrow.2 = dv.2)
                        then Some (l, d, dv.1) else None)
                     (zip lrow.1 det_cls)))
          (zip iou label_cls)).

(** [a[index]] for an index array. *)
Definition take_rows {A : Type} (index : list nat) (a : list A) : list A :=
  omap (fun k => a !! k) index.

(** [np.unique(keys, return_index=True)[1]]: for each distinct key, in
    ascending order, the index of its first occurrence. *)
Definition unique_index (keys : list nat) : list nat :=
  omap (fun k => fst <$> list_find (fun x => x = k) keys)
       (merge_sort Nat.le (remove_dups keys)).

(** [[
    if x[0].shape[0] > 1:
        matches = matches[matches[:, 2].argsort()[::-1]]
        matches = matches[np.unique(matches[:, 1], return_index=True)[1]]
        matches = matches[np.unique(matches[:, 0], return_index=True)[1]]
    ]] *)
Definition reduce_matches (matches : list (nat * nat * Qc))
  : list (nat * nat * Qc) :=
  match matches with
  | _ :: _ :: _ =>
      let matches :=
        take_rows (reverse (argsort (map (fun m => m.2) matches))) matches in
      let matches :=
        take_rows (unique_index (map (fun m => m.1.2) matches)) matches in
      let matches :=
        take_rows (unique_index (map (fun m => m.1.1) matches)) matches in
      matches
  | _ => matches
  end.

(** The matches kept for one IoU level. *)
Definition level_matches (detections : list (box * Qc * Z))
    (labels : list (Z * box)) (threshold : Qc) : list (nat * nat * Qc) :=
  let iou := box_iou (map snd labels) (map (fun d => d.1.1) detections) in
  reduce_matches
    (where_matches iou (map fst labels) (map snd detections) threshold).

(** [correct], one row per detection and one column per IoU level:
    [correct[matches[:, 1].astype(int), i] = True]. *)
Definition process_batch (detections : list (box * Qc * Z))
    (labels : list (Z * box)) (iouv : list Qc) : list (list bool) :=
  imap (fun (d : nat) (_ : box * Qc * Z) =>
          map (fun threshold =>
                 bool_decide
                   (d ∈ map (fun m => m.1.2)
                            (level_matches detections labels threshold)))
              iouv)
       detections.
End ProcessBatch.

(** An [argsort] by merge sort, for running [process_batch], and an IoU
    matrix given outright. *)
Definition argsort_by_merge (keys : list Qc) : list nat :=
  map fst
    (@merge_sort (nat * Qc) (fun a b => (a.2 <= b.2)%Qc)
                 (fun a b => decide (a.2 <= b.2)%Qc)
                 (imap (fun i k => (i, k)) keys)).

Definition iou_example (labels detections : list unit) : list (list Qc) :=
  [[Q2Qc (9 # 10); Q2Qc (6 # 10); Q2Qc 0];
   [Q2Qc (7 # 10); Q2Qc (1 # 10); Q2Qc 0]].

(** ** The genetic algorithm of [main] (train.py:753,
       train2_0602_qf80_8.py:971) *)

Module Evolve.

(** [[
    pop_size = 50
    mutation_rate_min = 0.01
    mutation_rate_max = 0.5
    crossover_rate_min = 0.5
    crossover_rate_max = 1
    min_elite_size = 2
    max_elite_size = 5
    tournament_size_min = 2
    tournament_size_max = 10
    ]] *)
Definition pop_size : Z := 50.
Definition mutation_rate_min : Q := 1 # 100.
Definition mutation_rate_max : Q := 1 # 2.
Definition crossover_rate_min : Q := 1 # 2.
Definition crossover_rate_max : Q := 1.
Definition min_elite_size : Z := 2.
Definition max_elite_size : Z := 5.
Definition tournament_size_min : Z := 2.
Definition tournament_size_max : Z := 10.

(** [int(x)] on a number: truncation towards zero. *)
Definition python_int (x : Q) : Z := Z.quot (Qnum x) (Z.pos (Qden x)).

(** [elite_size = min_elite_size + int((max_elite_size - min_elite_size) *
    (generation / opt.evolve))] *)
Definition elite_size (generation evolve : Z) : Z :=
  min_elite_size
  + python_int (inject_Z (max_elite_size - min_elite_size)
                * (inject_Z generation / inject_Z evolve)).

(** [[
    tournament_size = max(
        max(2, tournament_size_min),
        int(min(tournament_size_max, pop_size) - (generation / (opt.evolve / 10))),
    )
    ]] *)
Definition tournament_size (generation evolve : Z) : Z :=
  Z.max (Z.max 2 tournament_size_min)
        (python_int (inject_Z (Z.min tournament_size_max pop_size)
                     - inject_Z generation / (inject_Z evolve / 10))).

(** [crossover_rate = max(crossover_rate_min, min(crossover_rate_max,
    crossover_rate_max - (generation / opt.evolve)))] *)
Definition crossover_rate (generation evolve : Z) : Q :=
  Qmax crossover_rate_min
       (Qmin crossover_rate_max
             (crossover_rate_max - inject_Z generation / inject_Z evolve)).

(** [mutation_rate = max(mutation_rate_min, min(mutation_rate_max,
    mutation_rate_max - (generation / opt.evolve)))] *)
Definition mutation_rate (generation evolve : Z) : Q :=
  Qmax mutation_rate_min
       (Qmin mutation_rate_max
             (mutation_rate_max - inject_Z generation / inject_Z evolve)).

(** [max(xs)] of a list; raises on an empty one. *)
Definition list_max_Qc (xs : list Qc) : option Qc :=
  match xs with
  | [] => None
  | x :: rest =>
      Some (foldl (fun m y => if bool_decide (m < y)%Qc then y else m) x rest)
  end.

(** [xs.index(x)]: the first position of [x]; raises when there is none. *)
Definition list_index (x : Qc) (xs : list Qc) : option nat :=
  fst <$> list_find (fun y => y = x) xs.

(** [[
    tournament_fitness = [fitness_scores[j] for j in tournament_indices]
    winner_index = tournament_indices[tournament_fitness.index(max(tournament_fitness))]
    ]] for the indices [random.sample] drew. *)
Definition tournament_winner (fitness_scores : list Qc)
    (tournament_indices : list nat) : option nat :=
  tournament_fitness ← mapM (fun j => fitness_scores !! j) tournament_indices;
  best ← list_max_Qc tournament_fitness;
  k ← list_index best tournament_fitness;
  tournament_indices !! k.

(** [xs[-k:]] *)
Definition last_slice {A : Type} (k : nat) (xs : list A) : list A :=
  if (k =? 0)%nat then xs else drop (length xs - k) xs.

(** [sorted(fitness_scores)] *)
Definition sorted (xs : list Qc) : list Qc := merge_sort Qcle xs.

(** [elite_indices = [i for i in range(pop_size) if fitness_scores[i] in
    sorted(fitness_scores)[-elite_size:]]]; indexing past the end of
    [fitness_scores] raises. *)
Definition elite_indices (pop_size elite_size : nat)
    (fitness_scores : list Qc) : option (list nat) :=
  let top := last_slice elite_size (sorted fitness_scores) in
  flagged ←
    mapM (fun i => f ← fitness_scores !! i; Some (i, bool_decide (f ∈ top)))
         (seq 0 pop_size);
  Some (map fst (filter (fun x => x.2 = true) flagged)).

(** The selection of one generation: one winner per tournament drawn, then
    the elite indices appended. *)
Definition selection (pop_size elite_size : nat) (fitness_scores : list Qc)
    (tournaments : list (list nat)) : option (list nat) :=
  selected_indices ← mapM (tournament_winner fitness_scores) tournaments;
  elite ← elite_indices pop_size elite_size fitness_scores;
  Some (selected_indices ++ elite).

End Evolve.

(** ** Crossover and mutation ([main], train.py:971-995,
       train2_0602_qf80_8.py:1189-1213)

    Individuals are Python lists, and [child = population[parent1_index]]
    does not copy: the objects live in a heap, [population] and
    [next_generation] hold references into it. *)

Module Reproduction.

(** What [random] returns while one child is made: the two
    [random.randint(0, pop_size - 1)], the [random.uniform(0, 1)] compared
    with the crossover rate, [random.randint(1, len(hyp_GA) - 1)], and for
    every gene the [random.uniform(0, 1)] compared with the mutation rate
    together with the [random.uniform(-0.1, 0.1)] added when it is below. *)
Record child_draws : Type := ChildDraws {
  d_parent1 : nat;
  d_parent2 : nat;
  d_crossover : Q;
  d_point : nat;
  d_mutation : list (Q * Q)
}.

Definition Qlt_bool (x y : Q) : bool := negb (Qle_bool y x).

(** [[
    if random.uniform(0, 1) < mutation_rate:
        child[j] += random.uniform(-0.1, 0.1)
        child[j] = min(max(child[j], gene_ranges[j][0]), gene_ranges[j][1])
    ]] for gene [j]; indexing past the end raises. *)
Definition mutate_gene (gene_ranges : list (Q * Q)) (mutation_rate : Q)
    (j : nat) (draw : Q * Q) (child : list Q) : option (list Q) :=
  if Qlt_bool draw.1 mutation_rate then
    g ← child !! j;
    range ← gene_ranges !! j;
    let g := (g + draw.2)%Q in
    Some (<[j := Qmin (Qmax g range.1) range.2]> child)
  else Some child.

(** [for j in range(len(hyp_GA)):] from gene [j] on. *)
Fixpoint mutate_from (gene_ranges : list (Q * Q)) (mutation_rate : Q)
    (j : nat) (draws : list (Q * Q)) (child : list Q) : option (list Q) :=
  match draws with
  | [] => Some child
  | draw :: rest =>
      child ← mutate_gene gene_ranges mutation_rate j draw child;
      mutate_from gene_ranges mutation_rate (S j) rest child
  end.

(** One pass of [for _ in range(pop_size):]: the child's reference and the
    heap after its mutation.  A crossover builds a new list; without one
    the child is the parent object, which the mutation then changes in
    place. *)
Definition reproduce_one (gene_ranges : list (Q * Q))
    (crossover_rate mutation_rate : Q)
    (population selected_indices : list nat) (draws : child_draws)
    (heap : list (list Q)) : option (nat * list (list Q)) :=
  parent1_index ← selected_indices !! d_parent1 draws;
  parent2_index ← selected_indices !! d_parent2 draws;
  created ←
    (if Qlt_bool (d_crossover draws) crossover_rate then
       let crossover_point := d_point draws in
       parent1 ← population !! parent1_index;
       genes1 ← heap !! parent1;
       parent2 ← population !! parent2_index;
       genes2 ← heap !! parent2;
       Some (length heap,
             heap ++ [take crossover_point genes1
                      ++ drop crossover_point genes2])
     else
       parent1 ← population !! parent1_index;
       Some (parent1, heap));
  let '(child, heap) := created in
  genes ← heap !! child;
  genes ← mutate_from gene_ranges mutation_rate 0 (d_mutation draws) genes;
  Some (child, <[child := genes]> heap).

(** The whole loop: [next_generation] and the heap after it. *)
Fixpoint reproduce (gene_ranges : list (Q * Q))
    (crossover_rate mutation_rate : Q)
    (population selected_indices : list nat) (draws : list child_draws)
    (heap : list (list Q)) : option (list nat * list (list Q)) :=
  match draws with
  | [] => Some ([], heap)
  | d :: rest =>
      '(child, heap) ←
        reproduce_one gene_ranges crossover_rate mutation_rate
                      population selected_indices d heap;
      '(next_generation, heap) ←
        reproduce gene_ranges crossover_rate mutation_rate
                  population selected_indices rest heap;
      Some (child :: next_generation, heap)
  end.

(** Every gene of an individual lies in its range. *)
Definition in_ranges (gene_ranges : list (Q * Q)) (genes : list Q) : Prop :=
  Forall2 (fun g range => (range.1 <= g <= range.2)%Q) genes gene_ranges.

End Reproduction.

(** Two genes, two individuals, and the draws for three children: one by
    crossover and two copies of individual 0, the second of them mutated. *)
Definition ranges2 : list (Q * Q) := [(0, 1 # 10); (0, 9 # 10)]%Q.

Definition heap2 : list (list Q) := [[1 # 20; 1 # 2]; [1 # 10; 0]]%Q.

Definition draws3 : list Reproduction.child_draws :=
  [Reproduction.ChildDraws 0 1 (1 # 10) 1 [(9 # 10, 0); (9 # 10, 0)]%Q;
   Reproduction.ChildDraws 0 0 (9 # 10) 1 [(9 # 10, 0); (9 # 10, 0)]%Q;
   Reproduction.ChildDraws 0 0 (9 # 10) 1 [(0, 1 # 10); (9 # 10, 0)]%Q].

(** ** The initial population ([generate_individual] and [main],
       train.py:912-917 and 1009-1014,
       train2_0602_qf80_8.py:1130-1135 and 1227-1232) *)

Module Population.

(** [random.uniform(a, b)] returns [a + (b - a) * random()]; [u] is the
    value of [random()], a number of the unit interval. *)
Definition uniform (a b u : Q) : Q := (a + (b - a) * u)%Q.

(** [[
    def generate_individual(input_ranges, individual_length):
        individual = []
        for i in range(individual_length):
            lower_bound, upper_bound = input_ranges[i]
            individual.append(random.uniform(lower_bound, upper_bound))
        return individual
    ]] [draw i] is the value of [random()] for gene [i]; [input_ranges[i]]
    raises past the end of the list. *)
Definition generate_individual (input_ranges : list (Q * Q))
    (individual_length : nat) (draw : nat -> Q) : option (list Q) :=
  mapM (fun i => range ← input_ranges !! i;
                 Some (uniform range.1 range.2 (draw i)))
       (seq 0 individual_length).

(** [[
    if initial_values is None:
        population = [generate_individual(gene_ranges, len(hyp_GA)) for _ in range(pop_size)]
    elif pop_size > 1:
        population = [generate_individual(gene_ranges, len(hyp_GA)) for _ in range(pop_size - len(initial_values))]
        for initial_value in initial_values:
            population = [initial_value] + population
    ]] [initial_values] is a list, never [None], so the first branch is not
    taken.  With [pop_size <= 1] no branch binds [population], and the
    first use of it raises.  [draws k] holds the values of [random()] for
    the [k]-th generated individual; [range] of a negative number is
    empty, like the truncated subtraction here. *)
Definition initial_population (gene_ranges : list (Q * Q)) (n_genes : nat)
    (pop_size : nat) (initial_values : list (list Q))
    (draws : nat -> nat -> Q) : option (list (list Q)) :=
  if bool_decide (1 < pop_size)%nat then
    population ←
      mapM (fun k => generate_individual gene_ranges n_genes (draws k))
           (seq 0 (pop_size - length initial_values));
    Some (foldl (fun population initial_value =>
                   [initial_value] ++ population)
                population initial_values)
  else None.

End Population.

(** Draws that put every generated gene in the middle of its range. *)
Definition draws_half : nat -> nat -> Q := fun _ _ => (1 # 2)%Q.

(** * Properties *)

(** ** Delta encoding *)

Section DeltaEncodeFacts.
Context {T : Type} (sub add : T -> T -> T).

Lemma encode_tail_unfold (b : list T) (rest : list (list T)) :
  cat_last
    (elementwise sub (slice_first rest) (removelast (slice_first (b :: rest))))
    (slice_rest rest)
  = encode_after sub (firstn 1 b) rest.
Proof.
  revert b; induction rest as [|c rest IH]; intros b; [reflexivity|].
  specialize (IH c).
  unfold cat_last, elementwise, slice_first, slice_rest in *.
  cbn [map removelast zip_with encode_after] in *.
  destruct (map (firstn 1) rest) eqn:E; cbn [zip_with] in *.
  - destruct rest; [reflexivity|discriminate].
  - f_equal. exact IH.
Qed.

Lemma delta_encode_cons (b : list T) (rest : list (list T)) :
  delta_encode sub (b :: rest) = b :: encode_after sub (firstn 1 b) rest.
Proof.
  unfold delta_encode.
  change (slice_first (b :: rest)) with (firstn 1 b :: slice_first rest).
  change (slice_rest (b :: rest)) with (skipn 1 b :: slice_rest rest).
  cbn [firstn skipn app].
  unfold cat_last at 1; cbn [zip_with]. rewrite firstn_skipn.
  f_equal.
  change (firstn 1 b :: slice_first rest) with (slice_first (b :: rest)).
  apply encode_tail_unfold.
Qed.

Lemma delta_encode_nil : delta_encode sub [] = [].
Proof. reflexivity. Qed.

Lemma length_encode_after (prev : list T) (blocks : list (list T)) :
  length (encode_after sub prev blocks) = length blocks.
Proof.
  revert prev; induction blocks as [|b rest IH]; intros prev; cbn; [done|].
  by rewrite IH.
Qed.

Lemma length_delta_encode (coefs : list (list T)) :
  length (delta_encode sub coefs) = length coefs.
Proof.
  destruct coefs as [|b rest]; [done|].
  rewrite delta_encode_cons; cbn. by rewrite length_encode_after.
Qed.

Lemma encode_after_lookup (prev : list T) (blocks : list (list T))
    (p : nat) (d d' : T) (a' : list T) :
  (prev :: map (firstn 1) blocks) !! p = Some [d] ->
  blocks !! p = Some (d' :: a') ->
  encode_after sub prev blocks !! p = Some (sub d' d :: a').
Proof.
  revert prev p; induction blocks as [|b rest IH]; intros prev p Hp Hb.
  - by destruct p.
  - destruct p as [|p]; cbn in *.
    + by simplify_eq.
    + apply IH; [exact Hp|exact Hb].
Qed.

(** Every block after the first: DC replaced by its difference from the DC of
    the block before, AC unchanged. *)
Lemma delta_encode_lookup_S (coefs : list (list T)) (p : nat) (d d' : T)
    (a a' : list T) :
  coefs !! p = Some (d :: a) ->
  coefs !! S p = Some (d' :: a') ->
  delta_encode sub coefs !! S p = Some (sub d' d :: a').
Proof.
  destruct coefs as [|b rest]; [done|].
  intros Hp Hq. rewrite delta_encode_cons. cbn in *.
  apply (encode_after_lookup _ _ _ d); [|exact Hq].
  change (firstn 1 b :: map (firstn 1) rest) with (map (firstn 1) (b :: rest)).
  rewrite list_lookup_fmap, Hp. reflexivity.
Qed.

(** The first block is kept as it is. *)
Lemma delta_encode_lookup_0 (coefs : list (list T)) :
  delta_encode sub coefs !! 0%nat = coefs !! 0%nat.
Proof.
  destruct coefs as [|b rest]; [done|]. by rewrite delta_encode_cons.
Qed.

Hypothesis add_sub : forall a b : T, add a (sub b a) = b.

Lemma decode_after_encode (prev : list T) (blocks : list (list T)) :
  length prev = 1%nat ->
  Forall (fun b => (1 <= length b)%nat) blocks ->
  cat_last (cumsum_from add prev (slice_first (encode_after sub prev blocks)))
           (slice_rest (encode_after sub prev blocks))
  = blocks.
Proof.
  intros Hprev Hall; revert prev Hprev.
  induction Hall as [|b rest Hb _ IH]; intros prev Hprev; [reflexivity|].
  destruct prev as [|q [|? ?]]; try discriminate.
  destruct b as [|d a]; [cbn in Hb; lia|].
  unfold cat_last, slice_first, slice_rest in *.
  cbn [encode_after firstn skipn zip_with app map cumsum_from].
  rewrite add_sub. f_equal.
  apply (IH [d]). reflexivity.
Qed.

Lemma delta_decode_encode (coefs : list (list T)) :
  Forall (fun b => (1 <= length b)%nat) coefs ->
  delta_decode add (delta_encode sub coefs) = coefs.
Proof.
  intros Hall. destruct Hall as [|b rest Hb Hrest]; [reflexivity|].
  rewrite delta_encode_cons.
  destruct b as [|d a]; [cbn in Hb; lia|].
  unfold delta_decode.
  change (slice_first ((d :: a) :: ?r)) with ([d] :: slice_first r).
  change (slice_rest ((d :: a) :: ?r)) with (a :: slice_rest r).
  cbn [cumsum_blocks firstn].
  unfold cat_last at 1; cbn [zip_with app]. f_equal.
  apply decode_after_encode; [reflexivity|exact Hrest].
Qed.

Lemma delta_decode_encode_bc (coefs : list (list (list (list T)))) :
  Forall (Forall (Forall (fun b => (1 <= length b)%nat))) coefs ->
  delta_decode_bc add (delta_encode_bc sub coefs) = coefs.
Proof.
  intros Hall. unfold delta_decode_bc, delta_encode_bc.
  rewrite map_map.
  rewrite <- (map_id coefs) at 2.
  apply map_ext_Forall. eapply Forall_impl; [exact Hall|].
  intros img Himg; cbn. rewrite map_map.
  rewrite <- (map_id img) at 2.
  apply map_ext_Forall. eapply Forall_impl; [exact Himg|].
  intros blocks Hb; cbn. by apply delta_decode_encode.
Qed.
End DeltaEncodeFacts.

Section DeltaRoundTrip.
Context {T : Type} (sub add : T -> T -> T).

(** Decoding after encoding against the DC coefficient [q] gives the blocks
    back exactly when adding each DC coefficient to the difference stored
    for its successor gives the successor back. *)
Lemma decode_after_encode_iff (q : T) (blocks : list (list T)) :
  Forall (fun b => (1 <= length b)%nat) blocks ->
  cat_last (cumsum_from add [q] (slice_first (encode_after sub [q] blocks)))
           (slice_rest (encode_after sub [q] blocks))
  = blocks
  <-> (forall (p : nat) (d d' : T) (ac ac' : list T),
         ([q] :: blocks) !! p = Some (d :: ac) ->
         blocks !! p = Some (d' :: ac') ->
         add d (sub d' d) = d').
Proof.
  intros Hall. revert q.
  induction Hall as [|b rest Hb _ IH]; intros q.
  - split; [|reflexivity]. intros _ p d d' ac ac' _ Hp. by destruct p.
  - destruct b as [|d1 a1]; [cbn in Hb; lia|].
    unfold cat_last, slice_first, slice_rest in *.
    cbn [encode_after firstn skipn zip_with app map cumsum_from].
    change (take 0 a1) with (@nil T).
    split.
    + intros Heq. injection Heq as Hhead Htail.
      rewrite Hhead in Htail.
      pose proof (proj1 (IH d1) Htail) as Hrest.
      intros [|p] d d' ac ac' Hp Hp'; cbn in Hp, Hp'.
      * injection Hp as <- <-. by injection Hp' as <- <-.
      * apply (Hrest p d d' (match p with 0%nat => [] | _ => ac end) ac');
          [|exact Hp'].
        destruct p; cbn in *; [|exact Hp]. by injection Hp as <- _.
    + intros Hcond.
      assert (Hhead : add q (sub d1 q) = d1)
        by (by apply (Hcond 0%nat q d1 [] a1)).
      rewrite Hhead. f_equal. apply (proj2 (IH d1)).
      intros [|p] d d' ac ac' Hp Hp'; cbn in Hp.
      * injection Hp as <- <-. by apply (Hcond 1%nat d1 d' a1 ac').
      * by apply (Hcond (S (S p)) d d' ac ac').
Qed.

Lemma delta_decode_encode_iff (coefs : list (list T)) :
  Forall (fun b => (1 <= length b)%nat) coefs ->
  delta_decode add (delta_encode sub coefs) = coefs
  <-> (forall (p : nat) (d d' : T) (ac ac' : list T),
         coefs !! p = Some (d :: ac) ->
         coefs !! S p = Some (d' :: ac') ->
         add d (sub d' d) = d').
Proof.
  intros Hall. destruct Hall as [|b rest Hb Hrest].
  - split; [|reflexivity]. by intros _ p d d' ac ac' Hp.
  - rewrite delta_encode_cons.
    destruct b as [|d0 a0]; [cbn in Hb; lia|].
    pose proof (decode_after_encode_iff d0 rest Hrest) as Haux.
    unfold delta_decode.
    change (slice_first ((d0 :: a0) :: ?r)) with ([d0] :: slice_first r).
    change (slice_rest ((d0 :: a0) :: ?r)) with (a0 :: slice_rest r).
    cbn [cumsum_blocks firstn].
    unfold cat_last at 1; cbn [zip_with app].
    split.
    + intros Heq. injection Heq as Htail.
      pose proof (proj1 Haux Htail) as Hcond.
      intros p d d' ac ac' Hp Hp'. cbn in Hp'.
      apply (Hcond p d d' (match p with 0%nat => [] | _ => ac end) ac');
        [|exact Hp'].
      destruct p; cbn in *; [|exact Hp]. by injection Hp as <- _.
    + intros Hcond. f_equal. apply (proj2 Haux).
      intros [|p] d d' ac ac' Hp Hp'; cbn in Hp.
      * injection Hp as <- <-. by apply (Hcond 0%nat d0 d' a0 ac').
      * by apply (Hcond (S p) d d' ac ac').
Qed.
End DeltaRoundTrip.

Lemma blocks_far_decoded :
  delta_decode f32_add (delta_encode f32_sub blocks_far)
  = [f32_of_Z (2 ^ 25) :: repeat (f32_of_Z 3) 63;
     f32_of_Z 0 :: repeat (f32_of_Z (-4)) 63].
Proof. vm_compute. reflexivity. Qed.

Lemma blocks_dct_decoded :
  delta_decode f32_add (delta_encode f32_sub blocks_dct) !! 1%nat
  = Some (SpecFloat.S754_finite false 10065920 (-25)
            :: repeat (f32_of_Z (-4)) 63)
  /\ blocks_dct !! 1%nat
     = Some (SpecFloat.S754_finite false 10066330 (-25)
               :: repeat (f32_of_Z (-4)) 63).
Proof. split; vm_compute; reflexivity. Qed.




(** The same round trip on integer-valued coefficients, where it runs. *)
Example delta_encode_Z :
  delta_encode Z.sub [[10; 1; 2]; [13; 3; 4]; [9; 5; 6]]%Z
  = [[10; 1; 2]; [3; 3; 4]; [-4; 5; 6]]%Z.
Proof. reflexivity. Qed.

Example delta_decode_Z :
  delta_decode Z.add [[10; 1; 2]; [3; 3; 4]; [-4; 5; 6]]%Z
  = [[10; 1; 2]; [13; 3; 4]; [9; 5; 6]]%Z.
Proof. reflexivity. Qed.

(** ** Control-network output ranges *)

Lemma tanh_range (x : R) : -1 < tanh x < 1.
Proof.
  unfold tanh, sinh, cosh.
  pose proof (exp_pos x) as Ha. pose proof (exp_pos (- x)) as Hb.
  set (a := exp x) in *. set (b := exp (- x)) in *.
  assert (Hc : 0 < (a + b) / 2) by lra.
  split.
  - apply (Rmult_lt_reg_r ((a + b) / 2)); [exact Hc|].
    unfold Rdiv at 2. rewrite Rmult_assoc, Rinv_l by lra. lra.
  - apply (Rmult_lt_reg_r ((a + b) / 2)); [exact Hc|].
    unfold Rdiv at 1. rewrite Rmult_assoc, Rinv_l by lra. lra.
Qed.

Lemma sigmoid_range (x : R) : 0 < sigmoid x < 1.
Proof.
  unfold sigmoid. pose proof (exp_pos (- x)) as He.
  split.
  - apply Rdiv_lt_0_compat; lra.
  - apply (Rmult_lt_reg_r (1 + exp (- x))); [lra|].
    unfold Rdiv. rewrite Rmult_assoc, Rinv_l by lra. lra.
Qed.

Lemma clamp_id (lo hi x : R) : lo <= x <= hi -> clamp lo hi x = x.
Proof.
  intros [Hlo Hhi]. unfold clamp.
  rewrite Rmax_left by exact Hlo. apply Rmin_left; exact Hhi.
Qed.

(** C4.  For every batch, every output of the downscaling network lies in
    [1, 4] and both outputs of the luminance-weight network lie in
    [0.5, 1.0]; the clamp to [0, 5] applied downstream returns the weights
    unchanged. *)
Theorem control_network_outputs_bounded {image : Type}
    (pre_tanh : list image -> list R) (fc4_out : list image -> list (R * R))
    (batch : list image) :
  Forall (fun s => 1 <= s <= 4) (DownscalingNetwork_forward pre_tanh batch)
  /\ Forall (fun row => 0.5 <= fst row <= 1.0 /\ 0.5 <= snd row <= 1.0)
            (DynamicLuminanceWeightNetwork_forward fc4_out batch)
  /\ clamp_weights (DynamicLuminanceWeightNetwork_forward fc4_out batch)
     = DynamicLuminanceWeightNetwork_forward fc4_out batch.
Proof.
  assert (Hrows :
    Forall (fun row => 0.5 <= fst row <= 1.0 /\ 0.5 <= snd row <= 1.0)
           (DynamicLuminanceWeightNetwork_forward fc4_out batch)).
  { unfold DynamicLuminanceWeightNetwork_forward.
    rewrite map_map. apply Forall_forall. intros row Hin.
    apply list_elem_of_In, in_map_iff in Hin. destruct Hin as [[a b] [<- _]].
    cbn. pose proof (sigmoid_range a). pose proof (sigmoid_range b). lra. }
  split; [|split; [exact Hrows|]].
  - unfold DownscalingNetwork_forward, extended_fc.
    rewrite map_map. apply Forall_forall. intros s Hin.
    apply list_elem_of_In, in_map_iff in Hin. destruct Hin as [y [<- _]].
    pose proof (tanh_range y). lra.
  - unfold clamp_weights.
    rewrite <- (map_id (DynamicLuminanceWeightNetwork_forward fc4_out batch))
      at 2.
    apply map_ext_Forall. eapply Forall_impl; [exact Hrows|].
    intros [a b] [Ha Hb]; cbn in *.
    rewrite !clamp_id by lra. reflexivity.
Qed.

(** ** Log-scale features *)

Lemma concat_map_map {A B : Type} (f : A -> B) (l : list (list (list A))) :
  concat (map (map (map f)) l) = map (map f) (concat l).
Proof.
  induction l as [|x l IH]; cbn; [reflexivity|].
  by rewrite IH, map_app.
Qed.

Lemma log_scale_power (c : R) : Rpower 2 (log_scale c) = Rabs c + 1.
Proof.
  pose proof (Rabs_pos c).
  unfold log_scale. apply (Rpower_Rlog 2 (Rabs c + 1)); lra.
Qed.

(** C7.  The code's [log(|c| + 1) / log(2)] is the base-2 logarithm of
    [|c| + 1]: it is [Rlog 2 (|c| + 1)], the exponent to which 2 must be
    raised to give [|c| + 1].  The tensor handed to the bit-rate estimator is
    the flattened zigzag tensor with this function applied to every
    element. *)
Theorem log_scale_is_log2 (bitEstimator : list (list R) -> list R)
    (shape : nat * nat * nat * nat) (zigzag : list (list (list (list R))))
    (c : R) :
  log_scale c = Rlog 2 (Rabs c + 1)
  /\ Rpower 2 (log_scale c) = Rabs c + 1
  /\ (forall y : R, Rpower 2 y = Rabs c + 1 -> y = log_scale c)
  /\ estimator_features zigzag
     = map (map log_scale) (concat (map (fun img => concat img) zigzag))
  /\ bpp_estimate bitEstimator shape zigzag
     = bpp_of_code_lengths shape
         (bitEstimator
            (map (map log_scale)
                 (concat (map (fun img => concat img) zigzag)))).
Proof.
  assert (Hfeat : estimator_features zigzag
     = map (map log_scale) (concat (map (fun img => concat img) zigzag))).
  { unfold estimator_features. apply concat_map_map. }
  split; [reflexivity|].
  split; [apply log_scale_power|].
  split.
  - intros y Hy. rewrite <- (log_scale_power c) in Hy.
    unfold Rpower in Hy. apply exp_inv in Hy.
    assert (Hln : 0 < ln 2) by (rewrite <- ln_1; apply ln_increasing; lra).
    apply (Rmult_eq_reg_r (ln 2)); [exact Hy|]. apply Rgt_not_eq, Hln.
  - split; [exact Hfeat|].
    unfold bpp_estimate. by rewrite Hfeat.
Qed.

(** ** The bpp estimate *)

Lemma sum_list_app (a b : list R) :
  sum_list (a ++ b) = sum_list a + sum_list b.
Proof. unfold sum_list. induction a as [|x a IH]; cbn [app foldr]; lra. Qed.

Lemma length_chunks (p1 b : nat) (t : list R) :
  length (chunks p1 b t) = b.
Proof. revert t; induction b as [|b IH]; intros t; cbn; [done|]. by rewrite IH. Qed.

Lemma sum_chunks (p1 b : nat) (t : list R) :
  length t = (b * p1)%nat ->
  sum_list (map sum_list (chunks p1 b t)) = sum_list t.
Proof.
  revert t; induction b as [|b IH]; intros t Hlen; cbn in *.
  - by destruct t.
  - rewrite IH.
    + rewrite <- sum_list_app, firstn_skipn. reflexivity.
    + rewrite length_skipn. lia.
Qed.

(** C6.  With [B] images and [P1] blocks per image, the bpp estimate is the
    sum of all predicted per-block code lengths, divided by the batch size
    (the mean over the batch of the per-image sums) and then by the number
    of coefficients of one image, channels * height * width of the quantized
    DCT tensor. *)
Theorem bpp_estimate_normalised (bitEstimator : list (list R) -> list R)
    (zigzag : list (list (list (list R)))) (B C H W P1 : nat) :
  (0 < B)%nat ->
  length (bitEstimator (estimator_features zigzag)) = (B * P1)%nat ->
  bpp_estimate bitEstimator (B, C, H, W) zigzag
  = Some (sum_list (bitEstimator (estimator_features zigzag)) / INR B
          / (INR C * INR H * INR W)).
Proof.
  intros HB Hlen. unfold bpp_estimate, bpp_of_code_lengths, rearrange_b_p1.
  set (pred := bitEstimator (estimator_features zigzag)) in *.
  destruct (Nat.eqb_spec B 0) as [->|_]; [lia|].
  rewrite Hlen, (Nat.mul_comm B P1), Nat.Div0.mod_mul, Nat.eqb_refl,
    Nat.div_mul by lia.
  cbn [mbind option_bind]. unfold mean.
  rewrite length_map, length_chunks, (sum_chunks P1 B pred Hlen).
  by rewrite !mult_INR.
Qed.

Lemma bpp_estimate_normalised_witness :
  bpp_estimate (map sum_list) (2, 1, 1, 2)%nat [[[[3; 0]]]; [[[1; 1]]]]
  = Some (sum_list (map sum_list
                        (estimator_features [[[[3; 0]]]; [[[1; 1]]]]))
          / INR 2 / (INR 1 * INR 1 * INR 2)).
Proof.
  apply (bpp_estimate_normalised (map sum_list) _ 2 1 1 2 1).
  - repeat constructor.
  - reflexivity.
Defined.

(** ** Tone mapping *)

Lemma at2_map (f : R -> R) (t : list (list R)) (i j : nat) :
  at2 (map (map f) t) i j = f <$> at2 t i j.
Proof.
  unfold at2. rewrite list_lookup_fmap.
  destruct (t !! i) as [row|]; cbn; [|reflexivity].
  apply list_lookup_fmap.
Qed.

Lemma at2_elementwise (f : R -> R -> R) (a b : list (list R)) (i j : nat) :
  at2 (elementwise f a b) i j
  = x ← at2 a i j; y ← at2 b i j; Some (f x y).
Proof.
  unfold at2, elementwise. rewrite lookup_zip_with.
  destruct (a !! i) as [ra|]; cbn; [|reflexivity].
  destruct (b !! i) as [rb|]; cbn.
  - rewrite lookup_zip_with. reflexivity.
  - by destruct (ra !! j).
Qed.

Lemma at2_shape (H W : nat) (t : list (list R)) (i j : nat) :
  shape2 H W t -> is_Some (at2 t i j) <-> (i < H)%nat /\ (j < W)%nat.
Proof.
  intros [Hlen Hrows]. unfold at2. split.
  - intros [v Hv]. destruct (t !! i) as [row|] eqn:Hi; [|discriminate].
    cbn in Hv. pose proof (lookup_lt_Some _ _ _ Hi).
    pose proof (lookup_lt_Some _ _ _ Hv).
    rewrite Forall_lookup in Hrows. specialize (Hrows _ _ Hi). cbn in *. lia.
  - intros [Hi Hj]. destruct (lookup_lt_is_Some_2 t i) as [row Hrow]; [lia|].
    rewrite Hrow; cbn. apply lookup_lt_is_Some_2.
    rewrite Forall_lookup in Hrows. specialize (Hrows _ _ Hrow). cbn in *. lia.
Qed.

(** The arithmetic of one pixel: for a luminance in [0, 1] and a positive
    weight the tone-mapped luminance is at most the luminance and the scale
    factor lies in [0, 1). *)
Lemma scale_factor_range (w L : R) :
  0 < w -> 0 <= L ->
  0 <= ldr_luminance_of w L <= L /\ 0 <= scale_factor_of w L < 1.
Proof.
  intros Hw HL. unfold scale_factor_of, ldr_luminance_of.
  assert (Hq : 0 <= L / (w + 1e-6)).
  { apply Rmult_le_pos; [exact HL|].
    apply Rlt_le, Rinv_0_lt_compat. lra. }
  set (q := L / (w + 1e-6)) in *.
  assert (Hldr : 0 <= L / (1 + q) <= L).
  { split.
    - apply Rmult_le_pos; [exact HL|].
      apply Rlt_le, Rinv_0_lt_compat. lra.
    - apply (Rmult_le_reg_r (1 + q)); [lra|].
      unfold Rdiv. rewrite Rmult_assoc, Rinv_l by lra. nra. }
  split; [exact Hldr|].
  split.
  - apply Rmult_le_pos; [lra|]. apply Rlt_le, Rinv_0_lt_compat. lra.
  - apply (Rmult_lt_reg_r (L + 1e-6)); [lra|].
    unfold Rdiv at 1. rewrite Rmult_assoc, Rinv_l by lra. lra.
Qed.

Lemma luminance_range (r g b : R) :
  0 <= r <= 1 -> 0 <= g <= 1 -> 0 <= b <= 1 ->
  0 <= luminance_of r g b <= 1.
Proof. unfold luminance_of. lra. Qed.

(** What the forward pass computes at one pixel. *)
Lemma ReinhardToneMapping_pixel (ch0 ch1 ch2 : list (list R))
    (rest : list (list (list R))) (w : R) :
  exists ldr_image,
    ReinhardToneMapping_forward 1 (ch0 :: ch1 :: ch2 :: rest) w
    = Some ldr_image
    /\ forall c i j : nat,
         pixel ldr_image c i j
         = v ← pixel (ch0 :: ch1 :: ch2 :: rest) c i j;
           r ← at2 ch0 i j; g ← at2 ch1 i j; b ← at2 ch2 i j;
           Some (v * scale_factor_of w (luminance_of r g b)).
Proof.
  unfold ReinhardToneMapping_forward.
  destruct (Req_dec_T 1 1) as [_|Hne]; [|exfalso; apply Hne; reflexivity].
  eexists; split; [reflexivity|].
  intros c i j. unfold pixel at 1 2. rewrite list_lookup_fmap.
  destruct ((ch0 :: ch1 :: ch2 :: rest) !! c) as [ch|]; cbn; [|reflexivity].
  rewrite !at2_elementwise, !at2_map, !at2_elementwise, !at2_map.
  destruct (at2 ch i j) as [v|]; cbn; [|reflexivity].
  destruct (at2 ch0 i j) as [r|]; cbn; [|reflexivity].
  destruct (at2 ch1 i j) as [g|]; cbn; [|reflexivity].
  destruct (at2 ch2 i j) as [b|]; cbn; [|reflexivity].
  reflexivity.
Qed.



(** ** Gaussian blur *)

Lemma zip_with_map_same {A B C : Type} (f : A -> B -> C) (g : A -> B)
    (l : list A) :
  zip_with f l (map g l) = map (fun x => f x (g x)) l.
Proof. induction l as [|x l IH]; cbn; [reflexivity|]. by rewrite IH. Qed.

Lemma transpose_repeat {A : Type} (xs : list A) (n : nat) :
  (1 <= n)%nat -> transpose (repeat xs n) = map (fun x => repeat x n) xs.
Proof.
  induction n as [|[|m] IH]; intros Hn; [lia|reflexivity|].
  change (transpose (repeat xs (S (S m))))
    with (zip_with cons xs (transpose (repeat xs (S m)))).
  rewrite IH by lia. rewrite zip_with_map_same. reflexivity.
Qed.

Lemma shape2_map (f : R -> R) (H W : nat) (t : list (list R)) :
  shape2 H W t -> shape2 H W (map (map f) t).
Proof.
  intros [Hlen Hrows]. split; [by rewrite length_map|].
  apply Forall_forall. intros row Hin.
  apply list_elem_of_In, in_map_iff in Hin. destruct Hin as [r [<- Hr]].
  rewrite length_map. rewrite Forall_forall in Hrows.
  apply Hrows, list_elem_of_In, Hr.
Qed.

Lemma shape2_elementwise (f : R -> R -> R) (H W : nat) (a b : list (list R)) :
  shape2 H W a -> shape2 H W b -> shape2 H W (elementwise f a b).
Proof.
  intros [Ha Hra] [Hb Hrb]. unfold elementwise. split.
  - rewrite length_zip_with. lia.
  - apply Forall_lookup. intros i row Hrow.
    rewrite lookup_zip_with in Hrow.
    destruct (a !! i) as [ra|] eqn:Hai; [|discriminate]. cbn in Hrow.
    destruct (b !! i) as [rb|] eqn:Hbi; [|discriminate]. cbn in Hrow.
    simplify_eq. rewrite length_zip_with.
    rewrite Forall_lookup in Hra. rewrite Forall_lookup in Hrb.
    specialize (Hra _ _ Hai). specialize (Hrb _ _ Hbi). cbn in *. lia.
Qed.

Lemma length_x_coords (k radius : nat) : length (x_coords k radius) = k.
Proof. unfold x_coords. by rewrite length_map, length_seq. Qed.

Lemma shape2_repeat_rows (xs : list R) (n : nat) :
  shape2 n (length xs) (repeat xs n).
Proof.
  split; [apply repeat_length|].
  apply Forall_forall. intros row Hin.
  apply list_elem_of_In, repeat_spec in Hin. by subst.
Qed.

Lemma shape2_repeat_cols (xs : list R) (n : nat) :
  shape2 (length xs) n (map (fun x => repeat x n) xs).
Proof.
  split; [by rewrite length_map|].
  apply Forall_forall. intros row Hin.
  apply list_elem_of_In, in_map_iff in Hin. destruct Hin as [x [<- _]].
  apply repeat_length.
Qed.

Lemma sum_list_map_div (s : R) (l : list R) :
  sum_list (map (fun v => v / s) l) = sum_list l / s.
Proof.
  unfold sum_list. induction l as [|x l IH]; cbn [map foldr]; [lra|].
  rewrite IH. lra.
Qed.

Lemma tensor_sum_map_div (s : R) (t : list (list R)) :
  tensor_sum (map (map (fun v => v / s)) t) = tensor_sum t / s.
Proof.
  unfold tensor_sum. rewrite map_map.
  rewrite (map_ext _ (fun row => sum_list row / s))
    by (intros row; apply sum_list_map_div).
  rewrite <- (map_map sum_list (fun v => v / s)).
  apply sum_list_map_div.
Qed.

Lemma sum_list_pos (l : list R) :
  (1 <= length l)%nat -> Forall (fun v => 0 < v) l -> 0 < sum_list l.
Proof.
  unfold sum_list. intros Hlen Hall.
  destruct Hall as [|x l Hx Hl]; [cbn in Hlen; lia|].
  cbn [foldr]. clear Hlen.
  assert (0 <= foldr Rplus 0 l); [|lra].
  induction Hl as [|y l Hy _ IH]; cbn [foldr]; lra.
Qed.

Lemma tensor_sum_pos (H W : nat) (t : list (list R)) :
  shape2 H W t -> (1 <= H)%nat -> (1 <= W)%nat ->
  Forall (Forall (fun v => 0 < v)) t -> 0 < tensor_sum t.
Proof.
  intros [Hlen Hrows] HH HW Hpos. unfold tensor_sum.
  apply sum_list_pos; [rewrite length_map; lia|].
  apply Forall_forall. intros s Hin.
  apply list_elem_of_In, in_map_iff in Hin. destruct Hin as [row [<- Hr]].
  apply list_elem_of_In in Hr.
  rewrite Forall_forall in Hrows. rewrite Forall_forall in Hpos.
  apply sum_list_pos; [rewrite (Hrows _ Hr); exact HW|exact (Hpos _ Hr)].
Qed.

(** The kernel is a [k] by [k] tensor whose entries sum to one. *)
Lemma gaussian_kernel_normalised (k : nat) (sigma : R) :
  (1 <= k)%nat ->
  shape2 k k (gaussian_kernel k sigma)
  /\ tensor_sum (gaussian_kernel k sigma) = 1.
Proof.
  intros Hk. unfold gaussian_kernel.
  rewrite transpose_repeat by exact Hk.
  set (xc := x_coords k (k / 2)).
  assert (Hxc : length xc = k) by apply length_x_coords.
  set (sq_dist := elementwise Rplus _ _).
  assert (Hsq : shape2 k k sq_dist).
  { apply shape2_elementwise; apply shape2_map.
    - rewrite <- Hxc at 2. apply shape2_repeat_rows.
    - rewrite <- Hxc at 1. apply shape2_repeat_cols. }
  set (kernel := map (map (fun d => exp (- d / (2 * sigma ^ 2)))) sq_dist).
  assert (Hker : shape2 k k kernel) by (apply shape2_map; exact Hsq).
  assert (Hpos : 0 < tensor_sum kernel).
  { apply (tensor_sum_pos k k); [exact Hker|exact Hk|exact Hk|].
    apply Forall_forall. intros row Hin.
    apply list_elem_of_In, in_map_iff in Hin. destruct Hin as [r [<- _]].
    apply Forall_forall. intros v Hv.
    apply list_elem_of_In, in_map_iff in Hv. destruct Hv as [d [<- _]].
    apply exp_pos. }
  split; [apply shape2_map; exact Hker|].
  rewrite tensor_sum_map_div. unfold Rdiv. apply Rinv_r. lra.
Qed.

Lemma hd_Forall {A : Type} (P : A -> Prop) (d : A) (l : list A) :
  (1 <= length l)%nat -> Forall P l -> P (hd d l).
Proof. intros Hlen Hall. destruct Hall; [cbn in Hlen; lia|assumption]. Qed.

Lemma shape2_pad2d (p H W : nat) (plane : list (list R)) :
  shape2 H W plane -> (1 <= H)%nat ->
  shape2 (p + H + p) (p + W + p) (pad2d p plane).
Proof.
  intros [Hlen Hrows] HH. unfold pad2d.
  assert (Hhd : length (hd [] plane) = W).
  { apply (hd_Forall (fun row => length row = W)); [lia|exact Hrows]. }
  rewrite Hhd. split.
  - rewrite !length_app, !repeat_length, length_map. lia.
  - assert (Hz : Forall (fun row : list R => length row = (p + W + p)%nat)
                        (repeat (repeat 0 (p + W + p)) p)).
    { apply Forall_forall. intros row Hin.
      apply list_elem_of_In, repeat_spec in Hin. subst. apply repeat_length. }
    apply Forall_app; split; [exact Hz|].
    apply Forall_app; split; [|exact Hz].
    apply Forall_forall. intros row Hin.
    apply list_elem_of_In, in_map_iff in Hin. destruct Hin as [r [<- Hr]].
    rewrite !length_app, !repeat_length.
    rewrite Forall_forall in Hrows.
    rewrite (Hrows r) by (apply list_elem_of_In, Hr). lia.
Qed.

Lemma odd_half (k : nat) : Nat.odd k = true -> k = (2 * (k / 2) + 1)%nat.
Proof.
  intros Hodd. apply Nat.odd_spec in Hodd. destruct Hodd as [m ->].
  replace ((2 * m + 1) / 2)%nat with m; [reflexivity|].
  apply (Nat.div_unique _ 2 m 1); lia.
Qed.

(** One channel: with an odd [k] by [k] kernel and padding [k / 2] the
    filtered plane has the shape of the input plane. *)
Lemma conv2d_plane_shape (k H W : nat) (kernel plane : list (list R)) :
  Nat.odd k = true ->
  shape2 k k kernel -> shape2 H W plane -> (1 <= H)%nat -> (1 <= W)%nat ->
  exists out, conv2d_plane (k / 2) kernel plane = Some out /\ shape2 H W out.
Proof.
  intros Hodd [Hk _] Hplane HH HW.
  pose proof (odd_half k Hodd) as Hk2.
  set (p := (k / 2)%nat) in *.
  pose proof (shape2_pad2d p H W plane Hplane HH) as [Hlp Hrp].
  unfold conv2d_plane. rewrite Hk, Hlp.
  assert (Hw : length (hd [] (pad2d p plane)) = (p + W + p)%nat).
  { apply (hd_Forall (fun row => length row = (p + W + p)%nat));
      [lia|exact Hrp]. }
  rewrite Hw.
  destruct (Nat.leb_spec k (p + H + p)) as [_|?]; [|lia].
  destruct (Nat.leb_spec k (p + W + p)) as [_|?]; [|lia].
  cbn [andb]. eexists; split; [reflexivity|].
  split.
  - rewrite length_map, length_seq. lia.
  - apply Forall_forall. intros row Hin.
    apply list_elem_of_In, in_map_iff in Hin. destruct Hin as [i [<- _]].
    rewrite length_map, length_seq. lia.
Qed.

Lemma mapM_Forall {A B : Type} (f : A -> option B) (P : B -> Prop)
    (l : list A) :
  Forall (fun x => exists y, f x = Some y /\ P y) l ->
  exists k, mapM f l = Some k /\ length k = length l /\ Forall P k.
Proof.
  induction 1 as [|x l [y [Hy HP]] _ [k [Hk [Hlen Hall]]]].
  - exists []. repeat split. constructor.
  - exists (y :: k). cbn. rewrite Hy; cbn. rewrite Hk; cbn.
    repeat split; [by rewrite Hlen|by constructor].
Qed.

(** C10.  For an image tensor of shape (B, C, H, W), an odd kernel size and a
    positive sigma, [gaussian_blur] returns a tensor of the same shape: the
    padding [kernel_size // 2] makes the output extent
    [H + 2 * padding - kernel_size + 1] equal to [H]; the kernel is a
    [kernel_size] by [kernel_size] tensor whose entries sum to 1. *)
Theorem gaussian_blur_same_shape (image : list (list (list (list R))))
    (B C H W kernel_size : nat) (sigma : R) :
  shape4 B C H W image ->
  (1 <= B)%nat -> (1 <= C)%nat -> (1 <= H)%nat -> (1 <= W)%nat ->
  Nat.odd kernel_size = true ->
  0 < sigma ->
  (exists blurred_image,
     gaussian_blur image kernel_size sigma = Some blurred_image
     /\ shape4 B C H W blurred_image)
  /\ (H + 2 * (kernel_size / 2) - kernel_size + 1 = H)%nat
  /\ (W + 2 * (kernel_size / 2) - kernel_size + 1 = W)%nat
  /\ shape2 kernel_size kernel_size (gaussian_kernel kernel_size sigma)
  /\ tensor_sum (gaussian_kernel kernel_size sigma) = 1.
Proof.
  intros [HlenB Himgs] HB HC HH HW Hodd Hsigma.
  pose proof (odd_half kernel_size Hodd) as Hk2.
  destruct (gaussian_kernel_normalised kernel_size sigma) as [Hker Hsum];
    [lia|].
  split; [|repeat split; try lia; try exact Hsum; apply Hker].
  unfold gaussian_blur, conv2d_grouped.
  assert (Hsize : size1 image = C).
  { unfold size1.
    apply (hd_Forall (fun img => length img = C)); [lia|].
    eapply Forall_impl; [exact Himgs|]. by intros img [? _]. }
  rewrite Hsize.
  destruct C as [|C']; [lia|]. cbn [repeat].
  change (gaussian_kernel kernel_size sigma
            :: repeat (gaussian_kernel kernel_size sigma) C')
    with (repeat (gaussian_kernel kernel_size sigma) (S C')).
  set (kernels := repeat (gaussian_kernel kernel_size sigma) (S C')).
  destruct (mapM_Forall
              (fun img =>
                 mapM (fun ck : list (list R) * list (list R) =>
                         conv2d_plane (kernel_size / 2) (snd ck) (fst ck))
                      (zip img kernels))
              (shape3 (S C') H W) image) as [out [Hout [Hlen Hshape]]].
  - eapply Forall_impl; [exact Himgs|].
    intros img [HlenC Hplanes].
    destruct (mapM_Forall
                (fun ck : list (list R) * list (list R) =>
                   conv2d_plane (kernel_size / 2) (snd ck) (fst ck))
                (shape2 H W) (zip img kernels)) as [o [Ho [Hl Hs]]].
    + apply Forall_forall. intros [plane ker] Hin.
      apply elem_of_zip_l in Hin as Hp. apply elem_of_zip_r in Hin as Hkr.
      cbn [fst snd] in *. apply list_elem_of_In in Hkr.
      apply (repeat_spec (S C')) in Hkr. subst ker.
      rewrite Forall_forall in Hplanes.
      apply (conv2d_plane_shape kernel_size H W); auto.
    + exists o. split; [exact Ho|]. split; [|exact Hs].
      rewrite Hl, length_zip. unfold kernels. rewrite repeat_length. lia.
  - exists out. split; [exact Hout|]. split; [lia|exact Hshape].
Qed.

Lemma gaussian_blur_same_shape_witness :
  exists blurred_image,
    gaussian_blur [[[[0.5; 0.25]]; [[1; 0]]; [[0; 0.75]]]] 3 0.8
    = Some blurred_image
    /\ shape4 1 3 1 2 blurred_image.
Proof.
  refine (proj1 (gaussian_blur_same_shape
                   [[[[0.5; 0.25]]; [[1; 0]]; [[0; 0.75]]]] 1 3 1 2 3 0.8
                   _ _ _ _ _ _ _)).
  - repeat (split || constructor).
  - lia.
  - lia.
  - lia.
  - lia.
  - reflexivity.
  - lra.
Defined.

(** ** The training step *)

Import Training.


Section StepFacts.
Context {V : Type} `{Arith V} {ostate batch : Type}.

Implicit Types (st : @train_state V ostate) (ps : list (@param V)).

Lemma bind_Some {A B : Type} (m : @M V ostate A) (f : A -> @M V ostate B)
    st (b : B) st'' (evs : list event) :
  (m ≫= f) st = Some (b, st'', evs) ->
  exists (a : A) st' (e1 e2 : list event),
    m st = Some (a, st', e1) /\ f a st' = Some (b, st'', e2)
    /\ evs = e1 ++ e2.
Proof.
  unfold mbind, M_bind. intros Hm.
  destruct (m st) as [[[a st'] e1]|]; [|discriminate].
  destruct (f a st') as [[[b' st3] e2]|] eqn:Hf; [|discriminate].
  simplify_eq. by exists a, st', e1, e2.
Qed.

(** *** The frozen components through one operation *)

Lemma keeps_refl ps : keeps ps ps.
Proof.
  intros Hok. split; [exact Hok|].
  apply Forall_Forall2_diag, Forall_forall. by intros p _.
Qed.

Lemma keeps_trans ps1 ps2 ps3 : keeps ps1 ps2 -> keeps ps2 ps3 -> keeps ps1 ps3.
Proof.
  intros H12 H23 Hok. destruct (H12 Hok) as [Hok2 Hs12].
  destruct (H23 Hok2) as [Hok3 Hs23]. split; [exact Hok3|].
  unfold same_frozen in *.
  eapply Forall2_trans; [|exact Hs12|exact Hs23].
  intros p q r (Hn1 & Ho1 & Hd1) (Hn2 & Ho2 & Hd2).
  rewrite Hn2, Ho2. repeat split; [exact Hn1|exact Ho1|].
  intros Hf. rewrite Hd2, Hd1; [reflexivity|exact Hf|by rewrite Ho1].
Qed.

Lemma keeps_imap (f : nat -> @param V -> @param V) ps :
  harmless f -> keeps ps (imap f ps).
Proof.
  intros Hf Hok. revert f Hf.
  induction Hok as [|p ps Hp _ IH]; intros f Hf; [split; constructor|].
  rewrite imap_cons.
  destruct (IH (f ∘ S)) as [Hok' Hsame]; [intros i q; apply Hf|].
  destruct (Hf 0%nat p) as (Hn & Ho & Hbe & Hcb).
  split; constructor; try assumption.
  - intros Hown. rewrite Ho in Hown. destruct (Hp Hown) as [Hrg Hg].
    rewrite (Hcb Hown Hrg Hg). by split.
  - repeat split; [exact Hn|exact Ho|].
    intros Hfr. destruct (p_owner p) eqn:Hown; try discriminate.
    + destruct Hp as [Hrg Hg]; [reflexivity|].
      by rewrite (Hcb eq_refl Hrg Hg).
    + by apply Hbe.
Qed.

Lemma keeps_map (f : @param V -> @param V) ps :
  harmless (fun _ => f) -> keeps ps (map f ps).
Proof.
  intros Hf. replace (map f ps) with (imap (fun _ : nat => f) ps).
  - by apply keeps_imap.
  - apply (imap_const f ps).
Qed.

(** *** What each operation records and touches *)

Variable cfg : config.
Variable E : @environment V ostate batch.

Ltac harmless_tac :=
  intros ? [? ? ? ? ?]; cbn;
  repeat split; intros; subst; cbn in *;
  repeat case_match; cbn in *; simplify_eq; try reflexivity; try done.

Ltac split_innermost Hm :=
  match type of Hm with
  | context [match ?x with _ => _ end] =>
      lazymatch x with
      | context [match _ with _ => _ end] => fail
      | _ => destruct x eqn:?
      end
  end.

Ltac run_prim Hm :=
  unfold mbind, M_bind, mret, M_ret, get, put, emit, raise in Hm;
  cbn in Hm; repeat (split_innermost Hm; cbn in Hm); simplify_eq.

Lemma harmless_group_grads (o : optimizer_id) (f : V -> V) :
  harmless (fun (_ : nat) (p : @param V) =>
              if in_group o (p_owner p) then set_grad (f <$> p_grad p) p
              else p).
Proof. harmless_tac. Qed.

Lemma harmless_optimizer_step (o : optimizer_id) (os : ostate) :
  harmless (fun (i : nat) (p : @param V) =>
              if in_group o (p_owner p) then
                match p_grad p with
                | Some g => set_data (opt_update E o os i (p_data p) g) p
                | None => p
                end
              else p).
Proof. harmless_tac; by destruct o. Qed.

Lemma keeps_unscale_grads (o : optimizer_id) st :
  keeps (params st) (params (unscale_grads o st)).
Proof. apply keeps_map, harmless_group_grads. Qed.

Lemma keeps_optimizer_step (o : optimizer_id) st :
  keeps (params st) (params (optimizer_step E o st)).
Proof. apply keeps_imap, harmless_optimizer_step. Qed.

Lemma backward_spec (l : loss_id) (scaled retain : bool) (b : batch)
    st (a : unit) st' (evs : list event) :
  backward cfg E l scaled retain b st = Some (a, st', evs) ->
  evs = [EvBackward l scaled retain] /\ keeps (params st) (params st')
  /\ last_opt_step st' = last_opt_step st /\ accumulate st' = accumulate st
  /\ params st'
     = autograd_backward E l
         (if scaled && amp cfg then Some (gs_scale (scaler st)) else None)
         b (params st).
Proof.
  unfold backward. intros Hm. run_prim Hm;
    (split; [reflexivity|]); (split; [|by repeat split]);
    apply keeps_imap; harmless_tac.
Qed.

Lemma scaler_unscale_spec (o : optimizer_id) st (a : unit) st'
    (evs : list event) :
  scaler_unscale_ cfg o st = Some (a, st', evs) ->
  evs = [EvUnscale o] /\ keeps (params st) (params st').
Proof.
  unfold scaler_unscale_. intros Hm. run_prim Hm;
    (split; [reflexivity|]).
  - apply keeps_unscale_grads.
  - apply keeps_refl.
Qed.

Lemma clip_grad_norm_spec (o : optimizer_id) st (a : unit) st'
    (evs : list event) :
  clip_grad_norm_ E o st = Some (a, st', evs) ->
  evs = [EvClipGrad o] /\ keeps (params st) (params st').
Proof.
  unfold clip_grad_norm_. intros Hm. run_prim Hm.
  split; [reflexivity|]. apply keeps_map, harmless_group_grads.
Qed.

Lemma opt_step_spec (o : optimizer_id) st (a : unit) st' (evs : list event) :
  opt_step E o st = Some (a, st', evs) ->
  evs = [EvStep o false] /\ keeps (params st) (params st').
Proof.
  unfold opt_step. intros Hm. run_prim Hm.
  split; [reflexivity|]. apply keeps_optimizer_step.
Qed.

Lemma scaler_step_spec (o : optimizer_id) st (a : unit) st'
    (evs : list event) :
  scaler_step cfg E o st = Some (a, st', evs) ->
  evs = [EvStep o true] /\ keeps (params st) (params st').
Proof.
  unfold scaler_step. intros Hm. run_prim Hm;
    (split; [reflexivity|]).
  - eapply keeps_trans; [apply (keeps_unscale_grads o)|].
    apply keeps_optimizer_step.
  - apply keeps_optimizer_step.
  - apply keeps_optimizer_step.
Qed.

Lemma scaler_update_spec st (a : unit) st' (evs : list event) :
  scaler_update cfg E st = Some (a, st', evs) ->
  evs = [EvScalerUpdate] /\ keeps (params st) (params st').
Proof.
  unfold scaler_update. intros Hm. run_prim Hm;
    (split; [reflexivity|apply keeps_refl]).
Qed.

Lemma zero_grad_spec (o : optimizer_id) st (a : unit) st' (evs : list event) :
  zero_grad o st = Some (a, st', evs) ->
  evs = [EvZeroGrad o] /\ keeps (params st) (params st').
Proof.
  unfold zero_grad. intros Hm. run_prim Hm.
  split; [reflexivity|]. apply keeps_map. harmless_tac.
Qed.

Lemma ema_update_spec st (a : unit) st' (evs : list event) :
  ema_update cfg st = Some (a, st', evs) ->
  evs = ema_events cfg /\ st' = st.
Proof.
  unfold ema_update, ema_events. intros Hm.
  destruct (_ || _); run_prim Hm; by split.
Qed.

Lemma warmup_spec (ni : Z) st (a : unit) st' (evs : list event) :
  warmup cfg E ni st = Some (a, st', evs) ->
  evs = [] /\ params st' = params st
  /\ last_opt_step st' = last_opt_step st
  /\ accumulate st' = accumulate_at cfg E ni st
  /\ scaler st' = scaler st.
Proof.
  unfold warmup, accumulate_at. intros Hm. run_prim Hm; by repeat split.
Qed.

(** *** The two steps *)

Ltac inv_M :=
  repeat match goal with
  | Hm : (_ ≫= _) _ = Some _ |- _ =>
      apply bind_Some in Hm;
      let H1 := fresh "Hm" in
      destruct Hm as (? & ? & ? & ? & H1 & Hm & ->); cbv beta zeta in Hm
  | Hm : get _ = Some _ |- _ => unfold get in Hm; simplify_eq
  | Hm : put _ _ = Some _ |- _ => unfold put in Hm; simplify_eq
  | Hm : mret _ _ = Some _ |- _ => unfold mret, M_ret in Hm; simplify_eq
  | Hm : raise _ = Some _ |- _ => discriminate Hm
  | Hm : warmup _ _ _ _ = Some _ |- _ =>
      apply warmup_spec in Hm; destruct Hm as (-> & ? & ? & ? & ?)
  | Hm : backward _ _ _ _ _ _ _ = Some _ |- _ =>
      apply backward_spec in Hm; destruct Hm as (-> & ? & ? & ? & ?)
  | Hm : scaler_unscale_ _ _ _ = Some _ |- _ =>
      apply scaler_unscale_spec in Hm; destruct Hm as (-> & ?)
  | Hm : clip_grad_norm_ _ _ _ = Some _ |- _ =>
      apply clip_grad_norm_spec in Hm; destruct Hm as (-> & ?)
  | Hm : opt_step _ _ _ = Some _ |- _ =>
      apply opt_step_spec in Hm; destruct Hm as (-> & ?)
  | Hm : scaler_step _ _ _ _ = Some _ |- _ =>
      apply scaler_step_spec in Hm; destruct Hm as (-> & ?)
  | Hm : scaler_update _ _ _ = Some _ |- _ =>
      apply scaler_update_spec in Hm; destruct Hm as (-> & ?)
  | Hm : zero_grad _ _ = Some _ |- _ =>
      apply zero_grad_spec in Hm; destruct Hm as (-> & ?)
  | Hm : ema_update _ _ = Some _ |- _ =>
      apply ema_update_spec in Hm; destruct Hm as (-> & ?); subst
  end.

Ltac chain_keeps :=
  cbn [params with_last_opt_step] in *;
  repeat match goal with
         | Hp : params ?s = params _ |- _ => rewrite Hp in *; clear Hp
         end;
  repeat (first [ eassumption
                | apply keeps_refl
                | eapply keeps_trans; [eassumption|] ]).

Lemma train2_step_spec (ni : Z) (b : batch) st (l : step_losses) st'
    (evs : list event) :
  train2_step cfg E ni b st = Some (l, st', evs) ->
  l = StepLosses
        [bpp_of_batch E (params st) b]
        (scale_detection_loss cfg (compute_loss E (params st) b))
        [total_loss_luminance
           (bpp_of_batch E (params st) b)
           (scale_detection_loss cfg (compute_loss E (params st) b))]
  /\ evs = EvBackward TotalLoss true false
             :: (if steps_now cfg E ni st then train2_optimize_events cfg
                 else [])
  /\ keeps (params st) (params st').
Proof.
  unfold train2_step. intros Hm. inv_M.
  match goal with
  | Hm : (if accumulation_reached ni ?s then _ else _) _ = _ |- _ =>
      replace (accumulation_reached ni s) with (steps_now cfg E ni st) in Hm
        by (unfold accumulation_reached, steps_now; congruence)
  end.
  match goal with
  | Hp : params ?s = params st |- _ => rewrite Hp in *
  end.
  split; [reflexivity|].
  destruct (steps_now cfg E ni st); inv_M;
    (split; [unfold train2_optimize_events; cbn [app];
             rewrite ?app_nil_r; reflexivity|]);
    chain_keeps.
Qed.

Lemma train_step_spec (ni : Z) (b : batch) st (l : step_losses) st'
    (evs : list event) :
  train_step cfg E ni b st = Some (l, st', evs) ->
  (exists d : V,
     downscaling_network E (params st) b = [d]
     /\ l = StepLosses
             [div (of_int 1) d]
             (scale_detection_loss cfg (compute_loss E (params st) b))
             [total_loss_downscaling
                (div (of_int 1) d)
                (scale_detection_loss cfg (compute_loss E (params st) b))])
  /\ evs = EvBackward TotalLoss false true
             :: EvBackward DetectionLoss true false
             :: (if steps_now cfg E ni st then train_optimize_events cfg
                 else [])
  /\ keeps (params st) (params st').
Proof.
  unfold train_step. intros Hm. inv_M.
  match goal with
  | Hp : params ?s = params st |- _ => rewrite Hp in *
  end.
  destruct (downscaling_network E (params st) b) as [|d [|d' ds]];
    cbn [map] in *; inv_M.
  match goal with
  | Hm : (if accumulation_reached ni ?s then _ else _) _ = _ |- _ =>
      replace (accumulation_reached ni s) with (steps_now cfg E ni st) in Hm
        by (unfold accumulation_reached, steps_now; congruence)
  end.
  split; [by exists d|].
  destruct (steps_now cfg E ni st); inv_M;
    (split; [unfold train_optimize_events; cbn [app];
             rewrite ?app_nil_r; reflexivity|]);
    chain_keeps.
Qed.

(** The backward pass reaches the parameters of both networks alike: every
    parameter that requests a gradient and that the graph of the loss
    reaches gets one accumulated. *)
Lemma autograd_backward_lookup (l : loss_id) (factor : option V) (b : batch)
    ps (i : nat) (p : param) (g : V) :
  ps !! i = Some p ->
  p_requires_grad p = true ->
  gradient E l ps b i = Some g ->
  autograd_backward E l factor b ps !! i
  = Some (set_grad
            (accumulate_grad (p_grad p)
               (match factor with Some s => mul s g | None => g end)) p).
Proof.
  intros Hp Hrg Hg. unfold autograd_backward.
  rewrite list_lookup_imap, Hp. cbn. by rewrite Hrg, Hg.
Qed.

(** A step of the luminance/blur variant that does not reach the optimizers
    leaves exactly the gradients of its one backward pass. *)
Lemma train2_step_accumulates (ni : Z) (b : batch) st (l : step_losses) st'
    (evs : list event) :
  train2_step cfg E ni b st = Some (l, st', evs) ->
  steps_now cfg E ni st = false ->
  params st'
  = autograd_backward E TotalLoss
      (if amp cfg then Some (gs_scale (scaler st)) else None) b (params st).
Proof.
  unfold train2_step. intros Hm Hnow. inv_M.
  match goal with
  | Hm : (if accumulation_reached ni ?s then _ else _) _ = _ |- _ =>
      replace (accumulation_reached ni s) with (steps_now cfg E ni st) in Hm
        by (unfold accumulation_reached, steps_now; congruence)
  end.
  rewrite Hnow in *. inv_M. cbn [andb] in *.
  repeat match goal with
         | Hq : _ ?s = _ st |- _ => rewrite Hq in *; clear Hq
         end.
  assumption.
Qed.

(** *** The steps return *)

Lemma returns_bind {A B : Type} (pre mid post : @train_state V ostate -> Prop)
    (m : @M V ostate A) (f : A -> @M V ostate B) :
  returns pre m mid -> (forall a : A, returns mid (f a) post) ->
  returns pre (m ≫= f) post.
Proof.
  intros Hm Hf st Hpre.
  destruct (Hm st Hpre) as (a & st1 & e1 & Hm1 & Hmid).
  destruct (Hf a st1 Hmid) as (b & st2 & e2 & Hm2 & Hpost).
  exists b, st2, (e1 ++ e2). split; [|exact Hpost].
  unfold mbind, M_bind. by rewrite Hm1, Hm2.
Qed.

Lemma returns_get {B : Type} (pre post : @train_state V ostate -> Prop)
    (f : @train_state V ostate -> @M V ostate B) :
  (forall s : @train_state V ostate, pre s -> returns (fun st => st = s) (f s) post) ->
  returns pre (get ≫= f) post.
Proof.
  intros Hf st Hpre.
  destruct (Hf st Hpre st eq_refl) as (b & st2 & e2 & Hm2 & Hpost).
  exists b, st2, ([] ++ e2). split; [|exact Hpost].
  unfold mbind, M_bind, get. by rewrite Hm2.
Qed.

Lemma returns_weaken {A : Type} (pre pre' post : @train_state V ostate -> Prop)
    (m : @M V ostate A) :
  (forall st, pre st -> pre' st) -> returns pre' m post -> returns pre m post.
Proof. intros Hw Hm st Hpre. apply Hm, Hw, Hpre. Qed.

Lemma returns_ret {A : Type} (pre : @train_state V ostate -> Prop) (a : A) :
  returns pre (mret a) pre.
Proof. intros st Hpre. by exists a, st, []. Qed.

Ltac returns_prim :=
  let st := fresh "st" in
  let Hst := fresh "Hst" in
  intros st Hst;
  unfold warmup, backward, scaler_unscale_, clip_grad_norm_, opt_step,
    scaler_step, scaler_update, zero_grad, ema_update,
    mbind, M_bind, mret, M_ret, get, put, emit, raise;
  cbn;
  destruct (amp cfg) eqn:Hamp;
  [destruct (Hst Hamp) as [Hdet Hctrl]; rewrite ?Hdet, ?Hctrl|];
  rewrite ?andb_false_r, ?andb_true_r; cbn;
  repeat match goal with
         | |- context [if ?c then _ else _] => destruct c; cbn
         end;
  (eexists _, _, _; split; [reflexivity|]);
  intros Hamp'; try congruence; cbn; auto.

Lemma returns_warmup (a c : opt_stage) (ni : Z) :
  returns (@stage_is V ostate cfg a c) (warmup cfg E ni) (@stage_is V ostate cfg a c).
Proof. returns_prim. Qed.

Lemma returns_backward (a c : opt_stage) (l : loss_id)
    (scaled retain : bool) (b : batch) :
  returns (@stage_is V ostate cfg a c) (backward cfg E l scaled retain b)
          (@stage_is V ostate cfg a c).
Proof. returns_prim. Qed.

Lemma returns_clip (a c : opt_stage) (o : optimizer_id) :
  returns (@stage_is V ostate cfg a c) (clip_grad_norm_ E o) (@stage_is V ostate cfg a c).
Proof. returns_prim. Qed.

Lemma returns_zero_grad (a c : opt_stage) (o : optimizer_id) :
  returns (@stage_is V ostate cfg a c) (zero_grad o) (@stage_is V ostate cfg a c).
Proof. returns_prim. Qed.

Lemma returns_opt_step (a c : opt_stage) (o : optimizer_id) :
  returns (@stage_is V ostate cfg a c) (opt_step E o) (@stage_is V ostate cfg a c).
Proof. returns_prim. Qed.

Lemma returns_ema_update (a c : opt_stage) :
  returns (@stage_is V ostate cfg a c) (ema_update cfg) (@stage_is V ostate cfg a c).
Proof. returns_prim. Qed.

Lemma returns_unscale_det (c : opt_stage) :
  returns (@stage_is V ostate cfg READY c) (scaler_unscale_ cfg optimizer)
          (@stage_is V ostate cfg UNSCALED c).
Proof. returns_prim. Qed.

Lemma returns_unscale_ctrl (a : opt_stage) :
  returns (@stage_is V ostate cfg a READY) (scaler_unscale_ cfg ctrl_optimizer)
          (@stage_is V ostate cfg a UNSCALED).
Proof. returns_prim. Qed.

Lemma returns_step_ctrl (a : opt_stage) :
  returns (@stage_is V ostate cfg a UNSCALED) (scaler_step cfg E ctrl_optimizer)
          (@stage_is V ostate cfg a STEPPED).
Proof. returns_prim. Qed.

Lemma returns_step_det_unscaled (c : opt_stage) :
  returns (@stage_is V ostate cfg UNSCALED c) (scaler_step cfg E optimizer)
          (@stage_is V ostate cfg STEPPED c).
Proof. returns_prim. Qed.

Lemma returns_step_det_ready (c : opt_stage) :
  returns (@stage_is V ostate cfg READY c) (scaler_step cfg E optimizer)
          (@stage_is V ostate cfg STEPPED c).
Proof. returns_prim. Qed.

Lemma returns_update (a c : opt_stage) :
  returns (@stage_is V ostate cfg a c) (scaler_update cfg E) (@stage_is V ostate cfg READY READY).
Proof. returns_prim. Qed.

Lemma returns_set_last_opt_step (a c : opt_stage) (ni : Z) :
  returns (@stage_is V ostate cfg a c)
          (get ≫= fun st => put (with_last_opt_step ni st))
          (@stage_is V ostate cfg a c).
Proof. returns_prim. Qed.

Ltac returns_step :=
  first
    [ apply returns_warmup | apply returns_backward | apply returns_clip
    | apply returns_zero_grad | apply returns_opt_step
    | apply returns_ema_update | apply returns_unscale_det
    | apply returns_unscale_ctrl | apply returns_step_ctrl
    | apply returns_step_det_unscaled | apply returns_step_det_ready
    | apply returns_update | apply returns_set_last_opt_step
    | apply returns_ret ].

Ltac returns_chain :=
  repeat first
    [ returns_step
    | eapply returns_bind; [returns_step|intros _] ].

Ltac returns_read :=
  let s := fresh "s" in
  let Hs := fresh "Hs" in
  apply returns_get; intros s Hs; cbv zeta;
  eapply returns_weaken; [intros ? ->; exact Hs|].

(** From a state between two scaler updates the step of the luminance/blur
    variant returns, in such a state. *)
Lemma train2_step_returns (ni : Z) (b : batch) :
  returns (@stage_is V ostate cfg READY READY) (train2_step cfg E ni b)
          (@stage_is V ostate cfg READY READY).
Proof.
  unfold train2_step.
  eapply returns_bind; [apply returns_warmup|intros _].
  returns_read.
  eapply returns_bind; [apply returns_backward|intros _].
  returns_read.
  eapply returns_bind; [|intros _; apply returns_ret].
  destruct (accumulation_reached ni s0); returns_chain.
Qed.

(** So does the step of the downscaling variant when the control network
    yields one factor, that is on a batch of one image. *)
Lemma train_step_returns (ni : Z) (b : batch) :
  (forall ps, exists d : V, downscaling_network E ps b = [d]) ->
  returns (@stage_is V ostate cfg READY READY) (train_step cfg E ni b)
          (@stage_is V ostate cfg READY READY).
Proof.
  intros Hone. unfold train_step.
  eapply returns_bind; [apply returns_warmup|intros _].
  returns_read.
  destruct (Hone (params s)) as [d ->]. cbn [map].
  eapply returns_bind; [apply returns_backward|intros _].
  eapply returns_bind; [apply returns_backward|intros _].
  returns_read.
  eapply returns_bind; [|intros _; apply returns_ret].
  destruct (accumulation_reached ni s0); returns_chain.
Qed.

(** *** The loops *)

Section Loops.
Variable step : Z -> batch -> @M V ostate (@step_losses V).
Variable P : @step_losses V -> Prop.
Hypothesis step_ok :
  forall (ni : Z) (b : batch) st (l : step_losses) st' (evs : list event),
    step ni b st = Some (l, st', evs) ->
    P l /\ keeps (params st) (params st').

Lemma batch_loop_spec (nb epoch : Z) (batches : list batch) :
  forall (i : Z) st (ls : list step_losses) st' (evs : list event),
    batch_loop step nb epoch i batches st = Some (ls, st', evs) ->
    Forall P ls /\ keeps (params st) (params st').
Proof using step_ok.
  induction batches as [|b rest IH]; intros i st ls st' evs Hm;
    cbn [batch_loop] in Hm; inv_M.
  - split; [constructor|apply keeps_refl].
  - match goal with
    | Hs : step _ _ _ = Some _ |- _ => apply step_ok in Hs; destruct Hs
    end.
    match goal with
    | Hl : batch_loop _ _ _ _ _ _ = Some _ |- _ =>
        apply IH in Hl; destruct Hl
    end.
    split; [by constructor|]. chain_keeps.
Qed.

Lemma train_epoch_spec (epoch : Z) (batches : list batch) st
    (ls : list step_losses) st' (evs : list event) :
  train_epoch E step epoch batches st = Some (ls, st', evs) ->
  Forall P ls /\ keeps (params st) (params st').
Proof using step_ok.
  unfold train_epoch. intros Hm. inv_M.
  match goal with
  | Hl : batch_loop _ _ _ _ _ _ = Some _ |- _ =>
      apply batch_loop_spec in Hl; destruct Hl
  end.
  split; [assumption|].
  cbn [params with_opt_state] in *. chain_keeps.
Qed.

Lemma train_epochs_spec (loader : list (list batch)) :
  forall (epoch : Z) st (ls : list step_losses) st' (evs : list event),
    train_epochs E step epoch loader st = Some (ls, st', evs) ->
    Forall P ls /\ keeps (params st) (params st').
Proof using step_ok.
  induction loader as [|batches rest IH]; intros epoch st ls st' evs Hm;
    cbn [train_epochs] in Hm; inv_M.
  - split; [constructor|apply keeps_refl].
  - match goal with
    | Hs : train_epoch _ _ _ _ _ = Some _ |- _ =>
        apply train_epoch_spec in Hs; destruct Hs
    end.
    match goal with
    | Hl : train_epochs _ _ _ _ _ = Some _ |- _ =>
        apply IH in Hl; destruct Hl
    end.
    split; [by apply Forall_app|]. chain_keeps.
Qed.
End Loops.

Section LoopsReturn.
Variable step : Z -> batch -> @M V ostate (@step_losses V).
Variable inv : @train_state V ostate -> Prop.
Hypothesis step_returns :
  forall (ni : Z) (b : batch), returns inv (step ni b) inv.
Hypothesis inv_params :
  forall st ps, inv st -> inv (with_params ps st).
Hypothesis inv_opt_state :
  forall st os, inv st -> inv (with_opt_state os st).

Lemma batch_loop_returns (nb epoch : Z) (batches : list batch) :
  forall i : Z, returns inv (batch_loop step nb epoch i batches) inv.
Proof using step_returns.
  induction batches as [|b rest IH]; intros i; cbn [batch_loop].
  - apply returns_ret.
  - eapply returns_bind; [apply step_returns|intros l].
    eapply returns_bind; [apply IH|intros ls]. apply returns_ret.
Qed.

Lemma train_epochs_returns (loader : list (list batch)) :
  forall epoch : Z, returns inv (train_epochs E step epoch loader) inv.
Proof using step_returns inv_params inv_opt_state.
  induction loader as [|batches rest IH]; intros epoch; cbn [train_epochs].
  - apply returns_ret.
  - eapply returns_bind; [|intros ls; eapply returns_bind;
                            [apply IH|intros ls'; apply returns_ret]].
    unfold train_epoch.
    assert (Hzero : forall o, returns inv (zero_grad o) inv).
    { intros o st Hst. eexists _, _, _. split; [reflexivity|].
      by apply inv_params. }
    eapply returns_bind; [apply Hzero|intros _].
    eapply returns_bind; [apply Hzero|intros _].
    eapply returns_bind; [apply batch_loop_returns|intros ls].
    apply returns_get. intros s Hs.
    eapply returns_bind; [|intros _; apply returns_ret].
    intros st ->. eexists _, _, _. split; [reflexivity|].
    by apply inv_opt_state.
Qed.
End LoopsReturn.

(** Training does not raise: from the state it starts in, every run of the
    luminance/blur variant returns, and so does every run of the
    downscaling variant on batches of one image. *)
Lemma train2_epochs_return (loader : list (list batch)) (epoch : Z)
    ps (accumulate0 : Z) (scale0 : V) (os : ostate) :
  exists (ls : list step_losses) st' (evs : list event),
    train_epochs E (train2_step cfg E) epoch loader
      (initial_state ps accumulate0 scale0 os)
    = Some (ls, st', evs).
Proof.
  destruct (train_epochs_returns (train2_step cfg E)
              (@stage_is V ostate cfg READY READY)
              (train2_step_returns) (fun st ps H => H) (fun st os H => H)
              loader epoch (initial_state ps accumulate0 scale0 os))
    as (ls & st' & evs & Hrun & _); [by intros _|].
  by exists ls, st', evs.
Qed.

Lemma train_epochs_return (loader : list (list batch)) (epoch : Z)
    ps (accumulate0 : Z) (scale0 : V) (os : ostate) :
  (forall ps' b, exists d : V, downscaling_network E ps' b = [d]) ->
  exists (ls : list step_losses) st' (evs : list event),
    train_epochs E (train_step cfg E) epoch loader
      (initial_state ps accumulate0 scale0 os)
    = Some (ls, st', evs).
Proof.
  intros Hone.
  destruct (train_epochs_returns (train_step cfg E)
              (@stage_is V ostate cfg READY READY)
              (fun ni b => train_step_returns ni b (fun ps' => Hone ps' b))
              (fun st ps H => H) (fun st os H => H)
              loader epoch (initial_state ps accumulate0 scale0 os))
    as (ls & st' & evs & Hrun & _); [by intros _|].
  by exists ls, st', evs.
Qed.
End StepFacts.

(** ** Combined loss, backward passes and frozen parameters *)

Section TrainingClaims.
Context {V : Type} `{Arith V} {ostate batch : Type}.
Variable cfg : config.
Variable E : @environment V ostate batch.

Lemma train2_step_weighted (ni : Z) (b : batch) (st : train_state)
    (l : step_losses) (st' : train_state) (evs : list event) :
  train2_step cfg E ni b st = Some (l, st', evs) ->
  weighted_sum 1 8 l /\ keeps (params st) (params st').
Proof.
  intros Hm. apply train2_step_spec in Hm. destruct Hm as (-> & _ & Hk).
  split; [|exact Hk]. eexists. split; reflexivity.
Qed.

Lemma train_step_weighted (ni : Z) (b : batch) (st : train_state)
    (l : step_losses) (st' : train_state) (evs : list event) :
  train_step cfg E ni b st = Some (l, st', evs) ->
  (exists bpp : V,
     sl_bpp_loss l = [bpp]
     /\ sl_total_loss l = [add (mul (of_int 40) bpp) (sl_loss l)])
  /\ keeps (params st) (params st').
Proof.
  intros Hm. apply train_step_spec in Hm.
  destruct Hm as ((d & _ & ->) & _ & Hk).
  split; [|exact Hk]. eexists. split; reflexivity.
Qed.

(** C1.  In every step of a run the combined loss is the fixed weighted sum
    of that step's bpp estimate and detection loss: [40 * bpp_loss + loss]
    in the downscaling variant, where [bpp_loss = 1 / downscaling_factor],
    and [1 * bpp_loss + 8 * loss] in the luminance/blur variant; [loss] is
    the detection loss after the scaling by [WORLD_SIZE] and for [quad].
    The weights are the same literals at every step. *)
Theorem combined_loss_fixed_weights :
  (forall (ni : Z) (b : batch) (st : train_state) (l : step_losses)
          (st' : train_state) (evs : list event),
      train_step cfg E ni b st = Some (l, st', evs) ->
      exists d : V,
        downscaling_network E (params st) b = [d]
        /\ sl_bpp_loss l = [div (of_int 1) d]
        /\ sl_loss l
           = scale_detection_loss cfg (compute_loss E (params st) b)
        /\ sl_total_loss l
           = [add (mul (of_int 40) (div (of_int 1) d)) (sl_loss l)])
  /\ (forall (ni : Z) (b : batch) (st : train_state) (l : step_losses)
             (st' : train_state) (evs : list event),
        train2_step cfg E ni b st = Some (l, st', evs) ->
        sl_bpp_loss l = [bpp_of_batch E (params st) b]
        /\ sl_loss l
           = scale_detection_loss cfg (compute_loss E (params st) b)
        /\ sl_total_loss l
           = [add (mul (of_int 1) (bpp_of_batch E (params st) b))
                  (mul (of_int 8) (sl_loss l))])
  /\ (forall (epoch : Z) (loader : list (list batch)) (st : train_state)
             (ls : list step_losses) (st' : train_state) (evs : list event),
        train_epochs E (train_step cfg E) epoch loader st
        = Some (ls, st', evs) ->
        Forall (fun l => exists bpp : V,
                    sl_bpp_loss l = [bpp]
                    /\ sl_total_loss l
                       = [add (mul (of_int 40) bpp) (sl_loss l)]) ls)
  /\ (forall (epoch : Z) (loader : list (list batch)) (st : train_state)
             (ls : list step_losses) (st' : train_state) (evs : list event),
        train_epochs E (train2_step cfg E) epoch loader st
        = Some (ls, st', evs) ->
        Forall (weighted_sum 1 8) ls).
Proof.
  split; [|split; [|split]].
  - intros ni b st l st' evs Hm. apply train_step_spec in Hm.
    destruct Hm as ((d & Hd & ->) & _ & _). exists d. by repeat split.
  - intros ni b st l st' evs Hm. apply train2_step_spec in Hm.
    destruct Hm as (-> & _ & _). by repeat split.
  - intros epoch loader st ls st' evs Hm.
    eapply train_epochs_spec in Hm; [exact (proj1 Hm)|].
    intros; by eapply train_step_weighted.
  - intros epoch loader st ls st' evs Hm.
    eapply train_epochs_spec in Hm; [exact (proj1 Hm)|].
    intros; by eapply train2_step_weighted.
Qed.

End TrainingClaims.

(** On real numbers the two combined losses read as ordinary arithmetic. *)
Lemma total_loss_downscaling_R (bpp_loss loss : R) :
  total_loss_downscaling bpp_loss loss = 40 * bpp_loss + loss.
Proof. reflexivity. Qed.

Lemma total_loss_luminance_R (bpp_loss loss : R) :
  total_loss_luminance bpp_loss loss = bpp_loss + 8 * loss.
Proof. unfold total_loss_luminance. cbn. lra. Qed.

Section BackwardClaims.
Context {V : Type} `{Arith V} {ostate batch : Type}.
Variable cfg : config.
Variable E : @environment V ostate batch.

Lemma optimize_events_no_backward :
  Forall (fun e => is_backward e = false) (train_optimize_events cfg)
  /\ Forall (fun e => is_backward e = false) (train2_optimize_events cfg).
Proof.
  unfold train_optimize_events, train2_optimize_events, ema_events.
  destruct (_ || _); split; repeat constructor.
Qed.

(** C2, amended.  In the luminance/blur variant every step makes exactly one
    backward pass, on the scaler-scaled combined loss, before any other
    call; when the accumulation threshold is reached both optimizers step
    after it, otherwise neither does.  In the downscaling variant every
    step makes two backward passes, an unscaled one on the combined loss
    with [retain_graph=True] and then a scaler-scaled one on the detection
    loss alone; both optimizers step only after both. *)
Theorem backward_then_optimizers (ni : Z) (b : batch) (st : train_state)
    (l : step_losses) (st' : train_state) (evs : list event) :
  (train2_step cfg E ni b st = Some (l, st', evs) ->
   single_scaled_backward evs
   /\ exists rest : list event,
        evs = EvBackward TotalLoss true false :: rest
        /\ Forall (fun e => is_backward e = false) rest
        /\ (if steps_now cfg E ni st
            then EvStep ctrl_optimizer true ∈ rest
                 /\ EvStep optimizer true ∈ rest
            else rest = []
                 /\ params st'
                    = autograd_backward E TotalLoss
                        (if amp cfg then Some (gs_scale (scaler st))
                         else None) b (params st)))
  /\ (forall (factor : option V) (i : nat) (p : param) (g : V),
        params st !! i = Some p ->
        p_requires_grad p = true ->
        gradient E TotalLoss (params st) b i = Some g ->
        autograd_backward E TotalLoss factor b (params st) !! i
        = Some (set_grad
                  (accumulate_grad (p_grad p)
                     (match factor with Some s => mul s g | None => g end))
                  p))
  /\ (train_step cfg E ni b st = Some (l, st', evs) ->
      exists rest : list event,
        evs = EvBackward TotalLoss false true
                :: EvBackward DetectionLoss true false :: rest
        /\ Forall (fun e => is_backward e = false) rest
        /\ (if steps_now cfg E ni st
            then EvStep ctrl_optimizer false ∈ rest
                 /\ EvStep optimizer true ∈ rest
            else rest = [])).
Proof.
  destruct optimize_events_no_backward as [Hnb Hnb2].
  split; [|split]; [intros Hm| |intros Hm].
  - pose proof (train2_step_accumulates cfg E _ _ _ _ _ _ Hm) as Hacc.
    apply train2_step_spec in Hm. destruct Hm as (_ & -> & _).
    assert (Hrest : Forall (fun e => is_backward e = false)
              (if steps_now cfg E ni st then train2_optimize_events cfg
               else [])).
    { destruct (steps_now cfg E ni st); [exact Hnb2|constructor]. }
    split; [eexists; split; [reflexivity|exact Hrest]|].
    eexists; split; [reflexivity|]. split; [exact Hrest|].
    destruct (steps_now cfg E ni st); [|split; [reflexivity|by apply Hacc]].
    unfold train2_optimize_events. split; set_solver.
  - intros factor i p g. apply autograd_backward_lookup.
  - apply train_step_spec in Hm. destruct Hm as (_ & -> & _).
    eexists; split; [reflexivity|]. split.
    + destruct (steps_now cfg E ni st); [exact Hnb|constructor].
    + destruct (steps_now cfg E ni st); [|reflexivity].
      unfold train_optimize_events. split; set_solver.
Qed.
End BackwardClaims.

Section FrozenParameters.
Context {V : Type} `{Arith V} {ostate batch : Type}.
Variable cfg : config.
Variable E : @environment V ostate batch.
Variable in_freeze : string -> bool.

Lemma setup_train_frozen (specs : list (string * owner * V)) :
  Forall (fun p => p_owner p = ControlBackbone ->
                   p_requires_grad p = false /\ p_grad p = None)
         (setup_train in_freeze (map fresh_param specs)).
Proof.
  unfold setup_train, freeze_detector_layers, freeze_where.
  rewrite !map_map. apply Forall_forall. intros p Hin.
  apply list_elem_of_In, in_map_iff in Hin.
  destruct Hin as [[[name w] d] [<- _]].
  destruct w; cbv; try destruct (in_freeze name); cbv;
    intros Hown; try discriminate Hown; by split.
Qed.

Lemma setup_train2_frozen (specs : list (string * owner * V)) :
  Forall (fun p => frozen_owner (p_owner p) = true ->
                   p_requires_grad p = false /\ p_grad p = None)
         (setup_train2 in_freeze (map fresh_param specs)).
Proof.
  unfold setup_train2, freeze_detector_layers, freeze_where.
  rewrite !map_map. apply Forall_forall. intros p Hin.
  apply list_elem_of_In, in_map_iff in Hin.
  destruct Hin as [[[name w] d] [<- _]].
  destruct w; cbv; try destruct (in_freeze name); cbv;
    intros Hown; try discriminate Hown; by split.
Qed.

Lemma frozen_ok_of_frozen (ps : list (@param V)) :
  Forall (fun p => frozen_owner (p_owner p) = true ->
                   p_requires_grad p = false /\ p_grad p = None) ps ->
  frozen_ok ps.
Proof.
  unfold frozen_ok. intros Hall. eapply Forall_impl; [exact Hall|].
  intros p Hp Hown. apply Hp. by rewrite Hown.
Qed.

Lemma same_frozen_changes (ps ps' : list (@param V)) (i : nat)
    (p p' : @param V) :
  same_frozen ps ps' ->
  ps !! i = Some p -> ps' !! i = Some p' ->
  p_data p' <> p_data p ->
  p_owner p = Detector \/ p_owner p = ControlHead.
Proof.
  intros Hsame Hp Hp' Hne.
  destruct (Forall2_lookup_lr _ _ _ _ _ _ Hsame Hp Hp') as (_ & _ & Hd).
  destruct (p_owner p); auto; exfalso; apply Hne, Hd; reflexivity.
Qed.

(** C5.  Before training, [requires_grad] is set to [False] on every
    parameter of the control network's ResNet backbone (both variants) and
    of the bit-rate estimator (luminance/blur variant).  From the state
    training starts in, after any number of epochs and one more step, the
    parameters of these frozen components have the values they had before
    the step and before training; a parameter whose value a step changes
    belongs to the detector or to the new head of the control network.
    More generally a step keeps them from any state in which the backbone
    parameters request no gradient and store none. *)
Theorem frozen_parameters_unchanged (specs : list (string * owner * V))
    (accumulate0 : Z) (scale0 : V) (os : ostate) :
  Forall (fun p => p_owner p = ControlBackbone -> p_requires_grad p = false)
         (setup_train in_freeze (map fresh_param specs))
  /\ Forall (fun p => frozen_owner (p_owner p) = true ->
                      p_requires_grad p = false)
            (setup_train2 in_freeze (map fresh_param specs))
  /\ (forall (epoch ni : Z) (loader : list (list batch)) (b : batch)
             (ls : list step_losses) (st1 st2 : train_state)
             (l : step_losses) (evs evs' : list event),
        train_epochs E (train_step cfg E) epoch loader
          (initial_state (setup_train in_freeze (map fresh_param specs))
                         accumulate0 scale0 os)
        = Some (ls, st1, evs) ->
        train_step cfg E ni b st1 = Some (l, st2, evs') ->
        same_frozen (setup_train in_freeze (map fresh_param specs))
                    (params st1)
        /\ same_frozen (params st1) (params st2)
        /\ forall (i : nat) (p p' : param),
             params st1 !! i = Some p -> params st2 !! i = Some p' ->
             p_data p' <> p_data p ->
             p_owner p = Detector \/ p_owner p = ControlHead)
  /\ (forall (epoch ni : Z) (loader : list (list batch)) (b : batch)
             (ls : list step_losses) (st1 st2 : train_state)
             (l : step_losses) (evs evs' : list event),
        train_epochs E (train2_step cfg E) epoch loader
          (initial_state (setup_train2 in_freeze (map fresh_param specs))
                         accumulate0 scale0 os)
        = Some (ls, st1, evs) ->
        train2_step cfg E ni b st1 = Some (l, st2, evs') ->
        same_frozen (setup_train2 in_freeze (map fresh_param specs))
                    (params st1)
        /\ same_frozen (params st1) (params st2)
        /\ forall (i : nat) (p p' : param),
             params st1 !! i = Some p -> params st2 !! i = Some p' ->
             p_data p' <> p_data p ->
             p_owner p = Detector \/ p_owner p = ControlHead)
  /\ (forall (ni : Z) (b : batch) (st st' : train_state) (l : step_losses)
             (evs : list event),
        frozen_ok (params st) ->
        train_step cfg E ni b st = Some (l, st', evs)
        \/ train2_step cfg E ni b st = Some (l, st', evs) ->
        frozen_ok (params st') /\ same_frozen (params st) (params st')).
Proof.
  pose proof (setup_train_frozen specs) as Hs1.
  pose proof (setup_train2_frozen specs) as Hs2.
  split; [eapply Forall_impl; [exact Hs1|]; intros p Hp Ho; apply Hp, Ho|].
  split; [eapply Forall_impl; [exact Hs2|]; intros p Hp Ho; apply Hp, Ho|].
  split; [|split];
    [| |intros ni b st st' l evs Hok [Hm|Hm];
        [exact (proj2 (proj2 (train_step_spec cfg E _ _ _ _ _ _ Hm)) Hok)
        |exact (proj2 (proj2 (train2_step_spec cfg E _ _ _ _ _ _ Hm)) Hok)]].
  - intros epoch ni loader b ls st1 st2 l evs evs' Hrun Hstep.
    eapply (train_epochs_spec E _ (fun _ => True)) in Hrun;
      [|intros ? ? ? ? ? ? Hm; split; [exact I|];
        exact (proj2 (proj2 (train_step_spec cfg E _ _ _ _ _ _ Hm)))].
    destruct Hrun as [_ Hk1]. cbn [params initial_state] in Hk1.
    destruct (Hk1 Hs1) as [Hok1 Hsame1].
    pose proof (proj2 (proj2 (train_step_spec cfg E _ _ _ _ _ _ Hstep)))
      as Hk2.
    destruct (Hk2 Hok1) as [_ Hsame2].
    split; [exact Hsame1|]. split; [exact Hsame2|].
    intros i p p'. by apply same_frozen_changes.
  - intros epoch ni loader b ls st1 st2 l evs evs' Hrun Hstep.
    eapply (train_epochs_spec E _ (fun _ => True)) in Hrun;
      [|intros ? ? ? ? ? ? Hm; split; [exact I|];
        exact (proj2 (proj2 (train2_step_spec cfg E _ _ _ _ _ _ Hm)))].
    destruct Hrun as [_ Hk1]. cbn [params initial_state] in Hk1.
    destruct (Hk1 (frozen_ok_of_frozen _ Hs2)) as [Hok1 Hsame1].
    pose proof (proj2 (proj2 (train2_step_spec cfg E _ _ _ _ _ _ Hstep)))
      as Hk2.
    destruct (Hk2 Hok1) as [_ Hsame2].
    split; [exact Hsame1|]. split; [exact Hsame2|].
    intros i p p'. by apply same_frozen_changes.
Qed.
End FrozenParameters.

(** *** The steps on the rational instance *)

Example train2_step_total_loss :
  (fun r => sl_total_loss (fst (fst r)))
    <$> train2_step cfg0 env0 0 tt train2_state0
  = Some [1 * 3 + 8 * 5]%Q.
Proof. vm_compute. reflexivity. Qed.

Example train_step_total_loss :
  (fun r => sl_total_loss (fst (fst r)))
    <$> train_step cfg0 env0 0 tt train_state0
  = Some [40 * (1 / 2) + 5]%Q.
Proof. vm_compute. reflexivity. Qed.

Lemma combined_loss_fixed_weights_witness :
  exists (ls : list step_losses) (st' : train_state) (evs : list event),
    train_epochs env0 (train2_step cfg0 env0) 0 [[tt; tt]; [tt]] train2_state0
    = Some (ls, st', evs)
    /\ Forall (weighted_sum 1 8) ls.
Proof.
  destruct (train_epochs env0 (train2_step cfg0 env0) 0 [[tt; tt]; [tt]]
              train2_state0) as [[[ls st'] evs]|] eqn:Hrun;
    [|vm_compute in Hrun; discriminate Hrun].
  exists ls, st', evs. split; [reflexivity|].
  exact (proj2 (proj2 (proj2 (combined_loss_fixed_weights cfg0 env0)))
           _ _ _ _ _ _ Hrun).
Defined.

Lemma backward_then_optimizers_witness :
  exists (l : step_losses) (st' : train_state) (evs : list event),
    train2_step cfg0 env0 0 tt train2_state0 = Some (l, st', evs)
    /\ single_scaled_backward evs.
Proof.
  destruct (train2_step cfg0 env0 0 tt train2_state0)
    as [[[l st'] evs]|] eqn:Hrun;
    [|vm_compute in Hrun; discriminate Hrun].
  exists l, st', evs. split; [reflexivity|].
  exact (proj1 (proj1 (backward_then_optimizers cfg0 env0 0 tt train2_state0
                         l st' evs) Hrun)).
Defined.

(** C2 as stated fails on the downscaling variant: its step calls
    [backward] twice, first on the unscaled combined loss and then on the
    scaled detection loss alone, before either optimizer steps. *)
Lemma train_step_two_backward_passes :
  exists (l : step_losses) (st' : train_state) (evs : list event),
    train_step cfg0 env0 0 tt train_state0 = Some (l, st', evs)
    /\ evs = [EvBackward TotalLoss false true;
              EvBackward DetectionLoss true false;
              EvUnscale optimizer; EvClipGrad optimizer;
              EvStep ctrl_optimizer false; EvZeroGrad ctrl_optimizer;
              EvStep optimizer true; EvScalerUpdate; EvZeroGrad optimizer;
              EvEmaUpdate]
    /\ length (filter (fun e => is_backward e = true) evs) = 2%nat
    /\ ~ single_scaled_backward evs.
Proof.
  eexists _, _, _. split; [vm_compute; reflexivity|].
  split; [reflexivity|]. split; [reflexivity|].
  intros [rest [Heq _]]. discriminate Heq.
Qed.

Lemma frozen_parameters_unchanged_witness :
  exists (ls : list step_losses) (st1 st2 : train_state) (l : step_losses)
         (evs evs' : list event),
    train_epochs env0 (train2_step cfg0 env0) 0 [[tt; tt]; [tt]] train2_state0
    = Some (ls, st1, evs)
    /\ train2_step cfg0 env0 3 tt st1 = Some (l, st2, evs')
    /\ same_frozen (params train2_state0) (params st1)
    /\ same_frozen (params st1) (params st2).
Proof.
  destruct (train_epochs env0 (train2_step cfg0 env0) 0 [[tt; tt]; [tt]]
              train2_state0) as [[[ls st1] evs]|] eqn:Hrun;
    [|vm_compute in Hrun; discriminate Hrun].
  destruct (train2_step cfg0 env0 3 tt st1) as [[[l st2] evs']|] eqn:Hstep.
  - exists ls, st1, st2, l, evs, evs'.
    split; [reflexivity|]. split; [exact Hstep|].
    destruct (proj1 (proj2 (proj2 (proj2
                (frozen_parameters_unchanged cfg0 env0 (fun _ => false)
                   specs0 1 65536%Q tt))))
                0%Z 3%Z [[tt; tt]; [tt]] tt ls st1 st2 l evs evs' Hrun Hstep)
      as (Hs1 & Hs2 & _).
    split; [exact Hs1|exact Hs2].
  - exfalso. vm_compute in Hrun. injection Hrun as <- <- <-.
    vm_compute in Hstep. discriminate Hstep.
Defined.

(** ** Loading a checkpoint without a control-network entry *)

Import Checkpoint.

Example load_plain_checkpoint_train :
  load_pretrained_train keep_common "yolov5s.pt" ckpt_plain fresh_model
    fresh_downscaling_network
  = Some ({[ "model.0.conv.weight" := 5%Z ]}, fresh_downscaling_network,
          [LoggerInfo "Transferred 1/1 items from yolov5s.pt"]).
Proof. vm_compute. reflexivity. Qed.

Example load_joint_checkpoint_train2 :
  load_pretrained_train2 keep_common "last.pt" ckpt_joint fresh_model
    fresh_dynamic_luminance_network
  = Some ({[ "model.0.conv.weight" := 5%Z ]}, {[ "fc4.weight" := 8%Z ]},
          [Stdout "dynamic_luminance_network 가중치 pretrained 에서 가져옴."]).
Proof. vm_compute. reflexivity. Qed.

(** C8 as stated fails: loading a checkpoint without a control-network
    entry logs no warning.  train.py logs the [INFO] report on the
    transferred detector items, as it does for every checkpoint, and
    train2_0602_qf80_8.py logs the same [INFO] report. *)
Lemma no_warning_for_missing_entry :
  ckpt_plain !! "downscaling_network" = None
  /\ ckpt_plain !! "dynamic_luminance_network" = None
  /\ (exists (model : gmap string Z) (log : list log_record),
        load_pretrained_train keep_common "yolov5s.pt" ckpt_plain fresh_model
          fresh_downscaling_network
        = Some (model, fresh_downscaling_network, log)
        /\ log = [LoggerInfo "Transferred 1/1 items from yolov5s.pt"]
        /\ ~ Exists (fun r => is_warning r = true) log)
  /\ (exists (model : gmap string Z) (log : list log_record),
        load_pretrained_train2 keep_common "yolov5s.pt" ckpt_plain fresh_model
          fresh_dynamic_luminance_network
        = Some (model, fresh_dynamic_luminance_network, log)
        /\ log = [LoggerInfo "Transferred 1/1 items from yolov5s.pt"]
        /\ ~ Exists (fun r => is_warning r = true) log).
Proof.
  split; [vm_compute; reflexivity|]. split; [vm_compute; reflexivity|].
  split.
  - eexists _, _. split; [vm_compute; reflexivity|]. split; [reflexivity|].
    intros Hex. apply Exists_cons in Hex as [Hw|Hex]; [discriminate Hw|].
    by apply Exists_nil in Hex.
  - eexists _, _. split; [vm_compute; reflexivity|]. split; [reflexivity|].
    intros Hex. apply Exists_cons in Hex as [Hw|Hex]; [discriminate Hw|].
    by apply Exists_nil in Hex.
Qed.

Section LoadingClaims.
Context {V : Type}.
Variable intersect_dicts : gmap string V -> gmap string V -> gmap string V.

(** C8, amended.  When the checkpoint (a record with a ["model"] entry) has
    no control-network entry, loading does not fail and the control network
    keeps its freshly initialized weights; nothing is logged at warning
    level, the only record is the [INFO] report on the transferred detector
    items.  When the entry is present, [load_state_dict] is applied to the
    stored state dict: loading returns it as the control network's state
    when its keys are the network's own, and raises otherwise. *)
Theorem missing_control_entry_falls_back (weights : string)
    (ckpt : gmap string (gmap string V)) (csd model control : gmap string V) :
  ckpt !! "model" = Some csd ->
  let model' := load_state_dict_lenient model (intersect_dicts csd model) in
  let report :=
    LoggerInfo (transferred_report (intersect_dicts csd model) model' weights)
  in
  (ckpt !! "downscaling_network" = None ->
   load_pretrained_train intersect_dicts weights ckpt model control
   = Some (model', control, [report]))
  /\ (ckpt !! "dynamic_luminance_network" = None ->
      load_pretrained_train2 intersect_dicts weights ckpt model control
      = Some (model', control, [report]))
  /\ is_warning report = false
  /\ (forall state : gmap string V,
        ckpt !! "downscaling_network" = Some state ->
        load_pretrained_train intersect_dicts weights ckpt model control
        = control' ← load_state_dict control state;
          Some (model', control',
                [Stdout "Loaded downscaling_network weight@@@@"; report]))
  /\ (forall state : gmap string V,
        ckpt !! "dynamic_luminance_network" = Some state ->
        load_pretrained_train2 intersect_dicts weights ckpt model control
        = control' ← load_state_dict control state;
          Some (model', control',
                [Stdout
                   "dynamic_luminance_network 가중치 pretrained 에서 가져옴."]))
  /\ (forall state : gmap string V,
        dom state = dom control -> load_state_dict control state = Some state).
Proof.
  intros Hmodel model' report.
  unfold load_pretrained_train, load_pretrained_train2.
  rewrite Hmodel. cbn [mbind option_bind].
  repeat split.
  - by intros ->.
  - by intros ->.
  - by intros state ->.
  - by intros state ->.
  - intros state Hdom. unfold load_state_dict.
    destruct (decide (dom state = dom control)); [reflexivity|contradiction].
Qed.
End LoadingClaims.

Lemma missing_control_entry_falls_back_witness :
  ckpt_plain !! "model" = Some {[ "model.0.conv.weight" := 5%Z ]}
  /\ ckpt_plain !! "downscaling_network" = None
  /\ exists (model : gmap string Z) (log : list log_record),
       load_pretrained_train keep_common "yolov5s.pt" ckpt_plain fresh_model
         fresh_downscaling_network
       = Some (model, fresh_downscaling_network, log).
Proof.
  assert (Hm : ckpt_plain !! "model" = Some {[ "model.0.conv.weight" := 5%Z ]})
    by (vm_compute; reflexivity).
  assert (Hn : ckpt_plain !! "downscaling_network" = None)
    by (vm_compute; reflexivity).
  split; [exact Hm|]. split; [exact Hn|].
  eexists _, _.
  exact (proj1 (missing_control_entry_falls_back keep_common "yolov5s.pt"
                  ckpt_plain _ fresh_model fresh_downscaling_network Hm) Hn).
Defined.

(** ** Further properties of the transform pipeline *)

(** *** Convolution: extent and range *)

Lemma conv2d_plane_extent (k H W : nat) (kernel plane : list (list R)) :
  (1 <= k)%nat ->
  shape2 k k kernel -> shape2 H W plane -> (1 <= H)%nat -> (1 <= W)%nat ->
  exists out,
    conv2d_plane (k / 2) kernel plane = Some out
    /\ shape2 (H + 2 * (k / 2) - k + 1) (W + 2 * (k / 2) - k + 1) out.
Proof.
  intros Hk1 [Hk _] Hplane HH HW.
  assert (Hk2 : (k <= 2 * (k / 2) + 1)%nat).
  { pose proof (Nat.div_mod_eq k 2). pose proof (Nat.mod_upper_bound k 2).
    lia. }
  set (p := (k / 2)%nat) in *.
  pose proof (shape2_pad2d p H W plane Hplane HH) as [Hlp Hrp].
  unfold conv2d_plane. rewrite Hk, Hlp.
  assert (Hw : length (hd [] (pad2d p plane)) = (p + W + p)%nat).
  { apply (hd_Forall (fun row => length row = (p + W + p)%nat));
      [lia|exact Hrp]. }
  rewrite Hw.
  destruct (Nat.leb_spec k (p + H + p)) as [_|?]; [|lia].
  destruct (Nat.leb_spec k (p + W + p)) as [_|?]; [|lia].
  cbn [andb]. eexists; split; [reflexivity|].
  split.
  - rewrite length_map, length_seq. lia.
  - apply Forall_forall. intros row Hin.
    apply list_elem_of_In, in_map_iff in Hin. destruct Hin as [i [<- _]].
    rewrite length_map, length_seq. lia.
Qed.

Lemma gaussian_blur_extent (image : list (list (list (list R))))
    (B C H W k : nat) (sigma : R) :
  shape4 B C H W image ->
  (1 <= B)%nat -> (1 <= C)%nat -> (1 <= H)%nat -> (1 <= W)%nat ->
  (1 <= k)%nat ->
  exists blurred_image,
    gaussian_blur image k sigma = Some blurred_image
    /\ shape4 B C (H + 2 * (k / 2) - k + 1) (W + 2 * (k / 2) - k + 1)
              blurred_image.
Proof.
  intros [HlenB Himgs] HB HC HH HW Hk.
  destruct (gaussian_kernel_normalised k sigma Hk) as [Hker _].
  unfold gaussian_blur, conv2d_grouped.
  assert (Hsize : size1 image = C).
  { unfold size1.
    apply (hd_Forall (fun img => length img = C)); [lia|].
    eapply Forall_impl; [exact Himgs|]. by intros img [? _]. }
  rewrite Hsize.
  destruct C as [|C']; [lia|].
  set (kernels := repeat (gaussian_kernel k sigma) (S C')).
  change (match kernels with [] => None | _ => ?x end) with x.
  set (H' := (H + 2 * (k / 2) - k + 1)%nat).
  set (W' := (W + 2 * (k / 2) - k + 1)%nat).
  destruct (mapM_Forall
              (fun img =>
                 mapM (fun ck : list (list R) * list (list R) =>
                         conv2d_plane (k / 2) (snd ck) (fst ck))
                      (zip img kernels))
              (shape3 (S C') H' W') image) as [out [Hout [Hlen Hshape]]].
  - eapply Forall_impl; [exact Himgs|].
    intros img [HlenC Hplanes].
    destruct (mapM_Forall
                (fun ck : list (list R) * list (list R) =>
                   conv2d_plane (k / 2) (snd ck) (fst ck))
                (shape2 H' W') (zip img kernels)) as [o [Ho [Hl Hs]]].
    + apply Forall_forall. intros [plane ker] Hin.
      apply elem_of_zip_l in Hin as Hp. apply elem_of_zip_r in Hin as Hkr.
      cbn [fst snd] in *. apply list_elem_of_In in Hkr.
      apply (repeat_spec (S C')) in Hkr. subst ker.
      rewrite Forall_forall in Hplanes.
      apply (conv2d_plane_extent k H W); auto.
    + exists o. split; [exact Ho|]. split; [|exact Hs].
      rewrite Hl, length_zip. unfold kernels. rewrite repeat_length. lia.
  - exists out. split; [exact Hout|]. split; [lia|exact Hshape].
Qed.

(** X2.  The docstring of [gaussian_blur] asks for an odd kernel size.  With
    an even kernel size (at least 2) the padding [kernel_size // 2] is one
    column too wide: the result is one larger than the input in height and
    in width. *)
Theorem gaussian_blur_even_kernel_grows (image : list (list (list (list R))))
    (B C H W kernel_size : nat) (sigma : R) :
  shape4 B C H W image ->
  (1 <= B)%nat -> (1 <= C)%nat -> (1 <= H)%nat -> (1 <= W)%nat ->
  (2 <= kernel_size)%nat ->
  Nat.even kernel_size = true ->
  exists blurred_image,
    gaussian_blur image kernel_size sigma = Some blurred_image
    /\ shape4 B C (H + 1) (W + 1) blurred_image.
Proof.
  intros Hshape HB HC HH HW Hk Heven.
  destruct (gaussian_blur_extent image B C H W kernel_size sigma)
    as [out [Hout Hs]]; try assumption; [lia|].
  exists out. split; [exact Hout|].
  apply Nat.even_spec in Heven. destruct Heven as [m ->].
  replace (2 * m / 2)%nat with m in Hs
    by (rewrite Nat.mul_comm, Nat.div_mul; lia).
  replace (H + 2 * m - 2 * m + 1)%nat with (H + 1)%nat in Hs by lia.
  replace (W + 2 * m - 2 * m + 1)%nat with (W + 1)%nat in Hs by lia.
  exact Hs.
Qed.

Lemma gaussian_blur_even_kernel_grows_witness :
  exists blurred_image,
    gaussian_blur [[[[0.5; 0.25]]; [[1; 0]]; [[0; 0.75]]]] 4 0.8
    = Some blurred_image
    /\ shape4 1 3 2 3 blurred_image.
Proof.
  refine (gaussian_blur_even_kernel_grows
            [[[[0.5; 0.25]]; [[1; 0]]; [[0; 0.75]]]] 1 3 1 2 4 0.8
            _ _ _ _ _ _ _).
  - repeat (split || constructor).
  - lia.
  - lia.
  - lia.
  - lia.
  - lia.
  - reflexivity.
Defined.

Lemma sum_list_mul_le (a b : list R) :
  Forall (fun v => 0 <= v <= 1) a -> Forall (fun v => 0 <= v) b ->
  0 <= sum_list (zip_with Rmult a b) <= sum_list b.
Proof.
  unfold sum_list. intros Ha; revert b.
  induction Ha as [|x a Hx _ IH]; intros b Hb.
  - cbn. clear -Hb. induction Hb as [|y b Hy _ IH]; cbn; lra.
  - destruct Hb as [|y b Hy Hb]; cbn [zip_with foldr]; [lra|].
    specialize (IH b Hb). nra.
Qed.

Lemma sum_list_nonneg (l : list R) :
  Forall (fun v => 0 <= v) l -> 0 <= sum_list l.
Proof.
  unfold sum_list. induction 1 as [|x l Hx _ IH]; cbn [foldr]; lra.
Qed.

Lemma tensor_sum_nonneg (t : list (list R)) :
  Forall (Forall (fun v => 0 <= v)) t -> 0 <= tensor_sum t.
Proof.
  intros Ht. unfold tensor_sum.
  apply sum_list_nonneg. apply Forall_forall. intros s Hin.
  apply list_elem_of_In, in_map_iff in Hin. destruct Hin as [row [<- Hrow]].
  rewrite Forall_forall in Ht.
  apply sum_list_nonneg, Ht, list_elem_of_In, Hrow.
Qed.

Lemma tensor_sum_mul_le (a b : list (list R)) :
  unit_range2 a -> Forall (Forall (fun v => 0 <= v)) b ->
  0 <= tensor_sum (elementwise Rmult a b) <= tensor_sum b.
Proof.
  unfold tensor_sum, elementwise, unit_range2. intros Ha; revert b.
  induction Ha as [|r a Hr _ IH]; intros b Hb.
  - cbn [zip_with map]. split; [cbn; lra|].
    apply sum_list_nonneg. apply Forall_forall. intros s Hin.
    apply list_elem_of_In, in_map_iff in Hin. destruct Hin as [row [<- Hrow]].
    rewrite Forall_forall in Hb.
    apply sum_list_nonneg, Hb, list_elem_of_In, Hrow.
  - destruct Hb as [|s b Hs Hb]; cbn [zip_with map]; [cbn; lra|].
    specialize (IH b Hb). pose proof (sum_list_mul_le r s Hr Hs).
    unfold sum_list in *. cbn [foldr]. lra.
Qed.

Lemma unit_range2_pad2d (p : nat) (plane : list (list R)) :
  unit_range2 plane -> unit_range2 (pad2d p plane).
Proof.
  unfold unit_range2, pad2d. intros Hplane.
  assert (Hz : forall n, Forall (fun v => 0 <= v <= 1) (repeat 0 n)).
  { intros n. apply Forall_forall. intros v Hin.
    apply list_elem_of_In, repeat_spec in Hin. subst. lra. }
  assert (Hzr : forall n m,
            Forall (Forall (fun v => 0 <= v <= 1)) (repeat (repeat 0 n) m)).
  { intros n m. apply Forall_forall. intros row Hin.
    apply list_elem_of_In, repeat_spec in Hin. subst. apply Hz. }
  apply Forall_app; split; [apply Hzr|].
  apply Forall_app; split; [|apply Hzr].
  apply Forall_forall. intros row Hin.
  apply list_elem_of_In, in_map_iff in Hin. destruct Hin as [r [<- Hr]].
  rewrite Forall_forall in Hplane.
  apply Forall_app; split; [apply Hz|].
  apply Forall_app; split; [|apply Hz].
  apply Hplane, list_elem_of_In, Hr.
Qed.

Lemma unit_range2_window (k i j : nat) (plane : list (list R)) :
  unit_range2 plane -> unit_range2 (window k i j plane).
Proof.
  unfold unit_range2, window. intros Hplane.
  pose proof (Forall_take _ k _ (Forall_drop _ i _ Hplane)) as Hrows.
  apply Forall_forall. intros row Hin.
  apply list_elem_of_In, in_map_iff in Hin. destruct Hin as [r [<- Hr]].
  apply Forall_take, Forall_drop.
  rewrite Forall_forall in Hrows. apply Hrows, list_elem_of_In, Hr.
Qed.

Lemma conv2d_plane_range (p : nat) (kernel plane out : list (list R)) :
  Forall (Forall (fun v => 0 <= v)) kernel ->
  tensor_sum kernel <= 1 ->
  unit_range2 plane ->
  conv2d_plane p kernel plane = Some out ->
  unit_range2 out.
Proof.
  intros Hker Hsum Hplane. unfold conv2d_plane.
  destruct (_ && _); [|discriminate]. intros [= <-].
  apply Forall_forall. intros row Hin.
  apply list_elem_of_In, in_map_iff in Hin. destruct Hin as [i [<- _]].
  apply Forall_forall. intros v Hv.
  apply list_elem_of_In, in_map_iff in Hv. destruct Hv as [j [<- _]].
  pose proof (tensor_sum_mul_le
                (window (length kernel) i j (pad2d p plane)) kernel
                (unit_range2_window _ _ _ _ (unit_range2_pad2d p _ Hplane))
                Hker). lra.
Qed.

Lemma gaussian_kernel_nonneg (k : nat) (sigma : R) :
  (1 <= k)%nat -> Forall (Forall (fun v => 0 <= v)) (gaussian_kernel k sigma).
Proof.
  intros Hk.
  pose proof (gaussian_kernel_normalised k sigma Hk) as [_ Hsum].
  unfold gaussian_kernel in *.
  set (kernel := map (map (fun d => exp (- d / (2 * sigma ^ 2)))) _) in *.
  assert (Hpos : Forall (Forall (fun v => 0 < v)) kernel).
  { apply Forall_forall. intros row Hin.
    apply list_elem_of_In, in_map_iff in Hin. destruct Hin as [r [<- _]].
    apply Forall_forall. intros v Hv.
    apply list_elem_of_In, in_map_iff in Hv. destruct Hv as [d [<- _]].
    apply exp_pos. }
  assert (Htot : 0 < tensor_sum kernel).
  { rewrite tensor_sum_map_div in Hsum.
    assert (Hge : 0 <= tensor_sum kernel).
    { apply tensor_sum_nonneg.
      eapply Forall_impl; [exact Hpos|]. intros row Hrow.
      eapply Forall_impl; [exact Hrow|]. intros v Hv. cbv beta in Hv. lra. }
    destruct Hge as [Hlt|Heq]; [exact Hlt|].
    exfalso. rewrite <- Heq in Hsum.
    unfold Rdiv in Hsum. rewrite Rinv_0 in Hsum. lra. }
  apply Forall_forall. intros row Hin.
  apply list_elem_of_In, in_map_iff in Hin. destruct Hin as [r [<- Hr]].
  apply Forall_forall. intros v Hv.
  apply list_elem_of_In, in_map_iff in Hv. destruct Hv as [d [<- Hd]].
  rewrite Forall_forall in Hpos. apply list_elem_of_In in Hr, Hd.
  specialize (Hpos r Hr). rewrite Forall_forall in Hpos.
  specialize (Hpos d Hd). cbv beta in Hpos.
  apply Rlt_le, Rdiv_lt_0_compat; assumption.
Qed.

Lemma mapM_Some_Forall2 {A B : Type} (f : A -> option B) (l : list A)
    (k : list B) :
  mapM f l = Some k -> Forall2 (fun x y => f x = Some y) l k.
Proof. apply mapM_Some_1. Qed.

Lemma gaussian_blur_keeps_unit_range_aux
    (image : list (list (list (list R))))
    (kernel_size : nat) (sigma : R)
    (blurred_image : list (list (list (list R)))) :
  (1 <= kernel_size)%nat ->
  unit_range4 image ->
  gaussian_blur image kernel_size sigma = Some blurred_image ->
  unit_range4 blurred_image.
Proof.
  intros Hk Himage. unfold gaussian_blur, conv2d_grouped.
  destruct (repeat _ _) as [|ker kers] eqn:Hrep; [discriminate|].
  rewrite <- Hrep. clear ker kers Hrep.
  assert (Hkers : forall ker,
            ker ∈ repeat (gaussian_kernel kernel_size sigma) (size1 image) ->
            ker = gaussian_kernel kernel_size sigma).
  { intros ker Hin. apply list_elem_of_In in Hin.
    by apply repeat_spec in Hin. }
  revert Hkers.
  generalize (repeat (gaussian_kernel kernel_size sigma) (size1 image)).
  intros kernels Hkers Hm. apply mapM_Some_Forall2 in Hm.
  pose proof (gaussian_kernel_nonneg kernel_size sigma Hk) as Hnn.
  pose proof (gaussian_kernel_normalised kernel_size sigma Hk) as [_ Hsum].
  unfold unit_range4 in *.
  induction Hm as [|img out imgs outs Himg _ IH]; [constructor|].
  apply Forall_cons in Himage as [Hi Himgs].
  constructor; [|by apply IH].
  apply mapM_Some_Forall2 in Himg.
  assert (Hz : Forall (fun ck : list (list R) * list (list R) =>
                         unit_range2 ck.1
                         /\ ck.2 = gaussian_kernel kernel_size sigma)
                      (zip img kernels)).
  { apply Forall_forall. intros [plane ker] Hin.
    apply elem_of_zip_l in Hin as Hp. apply elem_of_zip_r in Hin as Hkr.
    cbn [fst snd] in *. split.
    - unfold unit_range3 in Hi. rewrite Forall_forall in Hi. by apply Hi.
    - by apply Hkers. }
  clear -Himg Hz Hnn Hsum. unfold unit_range3.
  induction Himg as [|[plane ker] o cks os Ho _ IH]; [constructor|].
  apply Forall_cons in Hz as [[Hpl Hker] Hz]. cbn [fst snd] in *. subst ker.
  constructor; [|by apply IH].
  eapply conv2d_plane_range; [exact Hnn|lra|exact Hpl|exact Ho].
Qed.

(** X1.  Blurring keeps the image range: on an image with values in [0, 1]
    every value of the result lies in [0, 1] (the kernel is non-negative,
    sums to 1 and the border is padded with zeros). *)
Theorem gaussian_blur_keeps_unit_range (image : list (list (list (list R))))
    (kernel_size : nat) (sigma : R)
    (blurred_image : list (list (list (list R)))) :
  (1 <= kernel_size)%nat ->
  0 < sigma ->
  unit_range4 image ->
  gaussian_blur image kernel_size sigma = Some blurred_image ->
  unit_range4 blurred_image.
Proof.
  intros Hk _. by apply gaussian_blur_keeps_unit_range_aux.
Qed.

Ltac unit_range_tac :=
  repeat (apply Forall_cons; split); try apply Forall_nil; lra.

Lemma gaussian_blur_keeps_unit_range_witness :
  exists blurred_image,
    gaussian_blur [[[[0.5; 0.25]]; [[1; 0]]; [[0; 0.75]]]] 3 0.5
    = Some blurred_image
    /\ unit_range4 blurred_image.
Proof.
  destruct (gaussian_blur_extent
              [[[[0.5; 0.25]]; [[1; 0]]; [[0; 0.75]]]] 1 3 1 2 3 0.5)
    as [out [Hout _]]; [repeat (split || constructor)|lia..|].
  exists out. split; [exact Hout|].
  apply (gaussian_blur_keeps_unit_range
           [[[[0.5; 0.25]]; [[1; 0]]; [[0; 0.75]]]] 3 0.5 out);
    [lia|lra|unit_range_tac|exact Hout].
Defined.

Lemma pixel_map (f : R -> R) (t : list (list (list R))) (c i j : nat) :
  pixel (map (map (map f)) t) c i j = f <$> pixel t c i j.
Proof.
  unfold pixel. rewrite list_lookup_fmap.
  destruct (t !! c) as [plane|]; cbn; [|reflexivity].
  apply at2_map.
Qed.

Lemma unit_range3_pixel (t : list (list (list R))) :
  unit_range3 t
  <-> forall (c i j : nat) (v : R), pixel t c i j = Some v -> 0 <= v <= 1.
Proof.
  unfold unit_range3, unit_range2, pixel, at2. split.
  - intros Ht c i j v Hv.
    destruct (t !! c) as [plane|] eqn:Hc; [|discriminate]. cbn in Hv.
    destruct (plane !! i) as [row|] eqn:Hi; [|discriminate]. cbn in Hv.
    rewrite Forall_lookup in Ht. specialize (Ht _ _ Hc).
    rewrite Forall_lookup in Ht. specialize (Ht _ _ Hi).
    rewrite Forall_lookup in Ht. exact (Ht _ _ Hv).
  - intros Hpix.
    apply Forall_lookup. intros c plane Hc.
    apply Forall_lookup. intros i row Hi.
    apply Forall_lookup. intros j v Hv.
    apply (Hpix c i j v). rewrite Hc; cbn. rewrite Hi; cbn. exact Hv.
Qed.

(** The optional scaling to the white point is applied to the result for
    white point 1. *)
Lemma ReinhardToneMapping_white_point (white_point : R)
    (hdr_image : list (list (list R))) (w : R) :
  ReinhardToneMapping_forward white_point hdr_image w
  = (fun ldr_image =>
       if Req_dec_T white_point 1 then ldr_image
       else map (map (map (fun v => v * white_point))) ldr_image)
    <$> ReinhardToneMapping_forward 1 hdr_image w.
Proof.
  unfold ReinhardToneMapping_forward.
  destruct hdr_image as [|ch0 [|ch1 [|ch2 rest]]]; try reflexivity.
  destruct (Req_dec_T 1 1) as [_|Hne]; [|exfalso; apply Hne; reflexivity].
  reflexivity.
Qed.

(** The forward pass at one pixel, for any white point. *)
Lemma ReinhardToneMapping_pixel_scaled (white_point : R)
    (ch0 ch1 ch2 : list (list R)) (rest : list (list (list R))) (w : R) :
  exists ldr_image,
    ReinhardToneMapping_forward white_point (ch0 :: ch1 :: ch2 :: rest) w
    = Some ldr_image
    /\ forall c i j : nat,
         pixel ldr_image c i j
         = v ← pixel (ch0 :: ch1 :: ch2 :: rest) c i j;
           r ← at2 ch0 i j; g ← at2 ch1 i j; b ← at2 ch2 i j;
           Some (v * scale_factor_of w (luminance_of r g b) * white_point).
Proof.
  destruct (ReinhardToneMapping_pixel ch0 ch1 ch2 rest w) as [ldr [Hfw Hpix]].
  rewrite ReinhardToneMapping_white_point, Hfw. cbn [fmap option_fmap option_map].
  eexists. split; [reflexivity|].
  intros c i j.
  destruct (Req_dec_T white_point 1) as [->|Hwp].
  - rewrite Hpix.
    destruct (pixel _ c i j) as [v|]; cbn; [|reflexivity].
    destruct (at2 ch0 i j) as [r|]; cbn; [|reflexivity].
    destruct (at2 ch1 i j) as [g|]; cbn; [|reflexivity].
    destruct (at2 ch2 i j) as [b|]; cbn; [|reflexivity].
    f_equal. lra.
  - rewrite pixel_map, Hpix.
    destruct (pixel _ c i j) as [v|]; cbn; [|reflexivity].
    destruct (at2 ch0 i j) as [r|]; cbn; [|reflexivity].
    destruct (at2 ch1 i j) as [g|]; cbn; [|reflexivity].
    destruct (at2 ch2 i j) as [b|]; cbn; [|reflexivity].
    reflexivity.
Qed.

(** X3.  Tone mapping keeps the colour ratios of a pixel (the code calls
    its factor the scale factor for maintaining color ratios): at one
    position the outputs [o], [o'] of two channels and their inputs [v], [v']
    satisfy [o * v' = o' * v], for every white point and weight; in
    particular a zero input gives a zero output. *)
Theorem reinhard_keeps_colour_ratios (white_point : R)
    (hdr_image ldr_image : list (list (list R))) (w : R)
    (c c' i j : nat) (v v' o o' : R) :
  ReinhardToneMapping_forward white_point hdr_image w = Some ldr_image ->
  pixel hdr_image c i j = Some v ->
  pixel hdr_image c' i j = Some v' ->
  pixel ldr_image c i j = Some o ->
  pixel ldr_image c' i j = Some o' ->
  o * v' = o' * v /\ (v = 0 -> o = 0).
Proof.
  intros Hfw Hv Hv' Ho Ho'.
  destruct hdr_image as [|ch0 [|ch1 [|ch2 rest]]]; try discriminate Hfw.
  destruct (ReinhardToneMapping_pixel_scaled white_point ch0 ch1 ch2 rest w)
    as [ldr [Hldr Hpix]].
  rewrite Hldr in Hfw. injection Hfw as <-.
  rewrite Hpix, Hv in Ho. rewrite Hpix, Hv' in Ho'. cbn in Ho, Ho'.
  destruct (at2 ch0 i j) as [r|]; [|discriminate]. cbn in Ho, Ho'.
  destruct (at2 ch1 i j) as [g|]; [|discriminate]. cbn in Ho, Ho'.
  destruct (at2 ch2 i j) as [b|]; [|discriminate]. cbn in Ho, Ho'.
  injection Ho as <-. injection Ho' as <-.
  split; [lra|]. intros ->. lra.
Qed.

Lemma reinhard_keeps_colour_ratios_witness :
  exists (ldr_image : list (list (list R))) (o o' : R),
    ReinhardToneMapping_forward 2 [[[0.5]]; [[0.25]]; [[1]]] 1
    = Some ldr_image
    /\ pixel ldr_image 0 0 0 = Some o
    /\ pixel ldr_image 1 0 0 = Some o'
    /\ o * 0.25 = o' * 0.5.
Proof.
  destruct (ReinhardToneMapping_pixel_scaled 2 [[0.5]] [[0.25]] [[1]] [] 1)
    as [ldr [Hfw Hpix]].
  pose proof (Hpix 0%nat 0%nat 0%nat) as H0.
  pose proof (Hpix 1%nat 0%nat 0%nat) as H1.
  cbn in H0, H1.
  exists ldr. eexists. eexists.
  split; [exact Hfw|]. split; [exact H0|]. split; [exact H1|].
  exact (proj1 (reinhard_keeps_colour_ratios
                  2 [[[0.5]]; [[0.25]]; [[1]]] ldr 1 0 1 0 0 0.5 0.25 _ _
                  Hfw eq_refl eq_refl H0 H1)).
Defined.

Lemma ReinhardToneMapping_shape (hdr_image : list (list (list R)))
    (w : R) (C H W : nat) :
  shape3 C H W hdr_image ->
  (3 <= C)%nat ->
  exists ldr_image,
    ReinhardToneMapping_forward 1 hdr_image w = Some ldr_image
    /\ shape3 C H W ldr_image.
Proof.
  intros [Hlen Hplanes] HC.
  destruct hdr_image as [|ch0 [|ch1 [|ch2 rest]]]; cbn in Hlen; try lia.
  unfold ReinhardToneMapping_forward.
  destruct (Req_dec_T 1 1) as [_|Hne]; [|exfalso; apply Hne; reflexivity].
  eexists. split; [reflexivity|].
  assert (H0 : shape2 H W ch0).
  { rewrite Forall_lookup in Hplanes. exact (Hplanes 0%nat _ eq_refl). }
  assert (H1 : shape2 H W ch1).
  { rewrite Forall_lookup in Hplanes. exact (Hplanes 1%nat _ eq_refl). }
  assert (H2 : shape2 H W ch2).
  { rewrite Forall_lookup in Hplanes. exact (Hplanes 2%nat _ eq_refl). }
  set (luminance := elementwise Rplus _ _).
  assert (HL : shape2 H W luminance).
  { repeat apply shape2_elementwise; by apply shape2_map. }
  set (scale_factor := elementwise _ _ luminance).
  assert (HS : shape2 H W scale_factor).
  { apply shape2_elementwise; [by apply shape2_map|exact HL]. }
  split; [by rewrite length_map|].
  apply Forall_forall. intros plane Hin.
  apply list_elem_of_In, in_map_iff in Hin. destruct Hin as [ch [<- Hch]].
  apply shape2_elementwise; [|exact HS].
  rewrite Forall_forall in Hplanes. apply Hplanes, list_elem_of_In, Hch.
Qed.

Lemma ReinhardToneMapping_unit_range (hdr_image ldr_image : list (list (list R)))
    (w : R) :
  unit_range3 hdr_image -> 0 < w ->
  ReinhardToneMapping_forward 1 hdr_image w = Some ldr_image ->
  unit_range3 ldr_image.
Proof.
  intros Hrange Hw Hfw.
  destruct hdr_image as [|ch0 [|ch1 [|ch2 rest]]]; try discriminate Hfw.
  destruct (ReinhardToneMapping_pixel ch0 ch1 ch2 rest w) as [ldr [Hldr Hpix]].
  rewrite Hldr in Hfw. injection Hfw as <-.
  apply unit_range3_pixel. intros c i j o Ho.
  rewrite unit_range3_pixel in Hrange.
  rewrite Hpix in Ho.
  destruct (pixel _ c i j) as [v|] eqn:Hv; [|discriminate]. cbn in Ho.
  destruct (at2 ch0 i j) as [r|] eqn:Hr; [|discriminate]. cbn in Ho.
  destruct (at2 ch1 i j) as [g|] eqn:Hg; [|discriminate]. cbn in Ho.
  destruct (at2 ch2 i j) as [b|] eqn:Hb; [|discriminate]. cbn in Ho.
  injection Ho as <-.
  pose proof (Hrange c i j v Hv) as Hv01.
  pose proof (Hrange 0%nat i j r Hr) as Hr01.
  pose proof (Hrange 1%nat i j g Hg) as Hg01.
  pose proof (Hrange 2%nat i j b Hb) as Hb01.
  pose proof (luminance_range r g b Hr01 Hg01 Hb01) as [HL _].
  pose proof (scale_factor_range w _ Hw HL) as [_ Hs].
  nra.
Qed.

Lemma choose_kernel_size_odd (sigma : R) :
  Nat.odd (choose_kernel_size sigma) = true
  /\ (1 <= choose_kernel_size sigma)%nat.
Proof. unfold choose_kernel_size. destruct (Rle_dec 0.8 sigma); by split; [|lia]. Qed.

Lemma shape4_concat_singletons (B C H W : nat)
    (l : list (list (list (list (list R))))) :
  length l = B -> Forall (shape4 1 C H W) l -> shape4 B C H W (concat l).
Proof.
  intros <- Hall. induction Hall as [|x l [Hx Hsh] _ [IHlen IH]].
  - split; [reflexivity|constructor].
  - destruct x as [|img [|? ?]]; try discriminate Hx.
    cbn [concat app]. split; [cbn [length]; by rewrite IHlen|].
    apply Forall_cons in Hsh as [Himg _]. by constructor.
Qed.

Lemma unit_range4_concat (l : list (list (list (list (list R))))) :
  Forall unit_range4 l -> unit_range4 (concat l).
Proof.
  unfold unit_range4. induction 1; cbn [concat]; [constructor|].
  by apply Forall_app.
Qed.

(** The loop on any weights with positive entries. *)
Lemma tone_map_and_blur_spec (imgs : list (list (list (list R))))
    (dynamic_luminance_weights : list (R * R)) (B H W : nat) :
  shape4 B 3 H W imgs ->
  (1 <= B)%nat -> (1 <= H)%nat -> (1 <= W)%nat ->
  unit_range4 imgs ->
  length dynamic_luminance_weights = B ->
  Forall (fun weights => 0 < fst weights /\ 0 < snd weights)
         dynamic_luminance_weights ->
  exists resized_imgs,
    tone_map_and_blur imgs dynamic_luminance_weights = Some resized_imgs
    /\ shape4 B 3 H W resized_imgs
    /\ unit_range4 resized_imgs.
Proof.
  intros [HlenB Hshape] HB HH HW Hrange Hlen Hpos.
  unfold tone_map_and_blur.
  match goal with
  | |- context [mapM ?f ?l] =>
      destruct (mapM_Forall
                  f (fun out => shape4 1 3 H W out /\ unit_range4 out) l)
        as [outs [Houts [Hlouts Hall]]]
  end.
  { apply Forall_forall. intros [img [w sigma]] Hin.
    apply elem_of_zip_l in Hin as Himg. apply elem_of_zip_r in Hin as Hw.
    cbn [fst snd] in *.
    rewrite Forall_forall in Hshape. specialize (Hshape _ Himg).
    unfold unit_range4 in Hrange. rewrite Forall_forall in Hrange.
    specialize (Hrange _ Himg).
    rewrite Forall_forall in Hpos. destruct (Hpos _ Hw) as [Hw0 Hs0].
    cbn [fst snd] in *.
    destruct (ReinhardToneMapping_shape img w 3 H W Hshape) as [ldr [Hfw Hldr]];
      [lia|].
    rewrite Hfw. cbn.
    pose proof (ReinhardToneMapping_unit_range img ldr w Hrange Hw0 Hfw)
      as Hldr01.
    destruct (choose_kernel_size_odd sigma) as [Hodd Hk].
    destruct (gaussian_blur_extent [ldr] 1 3 H W (choose_kernel_size sigma)
                                   sigma)
      as [out [Hout Hsh]]; try assumption; try lia.
    { split; [reflexivity|]. by constructor. }
    exists out. split; [exact Hout|]. split.
    - pose proof (odd_half _ Hodd) as Hhalf.
      replace (H + 2 * (choose_kernel_size sigma / 2)
               - choose_kernel_size sigma + 1)%nat with H in Hsh by lia.
      replace (W + 2 * (choose_kernel_size sigma / 2)
               - choose_kernel_size sigma + 1)%nat with W in Hsh by lia.
      exact Hsh.
    - apply (gaussian_blur_keeps_unit_range_aux [ldr] _ sigma out Hk);
        [|exact Hout].
      by constructor. }
  rewrite Houts. cbn.
  rewrite length_zip, HlenB, Hlen, Nat.min_id in Hlouts.
  destruct outs as [|o outs']; [cbn in Hlouts; lia|].
  eexists. split; [reflexivity|]. split.
  - apply shape4_concat_singletons; [exact Hlouts|].
    eapply Forall_impl; [exact Hall|]. by intros ? [? _].
  - apply unit_range4_concat.
    eapply Forall_impl; [exact Hall|]. by intros ? [_ ?].
Qed.

Lemma DynamicLuminanceWeightNetwork_range {image : Type}
    (fc4_out : list image -> list (R * R)) (batch : list image) :
  length (DynamicLuminanceWeightNetwork_forward fc4_out batch)
  = length (fc4_out batch)
  /\ Forall (fun row => 0.5 < fst row < 1 /\ 0.5 < snd row < 1)
            (DynamicLuminanceWeightNetwork_forward fc4_out batch).
Proof.
  unfold DynamicLuminanceWeightNetwork_forward. rewrite map_map.
  split; [by rewrite length_map|].
  apply Forall_forall. intros row Hin.
  apply list_elem_of_In, in_map_iff in Hin. destruct Hin as [[a b] [<- _]].
  cbn [fst snd].
  pose proof (sigmoid_range a). pose proof (sigmoid_range b). lra.
Qed.

Lemma clamp_weights_id (w : list (R * R)) :
  Forall (fun row => 0 <= fst row <= 5 /\ 0 <= snd row <= 5) w ->
  clamp_weights w = w.
Proof.
  unfold clamp_weights. induction 1 as [|[a b] w [Ha Hb] _ IH]; [reflexivity|].
  cbn [map fst snd] in *. rewrite IH, !clamp_id by assumption. reflexivity.
Qed.

Lemma verify_batch_size_rows (B K : nat) :
  verify_batch_size [B; K] = if bool_decide (B = 1%nat) then None else Some tt.
Proof. reflexivity. Qed.

(** X4.  The degradation of a training batch of shape (B, 3, H, W) with
    values in [0, 1], with one weight row per image.  On a batch of one
    image it raises: the control network is in training mode and its first
    [BatchNorm1d] refuses a single value per channel.  On two or more images
    tone mapping and blur of every image succeed (the kernel size chosen
    from the blur weight is 3 or 5), and the concatenated result has the
    shape of the batch and values in [0, 1]. *)
Theorem degrade_keeps_shape_and_range
    (fc4_out : list (list (list (list R))) -> list (R * R))
    (imgs : list (list (list (list R)))) (B H W : nat) :
  shape4 B 3 H W imgs ->
  (1 <= H)%nat -> (1 <= W)%nat ->
  unit_range4 imgs ->
  length (fc4_out imgs) = B ->
  (B = 1%nat -> degrade_train2 fc4_out imgs = None)
  /\ ((2 <= B)%nat ->
      exists resized_imgs,
        degrade_train2 fc4_out imgs = Some resized_imgs
        /\ shape4 B 3 H W resized_imgs
        /\ unit_range4 resized_imgs).
Proof.
  intros Hshape HH HW Hrange Hlen.
  pose proof (proj1 Hshape) as HB.
  unfold degrade_train2, DynamicLuminanceWeightNetwork_train.
  rewrite verify_batch_size_rows, HB. split.
  - intros ->. reflexivity.
  - intros H2. rewrite bool_decide_eq_false_2 by lia.
    cbn [mbind option_bind].
    destruct (DynamicLuminanceWeightNetwork_range fc4_out imgs) as [Hl Hw].
    rewrite clamp_weights_id.
    + apply tone_map_and_blur_spec; try assumption; [lia|congruence|].
      eapply Forall_impl; [exact Hw|]. cbv beta. intros row ?. lra.
    + eapply Forall_impl; [exact Hw|]. cbv beta. intros row ?. lra.
Qed.

Lemma degrade_keeps_shape_and_range_witness :
  exists resized_imgs,
    degrade_train2 (fun _ => [(0, 0); (3, -1)])
                   [[[[0.5; 0.25]]; [[1; 0]]; [[0; 0.75]]];
                    [[[0; 1]]; [[0.25; 0.5]]; [[1; 1]]]]
    = Some resized_imgs
    /\ shape4 2 3 1 2 resized_imgs
    /\ unit_range4 resized_imgs.
Proof.
  refine (proj2 (degrade_keeps_shape_and_range
                   (fun _ => [(0, 0); (3, -1)])
                   [[[[0.5; 0.25]]; [[1; 0]]; [[0; 0.75]]];
                    [[[0; 1]]; [[0.25; 0.5]]; [[1; 1]]]]
                   2 1 2 _ _ _ _ _) _).
  - repeat (split || constructor).
  - lia.
  - lia.
  - unit_range_tac.
  - reflexivity.
  - lia.
Defined.

(** On one image the training-mode network raises before any image is
    degraded. *)
Example degrade_train2_one_image :
  degrade_train2 (fun _ => [(0, 0)])
                 [[[[0.5; 0.25]]; [[1; 0]]; [[0; 0.75]]]]
  = None.
Proof. reflexivity. Qed.

Lemma length_concat_uniform {A : Type} (n m : nat) (l : list (list A)) :
  length l = n -> Forall (fun x => length x = m) l ->
  length (concat l) = (n * m)%nat.
Proof.
  intros <- Hall. induction Hall as [|x l Hx _ IH]; [reflexivity|].
  cbn [concat length]. rewrite length_app, IH, Hx. lia.
Qed.

Lemma log_scale_nonneg (c : R) : 0 <= log_scale c.
Proof.
  unfold log_scale. pose proof (Rabs_pos c) as Hc.
  assert (Hln2 : 0 < ln 2) by (rewrite <- ln_1; apply ln_increasing; lra).
  apply Rmult_le_pos; [|apply Rlt_le, Rinv_0_lt_compat, Hln2].
  rewrite <- ln_1. destruct Hc as [Hc|Hc].
  - apply Rlt_le, ln_increasing; lra.
  - rewrite <- Hc, Rplus_0_l. lra.
Qed.

(** X6.  For a zigzag tensor of shape (B, C, N, K) the tensor handed to
    the bit-rate estimator has one row of K features per block, B * C * N
    rows in all; every feature is non-negative, and the features of a
    coefficient and of its negation are the same. *)
Theorem estimator_features_rows (zigzag : list (list (list (list R))))
    (B C N K : nat) :
  shape4 B C N K zigzag ->
  shape2 (B * C * N) K (estimator_features zigzag)
  /\ Forall (Forall (fun v => 0 <= v)) (estimator_features zigzag)
  /\ estimator_features (map (map (map (map Ropp))) zigzag)
     = estimator_features zigzag.
Proof.
  intros [HB Himgs].
  assert (Hfeat : forall z, estimator_features z
            = map (map log_scale) (concat (map (fun img => concat img) z))).
  { intros z. unfold estimator_features. apply concat_map_map. }
  split; [|split].
  - rewrite Hfeat. apply shape2_map. split.
    + rewrite <- Nat.mul_assoc.
      apply (length_concat_uniform B (C * N)); [by rewrite length_map|].
      apply Forall_forall. intros blocks Hin.
      apply list_elem_of_In, in_map_iff in Hin.
      destruct Hin as [img [<- Himg]]. apply list_elem_of_In in Himg.
      rewrite Forall_forall in Himgs. destruct (Himgs _ Himg) as [HC Hch].
      apply (length_concat_uniform C N); [exact HC|].
      eapply Forall_impl; [exact Hch|]. by intros ? [? _].
    + apply Forall_forall. intros row Hin.
      apply list_elem_of_In, in_concat in Hin as [blocks [Hblocks Hrow]].
      apply in_map_iff in Hblocks.
      destruct Hblocks as [img [<- Himg]]. apply list_elem_of_In in Himg.
      apply in_concat in Hrow as [ch [Hch Hrow]].
      apply list_elem_of_In in Hch, Hrow.
      rewrite Forall_forall in Himgs. destruct (Himgs _ Himg) as [_ Hchs].
      rewrite Forall_forall in Hchs. destruct (Hchs _ Hch) as [_ Hrows].
      rewrite Forall_forall in Hrows. by apply Hrows.
  - rewrite Hfeat.
    apply Forall_forall. intros row Hin.
    apply list_elem_of_In, in_map_iff in Hin. destruct Hin as [r [<- _]].
    apply Forall_forall. intros v Hv.
    apply list_elem_of_In, in_map_iff in Hv. destruct Hv as [c [<- _]].
    apply log_scale_nonneg.
  - rewrite !Hfeat. rewrite map_map.
    rewrite (map_ext (fun img => concat (map (map (map Ropp)) img))
                     (fun img => map (map Ropp) (concat img)))
      by (intros img; apply concat_map_map).
    rewrite <- (map_map (fun img => concat img) (map (map Ropp))).
    rewrite concat_map_map, map_map.
    apply map_ext. intros row. rewrite map_map.
    apply map_ext. intros c. unfold log_scale. by rewrite Rabs_Ropp.
Qed.

Lemma estimator_features_rows_witness :
  shape2 (2 * 1 * 1) 2 (estimator_features [[[[3; 0]]]; [[[-1; 1]]]])
  /\ Forall (Forall (fun v => 0 <= v))
            (estimator_features [[[[3; 0]]]; [[[-1; 1]]]])
  /\ estimator_features (map (map (map (map Ropp))) [[[[3; 0]]]; [[[-1; 1]]]])
     = estimator_features [[[[3; 0]]]; [[[-1; 1]]]].
Proof.
  apply (estimator_features_rows [[[[3; 0]]]; [[[-1; 1]]]] 2 1 1 2).
  repeat (split || constructor).
Defined.

(** ** The state after a step *)

Section StepStates.
Context {V : Type} `{Arith V} {ostate batch : Type}.
Variable cfg : config.
Variable E : @environment V ostate batch.

Implicit Types (st : @train_state V ostate) (ps : list (@param V)).

Ltac split_scrutinee Hm :=
  match type of Hm with
  | context [match ?x with _ => _ end] =>
      lazymatch x with
      | context [match _ with _ => _ end] => fail
      | _ => destruct x eqn:?
      end
  end.

Ltac run_op Hm :=
  unfold mbind, M_bind, mret, M_ret, get, put, emit, raise in Hm;
  cbn in Hm; repeat (split_scrutinee Hm; cbn in Hm); simplify_eq.

Ltac by_record :=
  try reflexivity;
  repeat match goal with
         | x : train_state |- _ => destruct x
         end;
  reflexivity.

Lemma warmup_state (ni : Z) st (a : unit) st' (evs : list event) :
  warmup cfg E ni st = Some (a, st', evs) ->
  st' = TrainState
          (params st) (last_opt_step st) (accumulate_at cfg E ni st)
          (scaler st)
          (if (ni <=? nw cfg)%Z then warmup_lr E ni (opt_state st)
           else opt_state st).
Proof.
  unfold warmup, accumulate_at. intros Hm. run_op Hm; by_record.
Qed.

Lemma backward_state (l : loss_id) (scaled retain : bool) (b : batch)
    st (a : unit) st' (evs : list event) :
  backward cfg E l scaled retain b st = Some (a, st', evs) ->
  st' = TrainState
          (autograd_backward E l
             (if scaled && amp cfg then Some (gs_scale (scaler st)) else None)
             b (params st))
          (last_opt_step st) (accumulate st) (scaler st) (opt_state st).
Proof. unfold backward. intros Hm. run_op Hm; reflexivity. Qed.

Lemma scaler_unscale_state (o : optimizer_id) st (a : unit) st'
    (evs : list event) :
  scaler_unscale_ cfg o st = Some (a, st', evs) ->
  st' = TrainState
          (if amp cfg
           then map_group_grads o
                  (fun g => mul g (div (of_int 1) (gs_scale (scaler st))))
                  (params st)
           else params st)
          (last_opt_step st) (accumulate st)
          (if amp cfg then set_stage o UNSCALED (scaler st) else scaler st)
          (opt_state st).
Proof.
  unfold scaler_unscale_. intros Hm. run_op Hm; by_record.
Qed.

Lemma clip_grad_norm_state (o : optimizer_id) st (a : unit) st'
    (evs : list event) :
  clip_grad_norm_ E o st = Some (a, st', evs) ->
  exists c : V,
    st' = TrainState
            (map_group_grads o (fun g => mul g c) (params st))
            (last_opt_step st) (accumulate st) (scaler st) (opt_state st).
Proof. unfold clip_grad_norm_. intros Hm. run_op Hm. by eexists. Qed.

Lemma opt_step_state (o : optimizer_id) st (a : unit) st' (evs : list event) :
  opt_step E o st = Some (a, st', evs) ->
  st' = TrainState
          (params (optimizer_step E o st))
          (last_opt_step st) (accumulate st) (scaler st)
          (opt_advance E o (opt_state st) (params st)).
Proof. unfold opt_step. intros Hm. run_op Hm; reflexivity. Qed.

(** [scaler.step(o)] unscales the gradients of [o] itself when the scaler
    is enabled and [unscale_(o)] did not run since the last [update]. *)
Lemma scaler_step_state (o : optimizer_id) st (a : unit) st'
    (evs : list event) :
  scaler_step cfg E o st = Some (a, st', evs) ->
  st' = TrainState
          (params
             (optimizer_step E o
                (match amp cfg, gs_stage (scaler st) o with
                 | true, READY => unscale_grads o st
                 | _, _ => st
                 end)))
          (last_opt_step st) (accumulate st)
          (if amp cfg
           then set_stage o STEPPED
                  (match gs_stage (scaler st) o with
                   | READY => set_stage o UNSCALED (scaler st)
                   | _ => scaler st
                   end)
           else scaler st)
          (opt_advance E o (opt_state st)
             (match amp cfg, gs_stage (scaler st) o with
              | true, READY => params (unscale_grads o st)
              | _, _ => params st
              end)).
Proof.
  unfold scaler_step. intros Hm. run_op Hm;
    repeat match goal with
           | Hs : gs_stage _ _ = _ |- _ => rewrite Hs; clear Hs
           end;
    cbn; by_record.
Qed.

Lemma scaler_update_state st (a : unit) st' (evs : list event) :
  scaler_update cfg E st = Some (a, st', evs) ->
  st' = TrainState
          (params st) (last_opt_step st) (accumulate st)
          (if amp cfg
           then GradScaler (next_scale E (gs_scale (scaler st)))
                           (fun _ => READY)
           else scaler st)
          (opt_state st).
Proof.
  unfold scaler_update. intros Hm. run_op Hm; by_record.
Qed.

Lemma zero_grad_state (o : optimizer_id) st (a : unit) st'
    (evs : list event) :
  zero_grad o st = Some (a, st', evs) ->
  st' = TrainState
          (map (fun p => if in_group o (p_owner p) then set_grad None p
                         else p) (params st))
          (last_opt_step st) (accumulate st) (scaler st) (opt_state st).
Proof. unfold zero_grad. intros Hm. run_op Hm; reflexivity. Qed.

Lemma ema_update_state st (a : unit) st' (evs : list event) :
  ema_update cfg st = Some (a, st', evs) -> st' = st.
Proof.
  unfold ema_update. intros Hm. destruct (_ || _); run_op Hm; reflexivity.
Qed.

Ltac inv_state :=
  repeat match goal with
  | Hm : (_ ≫= _) _ = Some _ |- _ =>
      apply bind_Some in Hm;
      let H1 := fresh "Hm" in
      destruct Hm as (? & ? & ? & ? & H1 & Hm & ->); cbv beta zeta in Hm
  | Hm : get _ = Some _ |- _ => unfold get in Hm; simplify_eq
  | Hm : put _ _ = Some _ |- _ => unfold put in Hm; simplify_eq
  | Hm : mret _ _ = Some _ |- _ => unfold mret, M_ret in Hm; simplify_eq
  | Hm : raise _ = Some _ |- _ => discriminate Hm
  | Hm : warmup _ _ _ _ = Some _ |- _ => apply warmup_state in Hm
  | Hm : backward _ _ _ _ _ _ _ = Some _ |- _ => apply backward_state in Hm
  | Hm : scaler_unscale_ _ _ _ = Some _ |- _ =>
      apply scaler_unscale_state in Hm
  | Hm : clip_grad_norm_ _ _ _ = Some _ |- _ =>
      apply clip_grad_norm_state in Hm; destruct Hm as [? Hm]
  | Hm : opt_step _ _ _ = Some _ |- _ => apply opt_step_state in Hm
  | Hm : scaler_step _ _ _ _ = Some _ |- _ => apply scaler_step_state in Hm
  | Hm : scaler_update _ _ _ = Some _ |- _ => apply scaler_update_state in Hm
  | Hm : zero_grad _ _ = Some _ |- _ => apply zero_grad_state in Hm
  | Hm : ema_update _ _ = Some _ |- _ => apply ema_update_state in Hm
  end.

Ltac decide_optimizers :=
  change (bool_decide (optimizer = optimizer)) with true in *;
  change (bool_decide (ctrl_optimizer = ctrl_optimizer)) with true in *;
  change (bool_decide (optimizer = ctrl_optimizer)) with false in *;
  change (bool_decide (ctrl_optimizer = optimizer)) with false in *;
  cbn match in *.

Ltac project_states :=
  try match goal with
      | Ha : amp cfg = _ |- _ => rewrite !Ha in *
      end;
  cbn match in *;
  repeat match goal with
         | Heq : ?x = TrainState _ _ _ _ _ |- _ =>
             is_var x; subst x;
             cbn [params last_opt_step accumulate scaler opt_state
                  with_last_opt_step gs_stage gs_scale set_stage] in *;
             decide_optimizers
         end.

Lemma no_stored_grads_zero (o : optimizer_id) ps :
  no_stored_grads o
    (map (fun p => if in_group o (p_owner p) then set_grad None p else p) ps).
Proof.
  apply Forall_forall. intros q Hin.
  apply list_elem_of_In, in_map_iff in Hin. destruct Hin as [p [<- _]].
  destruct (in_group o (p_owner p)) eqn:Hg; cbn; [done|congruence].
Qed.

Lemma no_stored_grads_imap (o : optimizer_id)
    (f : nat -> @param V -> @param V) ps :
  (forall i p, p_owner (f i p) = p_owner p
               /\ (p_grad p = None -> p_grad (f i p) = None)) ->
  no_stored_grads o ps -> no_stored_grads o (imap f ps).
Proof.
  intros Hf Hps. apply Forall_lookup. intros i q Hq.
  rewrite list_lookup_imap in Hq.
  destruct (ps !! i) as [p|] eqn:Hp; [|discriminate]. injection Hq as <-.
  unfold no_stored_grads in Hps. rewrite Forall_lookup in Hps.
  destruct (Hf i p) as [Ho Hg]. rewrite Ho. intros Hin.
  apply Hg, (Hps _ _ Hp Hin).
Qed.

Lemma no_stored_grads_map (o : optimizer_id) (f : @param V -> @param V) ps :
  (forall p, p_owner (f p) = p_owner p
             /\ (p_grad p = None -> p_grad (f p) = None)) ->
  no_stored_grads o ps -> no_stored_grads o (map f ps).
Proof.
  intros Hf. replace (map f ps) with (imap (fun _ : nat => f) ps).
  - apply no_stored_grads_imap. intros _. apply Hf.
  - apply (imap_const f ps).
Qed.

Lemma no_stored_grads_zero_other (o o' : optimizer_id) ps :
  no_stored_grads o ps ->
  no_stored_grads o
    (map (fun p => if in_group o' (p_owner p) then set_grad None p else p) ps).
Proof.
  apply no_stored_grads_map. intros p.
  by destruct (in_group o' (p_owner p)).
Qed.

Lemma no_stored_grads_group (o o' : optimizer_id) (f : V -> V) ps :
  no_stored_grads o ps -> no_stored_grads o (map_group_grads o' f ps).
Proof.
  apply no_stored_grads_map. intros p.
  destruct (in_group o' (p_owner p)); cbn; [|done].
  split; [done|]. by intros ->.
Qed.

Lemma no_stored_grads_optimizer_step (o o' : optimizer_id) st :
  no_stored_grads o (params st) ->
  no_stored_grads o (params (optimizer_step E o' st)).
Proof.
  cbn. apply no_stored_grads_imap. intros i p.
  destruct (in_group o' (p_owner p)); [|done].
  destruct (p_grad p) eqn:Hg; cbn; by rewrite ?Hg.
Qed.

Ltac no_grads :=
  cbn [params unscale_grads with_params with_scaler];
  repeat first
    [ apply no_stored_grads_zero
    | apply no_stored_grads_zero_other
    | apply no_stored_grads_group
    | apply no_stored_grads_optimizer_step;
      cbn [params unscale_grads with_params with_scaler] ].

Lemma steps_now_reached (ni : Z) st ps (f : @grad_scaler V) (os : ostate) :
  accumulation_reached ni
    (TrainState ps (last_opt_step st) (accumulate_at cfg E ni st) f os)
  = steps_now cfg E ni st.
Proof. reflexivity. Qed.

Lemma train2_step_after (ni : Z) (b : batch) st (l : step_losses) st'
    (evs : list event) :
  train2_step cfg E ni b st = Some (l, st', evs) ->
  accumulate st' = accumulate_at cfg E ni st
  /\ (steps_now cfg E ni st = true ->
      last_opt_step st' = ni
      /\ no_stored_grads optimizer (params st')
      /\ no_stored_grads ctrl_optimizer (params st')
      /\ gs_scale (scaler st')
         = if amp cfg
           then next_scale E (next_scale E (gs_scale (scaler st)))
           else gs_scale (scaler st))
  /\ (steps_now cfg E ni st = false ->
      last_opt_step st' = last_opt_step st /\ scaler st' = scaler st).
Proof.
  unfold train2_step. intros Hm. inv_state.
  destruct (amp cfg) eqn:Hamp;
    (destruct (accumulation_reached ni _) eqn:Hacc; inv_state;
     project_states;
     match type of Hacc with
     | _ = ?v => change (steps_now cfg E ni st = v) in Hacc
     end; rewrite Hacc;
     (split; [reflexivity|]); split; intros Hnow; try discriminate Hnow;
     repeat split; no_grads).
Qed.

Lemma train_step_after (ni : Z) (b : batch) st (l : step_losses) st'
    (evs : list event) :
  train_step cfg E ni b st = Some (l, st', evs) ->
  accumulate st' = accumulate_at cfg E ni st
  /\ (steps_now cfg E ni st = true ->
      last_opt_step st' = ni
      /\ no_stored_grads optimizer (params st')
      /\ no_stored_grads ctrl_optimizer (params st')
      /\ gs_scale (scaler st')
         = if amp cfg then next_scale E (gs_scale (scaler st))
           else gs_scale (scaler st))
  /\ (steps_now cfg E ni st = false ->
      last_opt_step st' = last_opt_step st /\ scaler st' = scaler st).
Proof.
  unfold train_step. intros Hm. inv_state.
  destruct (map _ (map _ _)) as [|t [|t' ts]]; inv_state.
  destruct (amp cfg) eqn:Hamp;
    (destruct (accumulation_reached ni _) eqn:Hacc; inv_state;
     project_states;
     match type of Hacc with
     | _ = ?v => change (steps_now cfg E ni st = v) in Hacc
     end; rewrite Hacc;
     (split; [reflexivity|]); split; intros Hnow; try discriminate Hnow;
     repeat split; no_grads).
Qed.

(** *** Which gradient an optimizer steps on *)

Lemma train2_step_updates (ni : Z) (b : batch) st (l : step_losses) st'
    (evs : list event) :
  train2_step cfg E ni b st = Some (l, st', evs) ->
  amp cfg = true ->
  steps_now cfg E ni st = true ->
  exists (c_ctrl c_det : V) (os_ctrl os_det : ostate),
    forall (i : nat) (p : param) (g : V),
      params st !! i = Some p ->
      p_requires_grad p = true ->
      p_grad p = None ->
      gradient E TotalLoss (params st) b i = Some g ->
      exists p' : param,
        params st' !! i = Some p'
        /\ match p_owner p with
           | Detector =>
               p_data p'
               = opt_update E optimizer os_det i (p_data p)
                   (mul (mul (mul (mul (gs_scale (scaler st)) g)
                                  (div (of_int 1) (gs_scale (scaler st))))
                             c_det)
                        (div (of_int 1)
                             (next_scale E (gs_scale (scaler st)))))
           | ControlBackbone | ControlHead =>
               p_data p'
               = opt_update E ctrl_optimizer os_ctrl i (p_data p)
                   (mul (mul (mul (gs_scale (scaler st)) g)
                             (div (of_int 1) (gs_scale (scaler st))))
                        c_ctrl)
           | BitEstimator => p_data p' = p_data p
           end.
Proof.
  unfold train2_step. intros Hm Hamp Hnow. inv_state.
  destruct (accumulation_reached ni _) eqn:Hacc; inv_state;
    project_states;
    match type of Hacc with
    | _ = ?v => change (steps_now cfg E ni st = v) in Hacc
    end; [|congruence].
  do 4 eexists. intros i p g Hp Hrg Hgrad Hg.
  cbn [params optimizer_step unscale_grads with_params with_opt_state
       with_scaler opt_state scaler gs_scale andb].
  unfold map_group_grads.
  rewrite !list_lookup_fmap, list_lookup_imap, !list_lookup_fmap,
    list_lookup_imap, !list_lookup_fmap.
  rewrite (autograd_backward_lookup E TotalLoss _ b _ i p g Hp Hrg Hg).
  destruct p as [name w d rg gr]. cbn in Hrg, Hgrad. subst rg gr.
  destruct w; cbn; (eexists; split; [apply eq_refl|]); cbn; apply eq_refl.
Qed.

Lemma train_step_updates (ni : Z) (b : batch) st (l : step_losses) st'
    (evs : list event) :
  train_step cfg E ni b st = Some (l, st', evs) ->
  amp cfg = true ->
  steps_now cfg E ni st = true ->
  exists (c_det : V) (os_ctrl os_det : ostate),
    forall (i : nat) (p : param) (g_total g_det : V),
      params st !! i = Some p ->
      p_requires_grad p = true ->
      p_grad p = None ->
      gradient E TotalLoss (params st) b i = Some g_total ->
      gradient E DetectionLoss
        (autograd_backward E TotalLoss None b (params st)) b i
      = Some g_det ->
      exists p' : param,
        params st' !! i = Some p'
        /\ match p_owner p with
           | Detector =>
               p_data p'
               = opt_update E optimizer os_det i (p_data p)
                   (mul (mul (add g_total
                                  (mul (gs_scale (scaler st)) g_det))
                             (div (of_int 1) (gs_scale (scaler st))))
                        c_det)
           | ControlBackbone | ControlHead =>
               p_data p'
               = opt_update E ctrl_optimizer os_ctrl i (p_data p)
                   (add g_total (mul (gs_scale (scaler st)) g_det))
           | BitEstimator => p_data p' = p_data p
           end.
Proof.
  unfold train_step. intros Hm Hamp Hnow. inv_state.
  destruct (map _ (map _ _)) as [|t [|t' ts]]; inv_state.
  destruct (accumulation_reached ni _) eqn:Hacc; inv_state;
    project_states;
    match type of Hacc with
    | _ = ?v => change (steps_now cfg E ni st = v) in Hacc
    end; [|congruence].
  do 3 eexists. intros i p g_total g_det Hp Hrg Hgrad Hg1 Hg2.
  cbn [params optimizer_step unscale_grads with_params with_opt_state
       with_scaler opt_state scaler gs_scale andb].
  unfold map_group_grads.
  pose proof (autograd_backward_lookup E TotalLoss None b _ i p g_total
                Hp Hrg Hg1) as Hp1.
  pose proof (autograd_backward_lookup E DetectionLoss
                (Some (gs_scale (scaler st))) b _ i _ g_det
                Hp1 Hrg Hg2) as Hp2.
  rewrite !list_lookup_fmap, list_lookup_imap, !list_lookup_fmap,
    list_lookup_imap, !list_lookup_fmap.
  rewrite Hp2.
  destruct p as [name w d rg gr]. cbn in Hrg, Hgrad. subst rg gr.
  destruct w; cbn; (eexists; split; [apply eq_refl|]); cbn; apply eq_refl.
Qed.

(** *** A step that does not reach the optimizers *)

Lemma train2_step_accumulating (ni : Z) (b : batch) st (l : step_losses) st'
    (evs : list event) :
  train2_step cfg E ni b st = Some (l, st', evs) ->
  steps_now cfg E ni st = false ->
  params st'
  = autograd_backward E TotalLoss
      (if amp cfg then Some (gs_scale (scaler st)) else None) b (params st)
  /\ last_opt_step st' = last_opt_step st
  /\ scaler st' = scaler st.
Proof.
  unfold train2_step. intros Hm Hnow. inv_state.
  destruct (accumulation_reached ni _) eqn:Hacc; inv_state;
    project_states;
    match type of Hacc with
    | _ = ?v => change (steps_now cfg E ni st = v) in Hacc
    end; [congruence|].
  by repeat split.
Qed.

Lemma train_step_accumulating (ni : Z) (b : batch) st (l : step_losses) st'
    (evs : list event) :
  train_step cfg E ni b st = Some (l, st', evs) ->
  steps_now cfg E ni st = false ->
  params st'
  = autograd_backward E DetectionLoss
      (if amp cfg then Some (gs_scale (scaler st)) else None) b
      (autograd_backward E TotalLoss None b (params st))
  /\ last_opt_step st' = last_opt_step st
  /\ scaler st' = scaler st.
Proof.
  unfold train_step. intros Hm Hnow. inv_state.
  destruct (map _ (map _ _)) as [|t [|t' ts]]; inv_state.
  destruct (accumulation_reached ni _) eqn:Hacc; inv_state;
    project_states;
    match type of Hacc with
    | _ = ?v => change (steps_now cfg E ni st = v) in Hacc
    end; [congruence|].
  by repeat split.
Qed.

(** *** The downscaling variant on one batch *)

Ltac returns_step :=
  first
    [ apply returns_warmup | apply returns_backward | apply returns_clip
    | apply returns_zero_grad | apply returns_opt_step
    | apply returns_ema_update | apply returns_unscale_det
    | apply returns_unscale_ctrl | apply returns_step_ctrl
    | apply returns_step_det_unscaled | apply returns_step_det_ready
    | apply returns_update | apply returns_set_last_opt_step
    | apply returns_ret ].

Ltac returns_chain :=
  repeat first
    [ returns_step
    | eapply returns_bind; [returns_step|intros _] ].

Lemma train_step_returns_one (ni : Z) (b : batch) st (d : V) :
  stage_is cfg READY READY st ->
  downscaling_network E (params st) b = [d] ->
  exists (l : step_losses) st' (evs : list event),
    train_step cfg E ni b st = Some (l, st', evs).
Proof.
  intros Hst Hd.
  assert (Hrun : returns (fun s => s = st) (train_step cfg E ni b)
                         (@stage_is V ostate cfg READY READY)).
  { unfold train_step.
    eapply (returns_bind _ (fun s => @stage_is V ostate cfg READY READY s
                                     /\ params s = params st)).
    { intros s ->. unfold warmup, mbind, M_bind, get, put, mret, M_ret.
      destruct (ni <=? nw cfg)%Z; eexists _, _, _;
        (split; [reflexivity|]); by split. }
    intros _. apply returns_get. intros s [Hs Hps]. cbv zeta.
    rewrite Hps, Hd. cbn [map].
    eapply returns_weaken; [intros ? ->; exact Hs|].
    eapply returns_bind; [apply returns_backward|intros _].
    eapply returns_bind; [apply returns_backward|intros _].
    apply returns_get. intros s0 Hs0. cbv zeta.
    eapply returns_weaken; [intros ? ->; exact Hs0|].
    eapply returns_bind; [|intros _; apply returns_ret].
    destruct (accumulation_reached ni s0); returns_chain. }
  destruct (Hrun st eq_refl) as (l & st' & evs & Hm & _).
  by exists l, st', evs.
Qed.

Lemma train_step_raises (ni : Z) (b : batch) st :
  length (downscaling_network E (params st) b) <> 1%nat ->
  train_step cfg E ni b st = None.
Proof.
  intros Hlen.
  destruct (train_step cfg E ni b st) as [[[l st'] evs]|] eqn:Hm;
    [|reflexivity].
  apply train_step_spec in Hm. destruct Hm as ((d & Hd & _) & _).
  rewrite Hd in Hlen. cbn in Hlen. lia.
Qed.

Lemma train2_batch_step_one (batch_size : batch -> nat) (ni : Z) (b : batch)
    st :
  batch_size b = 1%nat ->
  train2_batch_step cfg E batch_size ni b st = None.
Proof.
  intros Hb. unfold train2_batch_step.
  by rewrite verify_batch_size_rows, Hb.
Qed.

Lemma train2_batch_step_many (batch_size : batch -> nat) (ni : Z) (b : batch)
    st :
  (2 <= batch_size b)%nat ->
  train2_batch_step cfg E batch_size ni b st = train2_step cfg E ni b st.
Proof.
  intros Hb. unfold train2_batch_step.
  rewrite verify_batch_size_rows, bool_decide_eq_false_2 by lia.
  reflexivity.
Qed.

(** X7.  A step that reaches the optimizers, taken between two scaler
    updates.  In the luminance/blur variant it raises on a batch of one
    image (the forward pass of the control network in training mode) and
    returns on two or more; in the downscaling variant it returns on a batch
    for which the control network yields one factor.  Where it returns,
    [last_opt_step] is the batch number afterwards, no parameter of the
    detector or of the control network holds a gradient, and the loss scale
    has been updated twice in the luminance/blur variant and once in the
    downscaling variant. *)
Theorem optimizing_step_clears_gradients (batch_size : batch -> nat)
    (ni : Z) (b : batch) st :
  stage_is cfg READY READY st ->
  steps_now cfg E ni st = true ->
  (batch_size b = 1%nat ->
   train2_batch_step cfg E batch_size ni b st = None)
  /\ ((2 <= batch_size b)%nat ->
      exists (l : step_losses) st' (evs : list event),
        train2_batch_step cfg E batch_size ni b st = Some (l, st', evs)
        /\ last_opt_step st' = ni
        /\ accumulate st' = accumulate_at cfg E ni st
        /\ no_stored_grads optimizer (params st')
        /\ no_stored_grads ctrl_optimizer (params st')
        /\ gs_scale (scaler st')
           = if amp cfg
             then next_scale E (next_scale E (gs_scale (scaler st)))
             else gs_scale (scaler st))
  /\ (forall d : V,
        downscaling_network E (params st) b = [d] ->
        exists (l : step_losses) st' (evs : list event),
          train_step cfg E ni b st = Some (l, st', evs)
          /\ last_opt_step st' = ni
          /\ accumulate st' = accumulate_at cfg E ni st
          /\ no_stored_grads optimizer (params st')
          /\ no_stored_grads ctrl_optimizer (params st')
          /\ gs_scale (scaler st')
             = if amp cfg then next_scale E (gs_scale (scaler st))
               else gs_scale (scaler st)).
Proof.
  intros Hst Hnow. split; [apply train2_batch_step_one|]. split.
  - intros Hb. rewrite (train2_batch_step_many batch_size ni b st Hb).
    destruct (train2_step_returns cfg E ni b st Hst)
      as (l & st' & evs & Hm & _).
    exists l, st', evs. split; [exact Hm|].
    destruct (train2_step_after ni b st l st' evs Hm) as (Ha & Hs & _).
    destruct (Hs Hnow) as (? & ? & ? & ?). by repeat split.
  - intros d Hd.
    destruct (train_step_returns_one ni b st d Hst Hd)
      as (l & st' & evs & Hm).
    exists l, st', evs. split; [exact Hm|].
    destruct (train_step_after ni b st l st' evs Hm) as (Ha & Hs & _).
    destruct (Hs Hnow) as (? & ? & ? & ?). by repeat split.
Qed.

(** X8.  A step that does not reach the optimizers only accumulates.  In
    the luminance/blur variant it raises on a batch of one image and
    returns on two or more; in the downscaling variant it returns on a batch
    for which the control network yields one factor.  Where it returns, the
    gradients of its backward passes have been added to the stored ones
    (the scaled combined loss in the luminance/blur variant; the unscaled
    combined loss, then the scaled detection loss in the downscaling
    variant), and [last_opt_step] and the gradient scaler are as they
    were. *)
Theorem accumulating_step_keeps_gradients (batch_size : batch -> nat)
    (ni : Z) (b : batch) st :
  stage_is cfg READY READY st ->
  steps_now cfg E ni st = false ->
  (batch_size b = 1%nat ->
   train2_batch_step cfg E batch_size ni b st = None)
  /\ ((2 <= batch_size b)%nat ->
      exists (l : step_losses) st' (evs : list event),
        train2_batch_step cfg E batch_size ni b st = Some (l, st', evs)
        /\ params st'
           = autograd_backward E TotalLoss
               (if amp cfg then Some (gs_scale (scaler st)) else None)
               b (params st)
        /\ last_opt_step st' = last_opt_step st
        /\ scaler st' = scaler st)
  /\ (forall d : V,
        downscaling_network E (params st) b = [d] ->
        exists (l : step_losses) st' (evs : list event),
          train_step cfg E ni b st = Some (l, st', evs)
          /\ params st'
             = autograd_backward E DetectionLoss
                 (if amp cfg then Some (gs_scale (scaler st)) else None) b
                 (autograd_backward E TotalLoss None b (params st))
          /\ last_opt_step st' = last_opt_step st
          /\ scaler st' = scaler st).
Proof.
  intros Hst Hnow. split; [apply train2_batch_step_one|]. split.
  - intros Hb. rewrite (train2_batch_step_many batch_size ni b st Hb).
    destruct (train2_step_returns cfg E ni b st Hst)
      as (l & st' & evs & Hm & _).
    exists l, st', evs. split; [exact Hm|].
    exact (train2_step_accumulating ni b st l st' evs Hm Hnow).
  - intros d Hd.
    destruct (train_step_returns_one ni b st d Hst Hd)
      as (l & st' & evs & Hm).
    exists l, st', evs. split; [exact Hm|].
    exact (train_step_accumulating ni b st l st' evs Hm Hnow).
Qed.

(** X9.  In an optimizing step of the luminance/blur variant with the
    gradient scaler enabled, [scaler.update()] runs between the two
    [scaler.step] calls, so [scaler.step(optimizer)] unscales the
    detector's gradients a second time, by the updated scale: a detector
    parameter that held no gradient is updated with
    [scale * g / scale * clip / next_scale], a parameter of the control
    network with [scale * g / scale * clip]. *)
Theorem train2_detector_gradient_unscaled_twice (ni : Z) (b : batch) st :
  stage_is cfg READY READY st ->
  amp cfg = true ->
  steps_now cfg E ni st = true ->
  exists (l : step_losses) st' (evs : list event)
         (c_ctrl c_det : V) (os_ctrl os_det : ostate),
    train2_step cfg E ni b st = Some (l, st', evs)
    /\ forall (i : nat) (p : param) (g : V),
         params st !! i = Some p ->
         p_requires_grad p = true ->
         p_grad p = None ->
         gradient E TotalLoss (params st) b i = Some g ->
         exists p' : param,
           params st' !! i = Some p'
           /\ match p_owner p with
              | Detector =>
                  p_data p'
                  = opt_update E optimizer os_det i (p_data p)
                      (mul (mul (mul (mul (gs_scale (scaler st)) g)
                                     (div (of_int 1) (gs_scale (scaler st))))
                                c_det)
                           (div (of_int 1)
                                (next_scale E (gs_scale (scaler st)))))
              | ControlBackbone | ControlHead =>
                  p_data p'
                  = opt_update E ctrl_optimizer os_ctrl i (p_data p)
                      (mul (mul (mul (gs_scale (scaler st)) g)
                                (div (of_int 1) (gs_scale (scaler st))))
                           c_ctrl)
              | BitEstimator => p_data p' = p_data p
              end.
Proof.
  intros Hst Hamp Hnow.
  destruct (train2_step_returns cfg E ni b st Hst)
    as (l & st' & evs & Hm & _).
  destruct (train2_step_updates ni b st l st' evs Hm Hamp Hnow)
    as (c_ctrl & c_det & os_ctrl & os_det & Hup).
  by exists l, st', evs, c_ctrl, c_det, os_ctrl, os_det.
Qed.

(** X10.  In an optimizing step of the downscaling variant with the
    gradient scaler enabled, both backward passes add into the same
    gradients, the first unscaled and the second scaled: the control
    optimizer, stepped directly and not through the scaler, updates a
    parameter that held no gradient with [g_total + scale * g_det], neither
    unscaled nor clipped; the detector is updated with
    [(g_total + scale * g_det) / scale * clip]. *)
Theorem train_control_gradient_not_unscaled (ni : Z) (b : batch) st (d : V) :
  stage_is cfg READY READY st ->
  downscaling_network E (params st) b = [d] ->
  amp cfg = true ->
  steps_now cfg E ni st = true ->
  exists (l : step_losses) st' (evs : list event)
         (c_det : V) (os_ctrl os_det : ostate),
    train_step cfg E ni b st = Some (l, st', evs)
    /\ forall (i : nat) (p : param) (g_total g_det : V),
         params st !! i = Some p ->
         p_requires_grad p = true ->
         p_grad p = None ->
         gradient E TotalLoss (params st) b i = Some g_total ->
         gradient E DetectionLoss
           (autograd_backward E TotalLoss None b (params st)) b i
         = Some g_det ->
         exists p' : param,
           params st' !! i = Some p'
           /\ match p_owner p with
              | Detector =>
                  p_data p'
                  = opt_update E optimizer os_det i (p_data p)
                      (mul (mul (add g_total
                                     (mul (gs_scale (scaler st)) g_det))
                                (div (of_int 1) (gs_scale (scaler st))))
                           c_det)
              | ControlBackbone | ControlHead =>
                  p_data p'
                  = opt_update E ctrl_optimizer os_ctrl i (p_data p)
                      (add g_total (mul (gs_scale (scaler st)) g_det))
              | BitEstimator => p_data p' = p_data p
              end.
Proof.
  intros Hst Hd Hamp Hnow.
  destruct (train_step_returns_one ni b st d Hst Hd)
    as (l & st' & evs & Hm).
  destruct (train_step_updates ni b st l st' evs Hm Hamp Hnow)
    as (c_det & os_ctrl & os_det & Hup).
  by exists l, st', evs, c_det, os_ctrl, os_det.
Qed.

(** X11.  Between two scaler updates the step of the downscaling variant
    returns exactly on the batches for which the control network yields one
    factor, that is on batches of one image: with any other number the
    combined loss has not one element and its [backward] raises. *)
Theorem train_step_returns_iff_one_factor (ni : Z) (b : batch) st :
  stage_is cfg READY READY st ->
  is_Some (train_step cfg E ni b st)
  <-> length (downscaling_network E (params st) b) = 1%nat.
Proof.
  intros Hst. split.
  - intros [[[l st'] evs] Hm].
    apply train_step_spec in Hm. destruct Hm as ((d & Hd & _) & _).
    by rewrite Hd.
  - intros Hlen.
    destruct (downscaling_network E (params st) b) as [|d [|d' ds]] eqn:Hd;
      try discriminate Hlen.
    destruct (train_step_returns_one ni b st d Hst Hd)
      as (l & st' & evs & Hm).
    rewrite Hm. by eexists.
Qed.
End StepStates.

Lemma stage_is_initial {V ostate : Type} (cfg : config) ps (a : Z) (s : V)
    (os : ostate) :
  stage_is cfg READY READY (initial_state ps a s os).
Proof. intros _. by split. Qed.

Lemma optimizing_step_clears_gradients_witness :
  exists (l : step_losses) (st' : train_state) (evs : list event),
    train2_batch_step cfg0 env0 (fun _ => 2%nat) 0 tt train2_state0
    = Some (l, st', evs)
    /\ last_opt_step st' = 0%Z
    /\ accumulate st' = accumulate_at cfg0 env0 0 train2_state0
    /\ no_stored_grads optimizer (params st')
    /\ no_stored_grads ctrl_optimizer (params st')
    /\ gs_scale (scaler st')
       = if amp cfg0
         then next_scale env0 (next_scale env0 (gs_scale (scaler train2_state0)))
         else gs_scale (scaler train2_state0).
Proof.
  refine (proj1 (proj2 (optimizing_step_clears_gradients
                          cfg0 env0 (fun _ => 2%nat) 0 tt train2_state0
                          _ _)) _).
  - intros _. split; reflexivity.
  - reflexivity.
  - cbv beta. lia.
Defined.

Lemma accumulating_step_keeps_gradients_witness :
  exists (l : step_losses) (st' : train_state) (evs : list event),
    train2_batch_step cfg0 env0 (fun _ => 2%nat) 101 tt train2_state_mid
    = Some (l, st', evs)
    /\ params st'
       = autograd_backward env0 TotalLoss
           (if amp cfg0 then Some (gs_scale (scaler train2_state_mid))
            else None) tt (params train2_state_mid)
    /\ last_opt_step st' = last_opt_step train2_state_mid
    /\ scaler st' = scaler train2_state_mid.
Proof.
  refine (proj1 (proj2 (accumulating_step_keeps_gradients
                          cfg0 env0 (fun _ => 2%nat) 101 tt train2_state_mid
                          _ _)) _).
  - intros _. split; reflexivity.
  - reflexivity.
  - cbv beta. lia.
Defined.

Lemma train2_detector_gradient_unscaled_twice_witness :
  exists (l : step_losses) (st' : train_state) (evs : list event)
         (c_ctrl c_det : Q) (os_ctrl os_det : unit),
    train2_step cfg0 env0 0 tt train2_state0 = Some (l, st', evs)
    /\ exists p' : param,
         params st' !! 0%nat = Some p'
         /\ p_data p'
            = opt_update env0 optimizer os_det 0 1%Q
                (mul (mul (mul (mul 65536%Q 1%Q)
                               (div (of_int 1) 65536%Q))
                          c_det)
                     (div (of_int 1) (next_scale env0 65536%Q))).
Proof.
  destruct (train2_detector_gradient_unscaled_twice
              cfg0 env0 0 tt train2_state0)
    as (l & st' & evs & c_ctrl & c_det & os_ctrl & os_det & Hm & Hup).
  - intros _. split; reflexivity.
  - reflexivity.
  - reflexivity.
  - exists l, st', evs, c_ctrl, c_det, os_ctrl, os_det.
    split; [exact Hm|].
    exact (Hup 0%nat (Param "model.0.conv.weight" Detector 1%Q true None)
               1%Q eq_refl eq_refl eq_refl eq_refl).
Defined.

Lemma train_control_gradient_not_unscaled_witness :
  exists (l : step_losses) (st' : train_state) (evs : list event)
         (c_det : Q) (os_ctrl os_det : unit),
    train_step cfg0 env0 0 tt train_state0 = Some (l, st', evs)
    /\ exists p' : param,
         params st' !! 2%nat = Some p'
         /\ p_data p'
            = opt_update env0 ctrl_optimizer os_ctrl 2 3%Q
                (add 1%Q (mul 65536%Q 1%Q)).
Proof.
  destruct (train_control_gradient_not_unscaled
              cfg0 env0 0 tt train_state0 2%Q)
    as (l & st' & evs & c_det & os_ctrl & os_det & Hm & Hup).
  - intros _. split; reflexivity.
  - reflexivity.
  - reflexivity.
  - reflexivity.
  - exists l, st', evs, c_det, os_ctrl, os_det.
    split; [exact Hm|].
    exact (Hup 2%nat (Param "fc4.weight" ControlHead 3%Q true None)
               1%Q 1%Q eq_refl eq_refl eq_refl eq_refl eq_refl).
Defined.

Lemma train_step_returns_iff_one_factor_witness :
  is_Some (train_step cfg0 env0 0 tt train_state0)
  <-> length (downscaling_network env0 (params train_state0) tt) = 1%nat.
Proof.
  apply (train_step_returns_iff_one_factor cfg0 env0 0 tt train_state0).
  intros _. split; reflexivity.
Defined.



(** ** Running means and schedules *)

Lemma mean_loop_app (m : R) (i : nat) (xs ys : list R) :
  mean_loop m i (xs ++ ys) = mean_loop (mean_loop m i xs) (i + length xs) ys.
Proof.
  revert m i. induction xs as [|x xs IH]; intros m i; cbn [app mean_loop length].
  - by rewrite Nat.add_0_r.
  - rewrite IH. f_equal. lia.
Qed.

Lemma mean_loop_sum (m : R) (xs : list R) :
  xs <> [] -> mean_loop m 0 xs * INR (length xs) = sum_list xs.
Proof.
  induction xs as [|x xs IH] using rev_ind; [done|]. intros _.
  destruct xs as [|y ys].
  - cbn. unfold update_mean, sum_list. cbn. lra.
  - specialize (IH ltac:(discriminate)).
    rewrite mean_loop_app.
    rewrite (sum_list_app (y :: ys) [x]), <- IH.
    rewrite (length_app (y :: ys) [x]).
    generalize (mean_loop m 0 (y :: ys)). intros M.
    generalize (length (y :: ys)). intros n.
    cbn [mean_loop length]. rewrite Nat.add_0_l.
    unfold update_mean.
    replace (INR (n + 1)) with (INR n + 1)
      by (rewrite plus_INR; reflexivity).
    pose proof (pos_INR n) as Hpos.
    unfold sum_list. cbn [foldr]. field. lra.
Qed.

(** X17.  The running means shown on the progress bar are arithmetic
    means: after every batch of an epoch, [mloss], [mtotal_loss] and
    [mbpp_loss] hold the sum of the values of the batches so far divided by
    their number, whatever value the mean started from. *)
Theorem running_mean_is_mean (m0 : R) (xs : list R) (n : nat) :
  (1 <= n <= length xs)%nat ->
  mean_loop m0 0 (take n xs) = mean (take n xs).
Proof.
  intros Hn.
  assert (Hlen : length (take n xs) = n) by (rewrite length_take; lia).
  assert (Hne : take n xs <> []).
  { intros Hnil. rewrite Hnil in Hlen. cbn in Hlen. lia. }
  pose proof (mean_loop_sum m0 (take n xs) Hne) as Hsum.
  unfold mean. rewrite <- Hsum, Hlen.
  assert (0 < INR n) by (apply lt_0_INR; lia).
  field. lra.
Qed.

Lemma running_mean_is_mean_witness :
  mean_loop 7 0 (take 2 [3; 5; 8]) = mean (take 2 [3; 5; 8]).
Proof.
  apply (running_mean_is_mean 7 [3; 5; 8] 2). cbn. lia.
Defined.

(** X18.  The linear schedule of the detector falls from 1 at epoch 0 to
    [lrf] at [epochs] and stays between the two on the way, for
    [0 <= lrf <= 1]; the exponential schedule of the control network is 1 at
    epoch 0, positive and strictly decreasing. *)
Theorem lr_schedules (epochs lrf x y : R) (epoch : nat) :
  0 < epochs -> 0 <= lrf <= 1 -> 0 <= x <= y -> y <= epochs ->
  lf epochs lrf 0 = 1
  /\ lf epochs lrf epochs = lrf
  /\ lrf <= lf epochs lrf y <= lf epochs lrf x
  /\ lf epochs lrf x <= 1
  /\ dln_lr_lambda 0 = 1
  /\ 0 < dln_lr_lambda (S epoch) < dln_lr_lambda epoch.
Proof.
  intros He Hlrf Hxy Hy. unfold lf, dln_lr_lambda.
  assert (Hdiv : forall t, t / epochs * epochs = t) by (intros t; field; lra).
  assert (Hx : 0 <= x / epochs <= y / epochs).
  { split.
    - apply Rmult_le_pos; [lra|]. apply Rlt_le, Rinv_0_lt_compat, He.
    - apply Rmult_le_compat_r; [|lra]. apply Rlt_le, Rinv_0_lt_compat, He. }
  assert (Hy1 : y / epochs <= 1).
  { apply (Rmult_le_reg_r epochs); [exact He|]. rewrite Hdiv. lra. }
  assert (H0 : 0 / epochs = 0) by (unfold Rdiv; lra).
  assert (H1 : epochs / epochs = 1) by (field; lra).
  split; [rewrite H0; lra|]. split; [rewrite H1; lra|].
  split; [nra|]. split; [nra|]. split; [cbn; lra|].
  assert (Hp : 0 < 0.95 ^ epoch) by (apply pow_lt; lra).
  cbn [pow]. lra.
Qed.

Lemma lr_schedules_witness :
  lf 300 0.01 0 = 1
  /\ lf 300 0.01 300 = 0.01
  /\ 0.01 <= lf 300 0.01 200 <= lf 300 0.01 100
  /\ lf 300 0.01 100 <= 1
  /\ dln_lr_lambda 0 = 1
  /\ 0 < dln_lr_lambda (S 10) < dln_lr_lambda 10.
Proof.
  apply (lr_schedules 300 0.01 100 200 10); lra.
Defined.

(** ** Best fitness and the saved checkpoints *)

Section EpochEndFacts.
Context {W : Type}.
Implicit Types (st : @run_state W) (results : list (bool * Qc * W)).

Lemma epochs_loop_app (o : save_options) (epoch : Z) results results' st :
  epochs_loop o epoch (results ++ results') st
  = epochs_loop o (epoch + Z.of_nat (length results)) results'
      (epochs_loop o epoch results st).
Proof.
  revert epoch st.
  induction results as [|[[ps fi] w] results IH]; intros epoch st.
  - cbn. by rewrite Z.add_0_r.
  - cbn [app epochs_loop length]. rewrite IH. f_equal. lia.
Qed.

Lemma epoch_file_not_best (epoch : Z) : epoch_file epoch <> "best.pt".
Proof. unfold epoch_file. cbn. discriminate. Qed.

Lemma epoch_file_not_last (epoch : Z) : epoch_file epoch <> "last.pt".
Proof. unfold epoch_file. cbn. discriminate. Qed.

(** What an epoch that saves does to [best_fitness], [best.pt] and
    [last.pt]. *)
Lemma epoch_end_saves (o : save_options) (epoch : Z) (ps : bool) (fi : Qc)
    (w : W) st :
  negb (nosave o)
  || ((bool_decide (epoch + 1 = epochs o)%Z || ps) && negb (evolve o)) = true ->
  rs_best_fitness (epoch_end o epoch ps fi w st)
  = (if bool_decide (rs_best_fitness st < fi)%Qc then fi
     else rs_best_fitness st)
  /\ rs_files (epoch_end o epoch ps fi w st) !! "last.pt"
     = Some (Ckpt epoch (rs_best_fitness (epoch_end o epoch ps fi w st)) w)
  /\ rs_files (epoch_end o epoch ps fi w st) !! "best.pt"
     = if bool_decide (rs_best_fitness st <= fi)%Qc
       then Some (Ckpt epoch fi w)
       else rs_files st !! "best.pt".
Proof.
  intros Hsave. unfold epoch_end. rewrite Hsave.
  set (best := if bool_decide (rs_best_fitness st < fi)%Qc then fi
               else rs_best_fitness st).
  assert (Hbest : bool_decide (best = fi)
                  = bool_decide (rs_best_fitness st <= fi)%Qc).
  { subst best. destruct (decide (rs_best_fitness st < fi)%Qc) as [Hlt|Hge].
    - rewrite (bool_decide_eq_true_2 _ Hlt).
      rewrite bool_decide_eq_true_2 by reflexivity.
      symmetry. apply bool_decide_eq_true_2. by apply Qclt_le_weak.
    - rewrite (bool_decide_eq_false_2 _ Hge).
      apply Qcnot_lt_le in Hge.
      destruct (decide (rs_best_fitness st = fi)) as [Heq|Hne].
      + rewrite (bool_decide_eq_true_2 _ Heq). symmetry.
        apply bool_decide_eq_true_2. rewrite Heq. apply Qcle_refl.
      + rewrite (bool_decide_eq_false_2 _ Hne). symmetry.
        apply bool_decide_eq_false_2. intros Hle. apply Hne.
        by apply Qcle_antisym. }
  rewrite Hbest. cbn [rs_best_fitness rs_files].
  split; [reflexivity|].
  destruct (bool_decide (0 < save_period o)%Z
            && bool_decide (epoch mod save_period o = 0)%Z);
    destruct (bool_decide (rs_best_fitness st <= fi)%Qc) eqn:Hle;
    rewrite ?(lookup_insert_ne _ (epoch_file epoch))
      by (apply epoch_file_not_best || apply epoch_file_not_last);
    rewrite ?lookup_insert, ?lookup_insert_ne by discriminate;
    rewrite ?lookup_insert;
    (split; [reflexivity|]); try reflexivity.
  all: destruct (decide (rs_best_fitness st < fi)%Qc) as [Hlt|Hge];
    subst best;
    rewrite ?(bool_decide_eq_true_2 _ Hlt), ?(bool_decide_eq_false_2 _ Hge);
    try reflexivity.
  all: apply bool_decide_eq_true_1 in Hle; apply Qcnot_lt_le in Hge;
    f_equal; f_equal; by apply Qcle_antisym.
Qed.

Lemma epoch_end_saving (o : save_options) (epoch : Z) (ps : bool) (fi : Qc)
    (w : W) st :
  nosave o = false ->
  rs_best_fitness (epoch_end o epoch ps fi w st)
  = (if bool_decide (rs_best_fitness st < fi)%Qc then fi
     else rs_best_fitness st)
  /\ rs_files (epoch_end o epoch ps fi w st) !! "last.pt"
     = Some (Ckpt epoch (rs_best_fitness (epoch_end o epoch ps fi w st)) w)
  /\ rs_files (epoch_end o epoch ps fi w st) !! "best.pt"
     = if bool_decide (rs_best_fitness st <= fi)%Qc
       then Some (Ckpt epoch fi w)
       else rs_files st !! "best.pt".
Proof. intros Hsave. apply epoch_end_saves. by rewrite Hsave. Qed.

(** An epoch that does not save leaves the files alone. *)
Lemma epoch_end_skips (o : save_options) (epoch : Z) (ps : bool) (fi : Qc)
    (w : W) st :
  negb (nosave o)
  || ((bool_decide (epoch + 1 = epochs o)%Z || ps) && negb (evolve o)) = false ->
  rs_files (epoch_end o epoch ps fi w st) = rs_files st.
Proof. intros Hskip. unfold epoch_end. by rewrite Hskip. Qed.

(** X13.  In a run that saves every epoch, [best_fitness] ends as the
    largest fitness seen (or the value it started with, when no epoch
    reaches that), and [best.pt] is written exactly at the epochs whose
    fitness is not below the best so far: ties overwrite, so at the end
    [best.pt] holds the latest epoch that attains the final best fitness,
    and it is left as it was when every epoch stays below the starting
    value. *)
Theorem best_checkpoint_is_latest_best (o : save_options) (e0 : Z) results
    st0 :
  nosave o = false ->
  Forall (fun r => (r.1.2 <= rs_best_fitness (epochs_loop o e0 results st0))%Qc)
         results
  /\ (rs_best_fitness st0 <= rs_best_fitness (epochs_loop o e0 results st0))%Qc
  /\ ((Forall (fun r => (r.1.2 < rs_best_fitness st0)%Qc) results
       /\ rs_best_fitness (epochs_loop o e0 results st0) = rs_best_fitness st0
       /\ rs_files (epochs_loop o e0 results st0) !! "best.pt"
          = rs_files st0 !! "best.pt")
      \/ exists (k : nat) (ps : bool) (w : W),
           results !! k
           = Some (ps, rs_best_fitness (epochs_loop o e0 results st0), w)
           /\ rs_files (epochs_loop o e0 results st0) !! "best.pt"
              = Some (Ckpt (e0 + Z.of_nat k)
                           (rs_best_fitness (epochs_loop o e0 results st0)) w)
           /\ forall (j : nat) r,
                (k < j)%nat -> results !! j = Some r ->
                (r.1.2 < rs_best_fitness (epochs_loop o e0 results st0))%Qc).
Proof.
  intros Hsave.
  induction results as [|[[ps fi] w] results IH] using rev_ind.
  - cbn. split; [constructor|]. split; [apply Qcle_refl|].
    left. by repeat split.
  - rewrite epochs_loop_app. cbn [epochs_loop].
    set (st := epochs_loop o e0 results st0) in *.
    set (e := (e0 + Z.of_nat (length results))%Z).
    destruct (epoch_end_saving o e ps fi w st Hsave) as (Hb & _ & Hf).
    cbv zeta in Hb, Hf.
    set (st' := epoch_end o e ps fi w st) in *.
    destruct IH as (Hall & Hge & Hcase).
    destruct (decide (rs_best_fitness st < fi)%Qc) as [Hlt|Hnlt].
    + (* a new best *)
      rewrite (bool_decide_eq_true_2 _ Hlt) in Hb.
      rewrite bool_decide_eq_true_2 in Hf by (by apply Qclt_le_weak).
      rewrite Hb. split; [|split].
      * apply Forall_app. split; [|by repeat constructor; apply Qcle_refl].
        eapply Forall_impl; [exact Hall|]. cbv beta. intros r Hr.
        eapply Qcle_trans; [exact Hr|]. by apply Qclt_le_weak.
      * eapply Qcle_trans; [exact Hge|]. by apply Qclt_le_weak.
      * right. exists (length results), ps, w.
        split; [by rewrite lookup_app_r, Nat.sub_diag by lia|].
        split; [exact Hf|].
        intros j r Hj Hr. apply lookup_lt_Some in Hr.
        rewrite length_app in Hr. cbn in Hr. lia.
    + apply Qcnot_lt_le in Hnlt.
      rewrite bool_decide_eq_false_2 in Hb by (by apply Qcle_not_lt).
      rewrite Hb.
      split; [apply Forall_app; split;
              [exact Hall|by repeat constructor]|].
      split; [exact Hge|].
      destruct (decide (rs_best_fitness st <= fi)%Qc) as [Hle|Hnle].
      * (* a tie with the best so far *)
        assert (Heq : fi = rs_best_fitness st) by (by apply Qcle_antisym).
        rewrite (bool_decide_eq_true_2 _ Hle) in Hf.
        right. exists (length results), ps, w.
        split; [by rewrite lookup_app_r, Nat.sub_diag, Heq by lia|].
        split; [by rewrite Hf, Heq|].
        intros j r Hj Hr. apply lookup_lt_Some in Hr.
        rewrite length_app in Hr. cbn in Hr. lia.
      * (* below the best so far *)
        rewrite (bool_decide_eq_false_2 _ Hnle) in Hf.
        apply Qcnot_le_lt in Hnle.
        destruct Hcase as [(Hbelow & Hsame & Hfile)|(k & ps' & w' & Hk & Hfile & Hlater)].
        -- left. split; [|split; [exact Hsame|by rewrite Hf]].
           apply Forall_app. split; [exact Hbelow|].
           repeat constructor. cbn. by rewrite <- Hsame.
        -- right. exists k, ps', w'.
           split; [by apply lookup_app_l_Some|].
           split; [by rewrite Hf|].
           intros j r Hj Hr.
           destruct (decide (j < length results)%nat) as [Hin|Hout].
           ++ rewrite lookup_app_l in Hr by exact Hin. by eapply Hlater.
           ++ rewrite lookup_app_r in Hr by lia.
              destruct (j - length results)%nat; [|by destruct n].
              cbn in Hr. by injection Hr as <-.
Qed.

(** X14.  In a run that saves every epoch, [last.pt] holds the last epoch
    that ran, with the best fitness reached by then. *)
Theorem last_checkpoint_is_last_epoch (o : save_options) (e0 : Z) results
    (ps : bool) (fi : Qc) (w : W) st0 :
  nosave o = false ->
  rs_files (epochs_loop o e0 (results ++ [(ps, fi, w)]) st0) !! "last.pt"
  = Some (Ckpt (e0 + Z.of_nat (length results))
               (rs_best_fitness
                  (epochs_loop o e0 (results ++ [(ps, fi, w)]) st0)) w).
Proof.
  intros Hsave. rewrite epochs_loop_app. cbn [epochs_loop].
  by destruct (epoch_end_saving
                 o (e0 + Z.of_nat (length results)) ps fi w
                 (epochs_loop o e0 results st0) Hsave) as (_ & Hlast & _).
Qed.

(** X15.  Under hyperparameter evolution ([main] sets [nosave] and
    passes [evolve]) no epoch writes a checkpoint, not even the final one;
    [best_fitness] is still kept. *)
Theorem evolve_run_writes_no_checkpoint (o : save_options) (e0 : Z) results
    st0 :
  nosave o = true ->
  evolve o = true ->
  rs_files (epochs_loop o e0 results st0) = rs_files st0
  /\ (rs_best_fitness st0 <= rs_best_fitness (epochs_loop o e0 results st0))%Qc
  /\ Forall (fun r =>
               (r.1.2 <= rs_best_fitness (epochs_loop o e0 results st0))%Qc)
            results.
Proof.
  intros Hno Hev. split.
  - revert e0 st0.
    induction results as [|[[ps fi] w] results IH]; intros e0 st0;
      [reflexivity|].
    cbn [epochs_loop]. rewrite IH. apply epoch_end_skips.
    rewrite Hno, Hev. cbn [negb orb]. apply andb_false_r.
  - induction results as [|[[ps fi] w] results IH] using rev_ind.
    + split; [apply Qcle_refl|constructor].
    + rewrite epochs_loop_app. cbn [epochs_loop].
      destruct IH as [Hge Hall].
      set (st := epochs_loop o e0 results st0) in *.
      assert (Hb : rs_best_fitness
                     (epoch_end o (e0 + Z.of_nat (length results)) ps fi w st)
                   = if bool_decide (rs_best_fitness st < fi)%Qc then fi
                     else rs_best_fitness st).
      { unfold epoch_end. by destruct (_ || _). }
      rewrite Hb.
      destruct (decide (rs_best_fitness st < fi)%Qc) as [Hlt|Hnlt].
      * rewrite (bool_decide_eq_true_2 _ Hlt).
        split; [eapply Qcle_trans; [exact Hge|by apply Qclt_le_weak]|].
        apply Forall_app. split; [|by repeat constructor; apply Qcle_refl].
        eapply Forall_impl; [exact Hall|]. cbv beta. intros r Hr.
        eapply Qcle_trans; [exact Hr|]. by apply Qclt_le_weak.
      * rewrite (bool_decide_eq_false_2 _ Hnlt).
        apply Qcnot_lt_le in Hnlt. split; [exact Hge|].
        apply Forall_app. split; [exact Hall|by repeat constructor].
Qed.

(** X16.  With [nosave] and without [evolve] only the final epoch
    saves: after epochs none of which is final and one final epoch,
    [last.pt] holds the final epoch, and [best.pt] is written only if the
    final epoch's fitness is not below the best before it; otherwise the run
    ends with [best.pt] as it found it. *)
Theorem nosave_run_saves_final_epoch_only (o : save_options) (e0 : Z) results
    (ps : bool) (fi : Qc) (w : W) st0 :
  nosave o = true ->
  evolve o = false ->
  (forall (k : nat) r,
     results !! k = Some r ->
     r.1.1 = false /\ (e0 + Z.of_nat k + 1)%Z <> epochs o) ->
  ps = true \/ (e0 + Z.of_nat (length results) + 1)%Z = epochs o ->
  rs_files (epochs_loop o e0 results st0) = rs_files st0
  /\ rs_files (epochs_loop o e0 (results ++ [(ps, fi, w)]) st0) !! "last.pt"
     = Some (Ckpt (e0 + Z.of_nat (length results))
                  (rs_best_fitness
                     (epochs_loop o e0 (results ++ [(ps, fi, w)]) st0)) w)
  /\ rs_files (epochs_loop o e0 (results ++ [(ps, fi, w)]) st0) !! "best.pt"
     = if bool_decide
            (rs_best_fitness (epochs_loop o e0 results st0) <= fi)%Qc
       then Some (Ckpt (e0 + Z.of_nat (length results)) fi w)
       else rs_files st0 !! "best.pt".
Proof.
  intros Hno Hev Hinit Hfinal.
  assert (Hsame : rs_files (epochs_loop o e0 results st0) = rs_files st0).
  { clear Hfinal. revert e0 st0 Hinit.
    induction results as [|[[ps' fi'] w'] results IH]; intros e0 st0 Hinit;
      [reflexivity|].
    cbn [epochs_loop]. rewrite IH.
    - apply epoch_end_skips.
      destruct (Hinit 0%nat _ eq_refl) as [Hps Hne]. cbn in Hps. subst ps'.
      rewrite Hno. rewrite Z.add_0_r in Hne.
      by rewrite (bool_decide_eq_false_2 _ Hne).
    - intros k r Hk. destruct (Hinit (S k) r Hk) as [Hps Hne].
      split; [exact Hps|]. lia. }
  split; [exact Hsame|].
  rewrite epochs_loop_app. cbn [epochs_loop].
  destruct (epoch_end_saves
              o (e0 + Z.of_nat (length results)) ps fi w
              (epochs_loop o e0 results st0)) as (_ & Hlast & Hbest).
  { rewrite Hno, Hev. cbn [negb orb]. rewrite andb_true_r.
    destruct Hfinal as [->|Hlast]; [apply orb_true_r|].
    by rewrite (bool_decide_eq_true_2 _ Hlast). }
  split; [exact Hlast|]. by rewrite Hbest, Hsame.
Qed.
End EpochEndFacts.

Lemma best_checkpoint_is_latest_best_witness :
  Forall (fun r => (r.1.2 <= rs_best_fitness
                               (epochs_loop (SaveOptions false false 0 3) 0
                                            three_epochs run_state0))%Qc)
         three_epochs
  /\ (rs_best_fitness run_state0
      <= rs_best_fitness (epochs_loop (SaveOptions false false 0 3) 0
                                      three_epochs run_state0))%Qc
  /\ ((Forall (fun r => (r.1.2 < rs_best_fitness run_state0)%Qc) three_epochs
       /\ rs_best_fitness (epochs_loop (SaveOptions false false 0 3) 0
                                       three_epochs run_state0)
          = rs_best_fitness run_state0
       /\ rs_files (epochs_loop (SaveOptions false false 0 3) 0
                                three_epochs run_state0) !! "best.pt"
          = rs_files run_state0 !! "best.pt")
      \/ exists (k : nat) (ps : bool) (w : string),
           three_epochs !! k
           = Some (ps, rs_best_fitness
                         (epochs_loop (SaveOptions false false 0 3) 0
                                      three_epochs run_state0), w)
           /\ rs_files (epochs_loop (SaveOptions false false 0 3) 0
                                    three_epochs run_state0) !! "best.pt"
              = Some (Ckpt (0 + Z.of_nat k)
                           (rs_best_fitness
                              (epochs_loop (SaveOptions false false 0 3) 0
                                           three_epochs run_state0)) w)
           /\ forall (j : nat) r,
                (k < j)%nat -> three_epochs !! j = Some r ->
                (r.1.2 < rs_best_fitness
                           (epochs_loop (SaveOptions false false 0 3) 0
                                        three_epochs run_state0))%Qc).
Proof.
  apply (best_checkpoint_is_latest_best
           (SaveOptions false false 0 3) 0 three_epochs run_state0).
  reflexivity.
Defined.

Lemma last_checkpoint_is_last_epoch_witness :
  rs_files (epochs_loop (SaveOptions false false 0 3) 0
              ([(false, Q2Qc (1 # 4), "weights after epoch 0")]
               ++ [(false, Q2Qc (1 # 2), "weights after epoch 1")])
              run_state0) !! "last.pt"
  = Some (Ckpt (0 + Z.of_nat 1)
               (rs_best_fitness
                  (epochs_loop (SaveOptions false false 0 3) 0
                     ([(false, Q2Qc (1 # 4), "weights after epoch 0")]
                      ++ [(false, Q2Qc (1 # 2), "weights after epoch 1")])
                     run_state0))
               "weights after epoch 1").
Proof.
  apply (last_checkpoint_is_last_epoch
           (SaveOptions false false 0 3) 0
           [(false, Q2Qc (1 # 4), "weights after epoch 0")]
           false (Q2Qc (1 # 2)) "weights after epoch 1" run_state0).
  reflexivity.
Defined.

Lemma evolve_run_writes_no_checkpoint_witness :
  rs_files (epochs_loop (SaveOptions true true 0 3) 0 three_epochs run_state0)
  = rs_files run_state0
  /\ (rs_best_fitness run_state0
      <= rs_best_fitness (epochs_loop (SaveOptions true true 0 3) 0
                                      three_epochs run_state0))%Qc
  /\ Forall (fun r =>
               (r.1.2 <= rs_best_fitness
                           (epochs_loop (SaveOptions true true 0 3) 0
                                        three_epochs run_state0))%Qc)
            three_epochs.
Proof.
  apply (evolve_run_writes_no_checkpoint
           (SaveOptions true true 0 3) 0 three_epochs run_state0);
    reflexivity.
Defined.

Lemma nosave_run_saves_final_epoch_only_witness :
  rs_files (epochs_loop (SaveOptions true false 0 3) 0
              [(false, Q2Qc (1 # 2), "weights after epoch 0");
               (false, Q2Qc (1 # 4), "weights after epoch 1")] run_state0)
  = rs_files run_state0
  /\ rs_files (epochs_loop (SaveOptions true false 0 3) 0
                 ([(false, Q2Qc (1 # 2), "weights after epoch 0");
                   (false, Q2Qc (1 # 4), "weights after epoch 1")]
                  ++ [(false, Q2Qc (1 # 3), "weights after epoch 2")])
                 run_state0) !! "last.pt"
     = Some (Ckpt (0 + Z.of_nat 2)
                  (rs_best_fitness
                     (epochs_loop (SaveOptions true false 0 3) 0
                        ([(false, Q2Qc (1 # 2), "weights after epoch 0");
                          (false, Q2Qc (1 # 4), "weights after epoch 1")]
                         ++ [(false, Q2Qc (1 # 3), "weights after epoch 2")])
                        run_state0))
                  "weights after epoch 2")
  /\ rs_files (epochs_loop (SaveOptions true false 0 3) 0
                 ([(false, Q2Qc (1 # 2), "weights after epoch 0");
                   (false, Q2Qc (1 # 4), "weights after epoch 1")]
                  ++ [(false, Q2Qc (1 # 3), "weights after epoch 2")])
                 run_state0) !! "best.pt"
     = if bool_decide
            (rs_best_fitness
               (epochs_loop (SaveOptions true false 0 3) 0
                  [(false, Q2Qc (1 # 2), "weights after epoch 0");
                   (false, Q2Qc (1 # 4), "weights after epoch 1")]
                  run_state0) <= Q2Qc (1 # 3))%Qc
       then Some (Ckpt (0 + Z.of_nat 2) (Q2Qc (1 # 3))
                       "weights after epoch 2")
       else rs_files run_state0 !! "best.pt".
Proof.
  apply (nosave_run_saves_final_epoch_only
           (SaveOptions true false 0 3) 0
           [(false, Q2Qc (1 # 2), "weights after epoch 0");
            (false, Q2Qc (1 # 4), "weights after epoch 1")]
           false (Q2Qc (1 # 3)) "weights after epoch 2" run_state0).
  - reflexivity.
  - reflexivity.
  - intros [|[|k]] r Hr; cbn in Hr; try discriminate Hr;
      injection Hr as <-; split; [reflexivity|cbn; lia|reflexivity|cbn; lia].
  - right. reflexivity.
Defined.

(** ** Matching detections to labels *)

Section ProcessBatchFacts.
Context {box : Type}.
Variable box_iou : list box -> list box -> list (list Qc).
Variable argsort : list Qc -> list nat.

Lemma elem_of_concat {A : Type} (x : A) (ls : list (list A)) :
  x ∈ concat ls <-> exists l, x ∈ l /\ l ∈ ls.
Proof.
  rewrite list_elem_of_In, in_concat. split.
  - intros (l & Hl & Hx). exists l. by rewrite !list_elem_of_In.
  - intros (l & Hx & Hl). exists l. by rewrite <- !list_elem_of_In.
Qed.

Lemma take_rows_subset {A : Type} (index : list nat) (a : list A) (x : A) :
  x ∈ take_rows index a -> x ∈ a.
Proof.
  unfold take_rows. intros Hin. apply list_elem_of_omap in Hin.
  destruct Hin as (k & _ & Hk). by eapply list_elem_of_lookup_2.
Qed.

Lemma reduce_matches_subset (matches : list (nat * nat * Qc))
    (m : nat * nat * Qc) :
  m ∈ reduce_matches argsort matches -> m ∈ matches.
Proof.
  unfold reduce_matches. destruct matches as [|m1 [|m2 ms]]; try done.
  intros Hin. by do 3 apply take_rows_subset in Hin.
Qed.

Lemma where_matches_spec (iou : list (list Qc)) (label_cls det_cls : list Z)
    (threshold : Qc) (l d : nat) (v : Qc) :
  (l, d, v) ∈ where_matches iou label_cls det_cls threshold
  <-> exists (row : list Qc) (c : Z),
        iou !! l = Some row /\ row !! d = Some v
        /\ label_cls !! l = Some c /\ det_cls !! d = Some c
        /\ (threshold <= v)%Qc.
Proof.
  unfold where_matches. rewrite elem_of_concat. split.
  - intros (ms & Hm & Hms).
    apply elem_of_lookup_imap in Hms as (l' & [row lc] & -> & Hrow).
    apply list_elem_of_omap in Hm as (o & Ho & Hsome).
    cbn in Hsome. subst o.
    apply elem_of_lookup_imap in Ho as (d' & [v' dc] & Heq & Hd).
    cbn [fst snd] in Heq.
    destruct (bool_decide (threshold <= v')%Qc) eqn:Hthr; [|discriminate].
    destruct (bool_decide (lc = dc)) eqn:Hcls; [|discriminate].
    cbn in Heq. injection Heq as -> -> ->.
    apply bool_decide_eq_true_1 in Hthr, Hcls. subst dc.
    apply lookup_zip_with_Some in Hrow as (? & ? & [= <- <-] & Hi & Hl).
    apply lookup_zip_with_Some in Hd as (? & ? & [= <- <-] & Hv & Hc).
    by exists row, lc.
  - intros (row & c & Hi & Hv & Hl & Hc & Hthr).
    exists (omap (fun o => o)
              (imap (fun (d : nat) (dv : Qc * Z) =>
                       if bool_decide (threshold <= dv.1)%Qc
                          && bool_decide (c = dv.2)
                       then Some (l, d, dv.1) else None)
                    (zip row det_cls))).
    split.
    + apply list_elem_of_omap. exists (Some (l, d, v)). split; [|done].
      apply elem_of_lookup_imap. exists d, (v, c). cbn [fst snd].
      rewrite (bool_decide_eq_true_2 _ Hthr).
      rewrite bool_decide_eq_true_2 by reflexivity.
      split; [reflexivity|].
      apply lookup_zip_with_Some. by exists v, c.
    + apply elem_of_lookup_imap. exists l, (row, c). split; [reflexivity|].
      apply lookup_zip_with_Some. by exists row, c.
Qed.

Lemma take_rows_map {A B : Type} (f : A -> B) (index : list nat)
    (a : list A) :
  map f (take_rows index a) = take_rows index (map f a).
Proof.
  unfold take_rows. induction index as [|k index IH]; [reflexivity|].
  cbn [omap list_omap]. rewrite list_lookup_fmap.
  destruct (a !! k); cbn; by rewrite IH.
Qed.

(** The rows picked by [np.unique(..., return_index=True)] carry the
    distinct keys, in ascending order. *)
Lemma take_rows_unique_index (keys : list nat) :
  take_rows (unique_index keys) keys = merge_sort Nat.le (remove_dups keys).
Proof.
  unfold take_rows, unique_index.
  assert (Hin : Forall (fun k => k ∈ keys)
                       (merge_sort Nat.le (remove_dups keys))).
  { apply Forall_forall. intros k Hk.
    rewrite merge_sort_Permutation, elem_of_remove_dups in Hk. exact Hk. }
  induction Hin as [|k ks Hk _ IH]; [reflexivity|].
  cbn [omap list_omap].
  destruct (list_find_elem_of (fun x => x = k) keys k Hk eq_refl)
    as [[i x] Hfind].
  rewrite Hfind. cbn.
  apply list_find_Some in Hfind as (Hi & -> & _).
  rewrite Hi. by rewrite IH.
Qed.

Lemma NoDup_unique_keys (keys : list nat) :
  NoDup (merge_sort Nat.le (remove_dups keys)).
Proof. rewrite merge_sort_Permutation. apply NoDup_remove_dups. Qed.

Lemma NoDup_unique_index (keys : list nat) : NoDup (unique_index keys).
Proof.
  unfold unique_index.
  pose proof (NoDup_unique_keys keys) as Hnd.
  induction Hnd as [|k ks Hk _ IH]; [constructor|].
  cbn [omap list_omap].
  destruct (list_find (fun x => x = k) keys) as [[i x]|] eqn:Hfind;
    cbn; [|exact IH].
  constructor; [|exact IH].
  intros Hin. apply list_elem_of_omap in Hin as (k' & Hk' & Hf).
  destruct (list_find (fun x => x = k') keys) as [[i' x']|] eqn:Hfind';
    [|discriminate]. cbn in Hf. injection Hf as ->.
  apply list_find_Some in Hfind as (Hi & -> & _).
  apply list_find_Some in Hfind' as (Hi' & -> & _).
  rewrite Hi in Hi'. injection Hi' as ->. by apply Hk.
Qed.

Lemma NoDup_take_rows {A : Type} (index : list nat) (a : list A) :
  NoDup index -> NoDup a -> NoDup (take_rows index a).
Proof.
  unfold take_rows. intros Hidx Ha.
  induction Hidx as [|k index Hk _ IH]; [constructor|].
  cbn [omap list_omap]. destruct (a !! k) as [x|] eqn:Hx; cbn; [|exact IH].
  constructor; [|exact IH].
  intros Hin. apply list_elem_of_omap in Hin as (k' & Hk' & Hx').
  rewrite (NoDup_lookup a k k' x Ha Hx Hx') in Hk. by apply Hk.
Qed.

Lemma reduce_matches_NoDup (matches : list (nat * nat * Qc)) :
  (2 <= length matches)%nat ->
  NoDup (map (fun m => m.1.1) (reduce_matches argsort matches))
  /\ NoDup (map (fun m => m.1.2) (reduce_matches argsort matches)).
Proof.
  intros Hlen. unfold reduce_matches.
  destruct matches as [|m1 [|m2 ms]]; cbn in Hlen; try lia.
  set (sorted := take_rows _ (m1 :: m2 :: ms)).
  set (by_det := take_rows (unique_index (map (fun m => m.1.2) sorted)) sorted).
  assert (Hdet : NoDup (map (fun m => m.1.2) by_det)).
  { subst by_det. rewrite take_rows_map, take_rows_unique_index.
    apply NoDup_unique_keys. }
  split.
  - rewrite take_rows_map, take_rows_unique_index. apply NoDup_unique_keys.
  - rewrite take_rows_map. apply NoDup_take_rows; [|exact Hdet].
    apply NoDup_unique_index.
Qed.

Lemma level_matches_NoDup (detections : list (box * Qc * Z))
    (labels : list (Z * box)) (threshold : Qc) :
  NoDup (map (fun m => m.1.1)
             (level_matches box_iou argsort detections labels threshold))
  /\ NoDup (map (fun m => m.1.2)
                (level_matches box_iou argsort detections labels threshold)).
Proof.
  unfold level_matches.
  set (matches := where_matches _ _ _ _).
  destruct (decide (2 <= length matches)%nat) as [Hlen|Hlen];
    [by apply reduce_matches_NoDup|].
  unfold reduce_matches.
  destruct matches as [|m1 [|m2 ms]]; cbn in Hlen; try lia; cbn;
    split; repeat constructor; set_solver.
Qed.

Lemma level_matches_sound (detections : list (box * Qc * Z))
    (labels : list (Z * box)) (threshold : Qc) (l d : nat) (v : Qc) :
  (l, d, v) ∈ level_matches box_iou argsort detections labels threshold ->
  exists (c : Z) (label_box detection_box : box) (conf : Qc)
         (row : list Qc),
    labels !! l = Some (c, label_box)
    /\ detections !! d = Some (detection_box, conf, c)
    /\ box_iou (map snd labels) (map (fun d => d.1.1) detections) !! l
       = Some row
    /\ row !! d = Some v
    /\ (threshold <= v)%Qc.
Proof.
  unfold level_matches. intros Hin.
  apply reduce_matches_subset, where_matches_spec in Hin.
  destruct Hin as (row & c & Hrow & Hv & Hl & Hd & Hthr).
  rewrite list_lookup_fmap in Hl. rewrite list_lookup_fmap in Hd.
  destruct (labels !! l) as [[c' lbox]|] eqn:Hlab; [|discriminate].
  destruct (detections !! d) as [[[dbox conf] c'']|] eqn:Hdet; [|discriminate].
  cbn in Hl, Hd. injection Hl as ->. injection Hd as ->.
  by exists c, lbox, dbox, conf, row.
Qed.

Lemma NoDup_bounded_length (l : list nat) (n : nat) :
  NoDup l -> (forall k, k ∈ l -> (k < n)%nat) -> (length l <= n)%nat.
Proof.
  intros Hnd Hlt.
  rewrite <- (length_seq n 0). apply submseteq_length.
  apply NoDup_submseteq; [exact Hnd|].
  intros k Hk. apply elem_of_seq. specialize (Hlt k Hk). lia.
Qed.

(** X19.  At every IoU level the detections that [process_batch] marks
    correct are matched one-to-one with labels: there is a list of
    (label, detection, IoU) rows in which no label and no detection occurs
    twice, every row joins a label and a detection of the same class whose
    IoU is at least the level, and a detection is marked correct at the
    level exactly when it occurs in a row.  So a level has at most as many
    correct detections as there are labels.  This holds whatever order
    [argsort] gives to equal IoUs. *)
Theorem process_batch_one_to_one (detections : list (box * Qc * Z))
    (labels : list (Z * box)) (iouv : list Qc) (i : nat) (threshold : Qc) :
  iouv !! i = Some threshold ->
  exists matches : list (nat * nat * Qc),
    NoDup (map (fun m => m.1.1) matches)
    /\ NoDup (map (fun m => m.1.2) matches)
    /\ (length matches <= length labels)%nat
    /\ (length matches <= length detections)%nat
    /\ (forall (l d : nat) (v : Qc),
          (l, d, v) ∈ matches ->
          exists (c : Z) (label_box detection_box : box) (conf : Qc)
                 (row : list Qc),
            labels !! l = Some (c, label_box)
            /\ detections !! d = Some (detection_box, conf, c)
            /\ box_iou (map snd labels) (map (fun d => d.1.1) detections) !! l
               = Some row
            /\ row !! d = Some v
            /\ (threshold <= v)%Qc)
    /\ (forall (d : nat) (row : list bool),
          process_batch box_iou argsort detections labels iouv !! d = Some row ->
          row !! i = Some true <-> d ∈ map (fun m => m.1.2) matches).
Proof.
  intros Hthr.
  exists (level_matches box_iou argsort detections labels threshold).
  destruct (level_matches_NoDup detections labels threshold) as [Hl Hd].
  split; [exact Hl|]. split; [exact Hd|].
  split; [|split; [|split]].
  - rewrite <- (length_map (fun m => m.1.1)).
    apply NoDup_bounded_length; [exact Hl|].
    intros l Hin. apply list_elem_of_fmap in Hin as ([[l' d] v] & -> & Hin).
    apply level_matches_sound in Hin as (c & lb & db & conf & row & Hlab & _).
    by apply lookup_lt_Some in Hlab.
  - rewrite <- (length_map (fun m => m.1.2)).
    apply NoDup_bounded_length; [exact Hd|].
    intros d Hin. apply list_elem_of_fmap in Hin as ([[l d'] v] & -> & Hin).
    apply level_matches_sound
      in Hin as (c & lb & db & conf & row & _ & Hdet & _).
    by apply lookup_lt_Some in Hdet.
  - intros l d v. apply level_matches_sound.
  - intros d row Hrow. unfold process_batch in Hrow.
    rewrite list_lookup_imap in Hrow.
    destruct (detections !! d) as [det|]; [|discriminate].
    cbn in Hrow. injection Hrow as <-.
    rewrite list_lookup_fmap, Hthr. cbn. split.
    + intros [= Hb]. by apply bool_decide_eq_true_1 in Hb.
    + intros Hin. by rewrite (bool_decide_eq_true_2 _ Hin).
Qed.
End ProcessBatchFacts.

Lemma process_batch_one_to_one_witness :
  exists matches : list (nat * nat * Qc),
    NoDup (map (fun m => m.1.1) matches)
    /\ NoDup (map (fun m => m.1.2) matches)
    /\ (length matches <= length [(1%Z, tt); (1%Z, tt)])%nat
    /\ (length matches
        <= length [(tt, Q2Qc (9 # 10), 1%Z); (tt, Q2Qc (8 # 10), 1%Z);
                   (tt, Q2Qc (7 # 10), 2%Z)])%nat
    /\ (forall (l d : nat) (v : Qc),
          (l, d, v) ∈ matches ->
          exists (c : Z) (label_box detection_box : unit) (conf : Qc)
                 (row : list Qc),
            [(1%Z, tt); (1%Z, tt)] !! l = Some (c, label_box)
            /\ [(tt, Q2Qc (9 # 10), 1%Z); (tt, Q2Qc (8 # 10), 1%Z);
                (tt, Q2Qc (7 # 10), 2%Z)] !! d
               = Some (detection_box, conf, c)
            /\ iou_example
                 (map snd [(1%Z, tt); (1%Z, tt)])
                 (map (fun d => d.1.1)
                      [(tt, Q2Qc (9 # 10), 1%Z); (tt, Q2Qc (8 # 10), 1%Z);
                       (tt, Q2Qc (7 # 10), 2%Z)]) !! l
               = Some row
            /\ row !! d = Some v
            /\ (Q2Qc (1 # 2) <= v)%Qc)
    /\ (forall (d : nat) (row : list bool),
          process_batch iou_example argsort_by_merge
            [(tt, Q2Qc (9 # 10), 1%Z); (tt, Q2Qc (8 # 10), 1%Z);
             (tt, Q2Qc (7 # 10), 2%Z)]
            [(1%Z, tt); (1%Z, tt)] [Q2Qc (1 # 2); Q2Qc (3 # 4)] !! d
          = Some row ->
          row !! 0%nat = Some true <-> d ∈ map (fun m => m.1.2) matches).
Proof.
  apply (process_batch_one_to_one iou_example argsort_by_merge
           [(tt, Q2Qc (9 # 10), 1%Z); (tt, Q2Qc (8 # 10), 1%Z);
            (tt, Q2Qc (7 # 10), 2%Z)]
           [(1%Z, tt); (1%Z, tt)] [Q2Qc (1 # 2); Q2Qc (3 # 4)] 0
           (Q2Qc (1 # 2))).
  reflexivity.
Defined.

(** ** The genetic algorithm *)

Import Evolve.

Lemma python_int_range (x : Q) (n : Z) :
  (0 <= x)%Q -> (x < inject_Z n)%Q -> (0 <= python_int x < n)%Z.
Proof.
  unfold python_int, Qle, Qlt. destruct x as [a b].
  cbn [Qnum Qden inject_Z]. intros Ha Hb.
  split.
  - apply Z.quot_pos; lia.
  - apply Z.quot_lt_upper_bound; lia.
Qed.

Lemma python_int_le (x : Q) (n : Z) :
  (0 <= n)%Z -> (x <= inject_Z n)%Q -> (python_int x <= n)%Z.
Proof.
  unfold python_int, Qle. destruct x as [a b].
  cbn [Qnum Qden inject_Z]. intros Hn Hb.
  destruct (Z.le_gt_cases 0 a) as [Ha|Ha].
  - apply Z.lt_succ_r. apply Z.quot_lt_upper_bound; nia.
  - assert (Hopp : ((- a) ÷ Z.pos b = - (a ÷ Z.pos b))%Z)
      by (apply Z.quot_opp_l; lia).
    assert (0 <= (- a) ÷ Z.pos b)%Z by (apply Z.quot_pos; lia). lia.
Qed.

Lemma ratio_range (generation evolve : Z) :
  (0 <= generation < evolve)%Z ->
  (0 <= inject_Z generation / inject_Z evolve)%Q
  /\ (inject_Z generation / inject_Z evolve < 1)%Q.
Proof.
  intros Hg.
  assert (He : (0 < inject_Z evolve)%Q).
  { change 0%Q with (inject_Z 0). rewrite <- Zlt_Qlt. lia. }
  split.
  - apply Qle_shift_div_l; [exact He|]. rewrite Qmult_0_l.
    change 0%Q with (inject_Z 0). rewrite <- Zle_Qle. lia.
  - apply Qlt_shift_div_r; [exact He|]. rewrite Qmult_1_l.
    rewrite <- Zlt_Qlt. lia.
Qed.

(** X20.  In every generation of the loop ([0 <= generation < evolve])
    the adaptive settings stay in range: the elite size is 2, 3 or 4 and so
    never reaches [max_elite_size]; the tournament size lies between 2 and
    10 and so never exceeds the population that [random.sample] draws from;
    the crossover rate lies in [0.5, 1] and the mutation rate in
    [0.01, 0.5].  Generation 0 starts from elite size 2, tournament size
    10, crossover rate 1 and mutation rate 0.5. *)
Theorem adaptive_settings_in_range (generation evolve : Z) :
  (0 <= generation < evolve)%Z ->
  (min_elite_size <= elite_size generation evolve < max_elite_size)%Z
  /\ (2 <= tournament_size generation evolve <= tournament_size_max)%Z
  /\ (tournament_size generation evolve <= pop_size)%Z
  /\ (crossover_rate_min <= crossover_rate generation evolve)%Q
  /\ (crossover_rate generation evolve <= crossover_rate_max)%Q
  /\ (mutation_rate_min <= mutation_rate generation evolve)%Q
  /\ (mutation_rate generation evolve <= mutation_rate_max)%Q
  /\ elite_size 0 evolve = 2%Z
  /\ tournament_size 0 evolve = 10%Z
  /\ (crossover_rate 0 evolve == 1)%Q
  /\ (mutation_rate 0 evolve == 1 # 2)%Q.
Proof.
  intros Hg. destruct (ratio_range generation evolve Hg) as [Hr0 Hr1].
  set (r := (inject_Z generation / inject_Z evolve)%Q) in *.
  assert (He : (0 < inject_Z evolve)%Q).
  { change 0%Q with (inject_Z 0). rewrite <- Zlt_Qlt. lia. }
  assert (Hzero : (inject_Z 0 / inject_Z evolve == 0)%Q).
  { unfold Qdiv. apply Qmult_0_l. }
  split; [|split; [|split; [|split; [|split; [|split; [|split;
          [|split; [|split; [|split]]]]]]]]].
  - unfold elite_size, min_elite_size, max_elite_size. fold r.
    change (inject_Z (5 - 2)) with 3%Q.
    destruct (python_int_range (3 * r) 3) as [H0 H3].
    + Lqa.lra.
    + change (inject_Z 3) with 3%Q. Lqa.lra.
    + lia.
  - unfold tournament_size, tournament_size_min, tournament_size_max,
      pop_size.
    split; [lia|].
    apply Z.max_lub; [lia|].
    apply python_int_le; [lia|]. change (inject_Z (10 `min` 50)) with 10%Q.
    change (inject_Z 10) with 10%Q.
    assert (0 <= inject_Z generation / (inject_Z evolve / 10))%Q; [|Lqa.lra].
    apply Qle_shift_div_l.
    + apply Qlt_shift_div_l; [reflexivity|]. Lqa.lra.
    + rewrite Qmult_0_l. change 0%Q with (inject_Z 0).
      rewrite <- Zle_Qle. lia.
  - unfold tournament_size, tournament_size_min, tournament_size_max,
      pop_size.
    apply Z.max_lub; [lia|].
    apply python_int_le; [lia|]. change (inject_Z (10 `min` 50)) with 10%Q.
    change (inject_Z 50) with 50%Q.
    assert (0 <= inject_Z generation / (inject_Z evolve / 10))%Q; [|Lqa.lra].
    apply Qle_shift_div_l.
    + apply Qlt_shift_div_l; [reflexivity|]. Lqa.lra.
    + rewrite Qmult_0_l. change 0%Q with (inject_Z 0).
      rewrite <- Zle_Qle. lia.
  - unfold crossover_rate. apply Q.le_max_l.
  - unfold crossover_rate, crossover_rate_min, crossover_rate_max.
    apply Q.max_lub; [Lqa.lra|]. apply Q.le_min_l.
  - unfold mutation_rate. apply Q.le_max_l.
  - unfold mutation_rate, mutation_rate_min, mutation_rate_max.
    apply Q.max_lub; [Lqa.lra|]. apply Q.le_min_l.
  - unfold elite_size. destruct evolve; reflexivity.
  - unfold tournament_size. destruct evolve as [|e|e]; [lia| |lia].
    unfold python_int. cbn.
    generalize (Qden (/ (inject_Z (Z.pos e) / 10))).
    generalize (Qnum (/ (inject_Z (Z.pos e) / 10))). intros n d.
    unfold tournament_size_min, tournament_size_max, pop_size.
    rewrite !Pos.mul_1_l.
    replace (10 `min` 50 * Z.pos d + - (0 * n) * 1)%Z with (10 * Z.pos d)%Z
      by lia.
    rewrite Z.quot_mul by lia. reflexivity.
  - unfold crossover_rate, crossover_rate_min, crossover_rate_max.
    rewrite Hzero. reflexivity.
  - unfold mutation_rate, mutation_rate_min, mutation_rate_max.
    rewrite Hzero. reflexivity.
Qed.

Lemma adaptive_settings_in_range_witness :
  (min_elite_size <= elite_size 299 300 < max_elite_size)%Z
  /\ (2 <= tournament_size 299 300 <= tournament_size_max)%Z
  /\ (tournament_size 299 300 <= pop_size)%Z
  /\ (crossover_rate_min <= crossover_rate 299 300)%Q
  /\ (crossover_rate 299 300 <= crossover_rate_max)%Q
  /\ (mutation_rate_min <= mutation_rate 299 300)%Q
  /\ (mutation_rate 299 300 <= mutation_rate_max)%Q
  /\ elite_size 0 300 = 2%Z
  /\ tournament_size 0 300 = 10%Z
  /\ (crossover_rate 0 300 == 1)%Q
  /\ (mutation_rate 0 300 == 1 # 2)%Q.
Proof.
  apply (adaptive_settings_in_range 299 300). lia.
Defined.

Lemma list_max_Qc_spec (xs : list Qc) (m : Qc) :
  list_max_Qc xs = Some m -> m ∈ xs /\ Forall (fun x => (x <= m)%Qc) xs.
Proof.
  destruct xs as [|x rest]; [discriminate|]. cbn [list_max_Qc].
  intros [= <-].
  assert (Hgen : forall (acc : Qc) (prev : list Qc),
            acc ∈ prev -> Forall (fun y => (y <= acc)%Qc) prev ->
            foldl (fun m y => if bool_decide (m < y)%Qc then y else m)
                  acc rest ∈ prev ++ rest
            /\ Forall (fun y =>
                 (y <= foldl (fun m y => if bool_decide (m < y)%Qc then y
                                         else m) acc rest)%Qc)
                      (prev ++ rest)).
  { induction rest as [|y rest IH]; intros acc prev Hin Hall.
    - rewrite app_nil_r. by split.
    - cbn [foldl].
      replace (prev ++ y :: rest) with ((prev ++ [y]) ++ rest)
        by (by rewrite <- app_assoc).
      destruct (decide (acc < y)%Qc) as [Hlt|Hge].
      + rewrite (bool_decide_eq_true_2 _ Hlt). apply IH; [set_solver|].
        apply Forall_app. split; [|by repeat constructor; apply Qcle_refl].
        eapply Forall_impl; [exact Hall|]. cbv beta. intros z Hz.
        eapply Qcle_trans; [exact Hz|]. by apply Qclt_le_weak.
      + rewrite (bool_decide_eq_false_2 _ Hge). apply IH; [set_solver|].
        apply Forall_app. split; [exact Hall|].
        repeat constructor. by apply Qcnot_lt_le. }
  apply (Hgen x [x]); [set_solver|].
  repeat constructor. apply Qcle_refl.
Qed.

(** X21.  A tournament over a non-empty sample of valid indices returns
    the first index of the sample whose fitness is the largest of the
    sample. *)
Theorem tournament_winner_is_fittest (fitness_scores : list Qc)
    (tournament_indices : list nat) :
  tournament_indices <> [] ->
  Forall (fun j => (j < length fitness_scores)%nat) tournament_indices ->
  exists (k winner_index : nat) (best : Qc),
    tournament_winner fitness_scores tournament_indices = Some winner_index
    /\ tournament_indices !! k = Some winner_index
    /\ fitness_scores !! winner_index = Some best
    /\ (forall (j : nat) (f : Qc),
          j ∈ tournament_indices -> fitness_scores !! j = Some f ->
          (f <= best)%Qc)
    /\ (forall (k' j : nat) (f : Qc),
          (k' < k)%nat -> tournament_indices !! k' = Some j ->
          fitness_scores !! j = Some f -> (f < best)%Qc).
Proof.
  intros Hne Hvalid. unfold tournament_winner.
  destruct (mapM (fun j => fitness_scores !! j) tournament_indices)
    as [tf|] eqn:Htf.
  2:{ apply mapM_None in Htf. apply Exists_exists in Htf as (j & Hj & Hnone).
      rewrite Forall_forall in Hvalid. specialize (Hvalid j Hj).
      apply lookup_ge_None in Hnone. lia. }
  apply mapM_Some in Htf. cbn.
  assert (Hlen : length tournament_indices = length tf)
    by (by eapply Forall2_length).
  destruct (list_max_Qc tf) as [best|] eqn:Hmax.
  2:{ destruct tf; [|discriminate]. by destruct tournament_indices. }
  cbn. destruct (list_max_Qc_spec tf best Hmax) as [Hin Hall].
  unfold list_index.
  destruct (list_find_elem_of (fun y => y = best) tf best Hin eq_refl)
    as [[k x] Hfind].
  rewrite Hfind. cbn.
  apply list_find_Some in Hfind as (Hk & -> & Hfirst).
  destruct (Forall2_lookup_r _ _ _ _ _ Htf Hk) as (w & Hw & Hfw).
  exists k, w, best. rewrite Hw. repeat split; try done.
  - intros j f Hj Hf. apply list_elem_of_lookup in Hj as [k' Hk'].
    destruct (Forall2_lookup_l _ _ _ _ _ Htf Hk') as (f' & Hf' & Hjf).
    assert (f' = f) as -> by congruence.
    rewrite Forall_forall in Hall. apply Hall.
    by eapply list_elem_of_lookup_2.
  - intros k' j f Hlt Hk' Hf.
    destruct (Forall2_lookup_l _ _ _ _ _ Htf Hk') as (f' & Hf' & Hjf).
    assert (f' = f) as -> by congruence.
    assert (Hle : (f <= best)%Qc).
    { rewrite Forall_forall in Hall. apply Hall.
      by eapply list_elem_of_lookup_2. }
    destruct (Qcle_lt_or_eq _ _ Hle) as [?|Heq]; [done|].
    exfalso. by apply (Hfirst k' f Hf' Hlt).
Qed.

Lemma tournament_winner_is_fittest_witness :
  exists (k winner_index : nat) (best : Qc),
    tournament_winner [Q2Qc (1 # 4); Q2Qc (3 # 4); Q2Qc (1 # 2); Q2Qc (3 # 4)]
                      [2%nat; 3%nat; 1%nat]
    = Some winner_index
    /\ [2%nat; 3%nat; 1%nat] !! k = Some winner_index
    /\ [Q2Qc (1 # 4); Q2Qc (3 # 4); Q2Qc (1 # 2); Q2Qc (3 # 4)] !! winner_index
       = Some best
    /\ (forall (j : nat) (f : Qc),
          j ∈ [2%nat; 3%nat; 1%nat] ->
          [Q2Qc (1 # 4); Q2Qc (3 # 4); Q2Qc (1 # 2); Q2Qc (3 # 4)] !! j
          = Some f ->
          (f <= best)%Qc)
    /\ (forall (k' j : nat) (f : Qc),
          (k' < k)%nat -> [2%nat; 3%nat; 1%nat] !! k' = Some j ->
          [Q2Qc (1 # 4); Q2Qc (3 # 4); Q2Qc (1 # 2); Q2Qc (3 # 4)] !! j
          = Some f -> (f < best)%Qc).
Proof.
  apply (tournament_winner_is_fittest
           [Q2Qc (1 # 4); Q2Qc (3 # 4); Q2Qc (1 # 2); Q2Qc (3 # 4)]
           [2%nat; 3%nat; 1%nat]).
  - discriminate.
  - repeat constructor.
Defined.

Lemma mapM_seq_lookup {A B : Type} (g : nat -> A -> B) (l : list A) :
  mapM (fun i => x ← l !! i; Some (g i x)) (seq 0 (length l))
  = Some (imap g l).
Proof.
  apply mapM_Some. apply Forall2_same_length_lookup. split.
  - by rewrite length_seq, length_imap.
  - intros i j y Hj Hy. apply lookup_seq in Hj as [-> _].
    rewrite list_lookup_imap in Hy. cbn [Nat.add].
    destruct (l !! i) as [x|]; [|discriminate]. cbn in *. congruence.
Qed.

Lemma length_flagged {A : Type} (P : A -> Prop) `{!forall x, Decision (P x)}
    (h : nat -> nat) (l : list A) :
  length (filter (fun x : nat * bool => x.2 = true)
                 (imap (fun i f => (h i, bool_decide (P f))) l))
  = length (filter P l).
Proof.
  revert h. induction l as [|x l IH]; intros h; [reflexivity|].
  rewrite imap_cons, !filter_cons. cbn [snd].
  specialize (IH (h ∘ S)). cbn [compose] in IH.
  destruct (decide (P x)) as [HP|HP].
  - rewrite (bool_decide_eq_true_2 _ HP).
    destruct (decide (true = true)); [|done]. cbn [length]. by rewrite <- IH.
  - rewrite (bool_decide_eq_false_2 _ HP).
    destruct (decide (false = true)); [done|]. by rewrite <- IH.
Qed.

Lemma flagged_bounded {A : Type} (h : A -> bool) (l : list A) (i : nat) :
  i ∈ map fst (filter (fun x : nat * bool => x.2 = true)
                      (imap (fun i f => (i, h f)) l)) ->
  (i < length l)%nat.
Proof.
  intros Hin. apply list_elem_of_fmap in Hin as ([i' b] & -> & Hin).
  apply list_elem_of_filter in Hin as [_ Hin].
  apply elem_of_lookup_imap in Hin as (k & f & [= -> _] & Hk).
  by apply lookup_lt_Some in Hk.
Qed.

Lemma last_slice_length {A : Type} (k : nat) (xs : list A) :
  (k <= length xs)%nat -> (k <= length (last_slice k xs))%nat.
Proof.
  intros Hk. unfold last_slice. destruct (Nat.eqb_spec k 0); [lia|].
  rewrite length_drop. lia.
Qed.

Lemma sorted_Permutation (xs : list Qc) : sorted xs ≡ₚ xs.
Proof.
  unfold sorted.
  apply (merge_sort_Permutation Qcle). 
Qed.

Lemma last_slice_suffix {A : Type} (k : nat) (xs : list A) :
  exists front, xs = front ++ last_slice k xs.
Proof.
  unfold last_slice. destruct (k =? 0)%nat.
  - by exists [].
  - exists (take (length xs - k) xs). by rewrite take_drop.
Qed.

Lemma filter_Forall {A : Type} (P : A -> Prop) `{!forall x, Decision (P x)}
    (l : list A) :
  Forall P l -> filter P l = l.
Proof.
  induction 1 as [|x l Hx _ IH]; [reflexivity|].
  rewrite filter_cons. destruct (decide (P x)); [by rewrite IH|done].
Qed.

Lemma tournament_winner_valid (fitness_scores : list Qc)
    (tournament_indices : list nat) :
  tournament_indices <> [] ->
  Forall (fun j => (j < length fitness_scores)%nat) tournament_indices ->
  exists winner_index : nat,
    tournament_winner fitness_scores tournament_indices = Some winner_index
    /\ winner_index ∈ tournament_indices.
Proof.
  intros Hne Hvalid. unfold tournament_winner.
  destruct (mapM (fun j => fitness_scores !! j) tournament_indices)
    as [tf|] eqn:Htf.
  2:{ apply mapM_None in Htf. apply Exists_exists in Htf as (j & Hj & Hnone).
      rewrite Forall_forall in Hvalid. specialize (Hvalid j Hj).
      apply lookup_ge_None in Hnone. lia. }
  apply mapM_Some in Htf. cbn.
  destruct (list_max_Qc tf) as [best|] eqn:Hmax.
  2:{ destruct tf; [|discriminate].
      apply Forall2_length in Htf. by destruct tournament_indices. }
  cbn. destruct (list_max_Qc_spec tf best Hmax) as [Hin _].
  unfold list_index.
  destruct (list_find_elem_of (fun y => y = best) tf best Hin eq_refl)
    as [[k x] Hfind].
  rewrite Hfind. cbn.
  apply list_find_Some in Hfind as (Hk & _ & _).
  destruct (Forall2_lookup_r _ _ _ _ _ Htf Hk) as (w & Hw & _).
  exists w. split; [exact Hw|]. by eapply list_elem_of_lookup_2.
Qed.

(** X22.  With one fitness score per individual, the elite indices are
    at least [elite_size] indices of the population, and together with one
    winner per tournament the selection has at least [pop_size] entries, all
    of them indices of the population: the parents
    [selected_indices[random.randint(0, pop_size - 1)]] always exist. *)
Theorem selection_covers_population (pop_size elite_size : nat)
    (fitness_scores : list Qc) (tournaments : list (list nat)) :
  length fitness_scores = pop_size ->
  (elite_size <= pop_size)%nat ->
  length tournaments = (pop_size - elite_size)%nat ->
  Forall (fun tournament_indices =>
            tournament_indices <> []
            /\ Forall (fun j => (j < pop_size)%nat) tournament_indices)
         tournaments ->
  exists elite selected_indices : list nat,
    elite_indices pop_size elite_size fitness_scores = Some elite
    /\ (elite_size <= length elite)%nat
    /\ selection pop_size elite_size fitness_scores tournaments
       = Some selected_indices
    /\ (pop_size <= length selected_indices)%nat
    /\ Forall (fun i => (i < pop_size)%nat) selected_indices.
Proof.
  intros Hlen Hk Hnt Hts. unfold selection, elite_indices.
  set (top := last_slice elite_size (sorted fitness_scores)).
  subst pop_size.
  rewrite (mapM_seq_lookup (fun i f => (i, bool_decide (f ∈ top)))
                           fitness_scores).
  cbn [mbind option_bind].
  set (elite := map fst (filter _ _)).
  assert (Helite : (elite_size <= length elite)%nat).
  { subst elite. rewrite length_map.
    rewrite (length_flagged (fun f => f ∈ top) (fun i => i) fitness_scores).
    destruct (last_slice_suffix elite_size (sorted fitness_scores))
      as [front Hfront]. fold top in Hfront.
    rewrite <- (sorted_Permutation fitness_scores), Hfront.
    rewrite filter_app, length_app.
    rewrite (filter_Forall (fun f => f ∈ top) top)
      by (by apply Forall_forall).
    assert (elite_size <= length top)%nat; [|lia].
    apply last_slice_length.
    by rewrite (Permutation_length (sorted_Permutation fitness_scores)). }
  assert (Hbound : Forall (fun i => (i < length fitness_scores)%nat) elite).
  { apply Forall_forall. intros i Hi.
    exact (flagged_bounded (fun f => bool_decide (f ∈ top))
                           fitness_scores i Hi). }
  destruct (mapM_Forall (tournament_winner fitness_scores)
              (fun w => (w < length fitness_scores)%nat) tournaments)
    as (winners & Hwin & Hlw & Hvalid).
  { eapply Forall_impl; [exact Hts|]. cbv beta.
    intros tournament_indices [Hne Hval].
    destruct (tournament_winner_valid fitness_scores tournament_indices
                Hne Hval) as (w & Hw & Hin).
    exists w. split; [exact Hw|].
    rewrite Forall_forall in Hval. by apply Hval. }
  rewrite Hwin. cbn.
  exists elite, (winners ++ elite).
  repeat split; try done.
  - rewrite length_app, Hlw, Hnt. lia.
  - by apply Forall_app.
Qed.

Lemma selection_covers_population_witness :
  exists elite selected_indices : list nat,
    elite_indices 4 2 [Q2Qc (1 # 4); Q2Qc (3 # 4); Q2Qc (1 # 2); Q2Qc (3 # 4)]
    = Some elite
    /\ (2 <= length elite)%nat
    /\ selection 4 2 [Q2Qc (1 # 4); Q2Qc (3 # 4); Q2Qc (1 # 2); Q2Qc (3 # 4)]
                 [[0%nat; 2%nat]; [3%nat; 1%nat]]
       = Some selected_indices
    /\ (4 <= length selected_indices)%nat
    /\ Forall (fun i => (i < 4)%nat) selected_indices.
Proof.
  apply (selection_covers_population
           4 2 [Q2Qc (1 # 4); Q2Qc (3 # 4); Q2Qc (1 # 2); Q2Qc (3 # 4)]
           [[0%nat; 2%nat]; [3%nat; 1%nat]]).
  - reflexivity.
  - lia.
  - reflexivity.
  - repeat constructor; discriminate.
Defined.

(** ** Crossover and mutation *)

Import Reproduction.

Lemma Qlt_bool_false (x y : Q) : Qlt_bool x y = false -> (y <= x)%Q.
Proof.
  unfold Qlt_bool. intros Hb. apply negb_false_iff in Hb.
  by apply Qle_bool_iff.
Qed.

Lemma clamp_in_range (g lo hi : Q) :
  (lo <= hi)%Q -> (lo <= Qmin (Qmax g lo) hi <= hi)%Q.
Proof.
  intros Hr. split.
  - apply Q.min_glb; [apply Q.le_max_r|exact Hr].
  - apply Q.le_min_r.
Qed.

Section ReproductionFacts.
Variable gene_ranges : list (Q * Q).
Variables crossover_rate mutation_rate : Q.
Variables population selected_indices : list nat.

Hypothesis ranges_ok : Forall (fun range => (range.1 <= range.2)%Q) gene_ranges.

Lemma mutate_gene_in_ranges (j : nat) (draw : Q * Q) (child : list Q) :
  in_ranges gene_ranges child ->
  (j < length gene_ranges)%nat ->
  exists child',
    mutate_gene gene_ranges mutation_rate j draw child = Some child'
    /\ in_ranges gene_ranges child'.
Proof using ranges_ok.
  intros Hin Hj. unfold mutate_gene.
  destruct (Qlt_bool draw.1 mutation_rate); [|by exists child].
  assert (Hlen : length child = length gene_ranges)
    by (by eapply Forall2_length).
  destruct (lookup_lt_is_Some_2 child j) as [g Hg]; [lia|].
  destruct (lookup_lt_is_Some_2 gene_ranges j Hj) as [range Hr].
  rewrite Hg, Hr. cbn. eexists. split; [reflexivity|].
  unfold in_ranges. rewrite <- (list_insert_id gene_ranges j range Hr).
  apply Forall2_insert; [exact Hin|].
  apply clamp_in_range.
  rewrite Forall_lookup in ranges_ok. exact (ranges_ok j range Hr).
Qed.

Lemma mutate_from_in_ranges (draws : list (Q * Q)) :
  forall (j : nat) (child : list Q),
    in_ranges gene_ranges child ->
    (j + length draws <= length gene_ranges)%nat ->
    exists child',
      mutate_from gene_ranges mutation_rate j draws child = Some child'
      /\ in_ranges gene_ranges child'.
Proof using ranges_ok.
  induction draws as [|draw rest IH]; intros j child Hin Hlen.
  - by exists child.
  - cbn [length] in Hlen. cbn [mutate_from].
    destruct (mutate_gene_in_ranges j draw child Hin) as (c1 & Hc1 & Hin1);
      [lia|].
    rewrite Hc1. cbn. apply IH; [exact Hin1|lia].
Qed.

(** One child: the heap stays in range and only grows. *)
Lemma reproduce_one_in_ranges (draws : child_draws) (heap : list (list Q)) :
  Forall (in_ranges gene_ranges) heap ->
  Forall (fun r => (r < length heap)%nat) population ->
  Forall (fun i => (i < length population)%nat) selected_indices ->
  (d_parent1 draws < length selected_indices)%nat ->
  (d_parent2 draws < length selected_indices)%nat ->
  (length (d_mutation draws) <= length gene_ranges)%nat ->
  exists (child : nat) (heap' : list (list Q)),
    reproduce_one gene_ranges crossover_rate mutation_rate
                  population selected_indices draws heap
    = Some (child, heap')
    /\ (child < length heap')%nat
    /\ (length heap <= length heap')%nat
    /\ Forall (in_ranges gene_ranges) heap'.
Proof using ranges_ok.
  intros Hheap Hpop Hsel Hd1 Hd2 Hmut. unfold reproduce_one.
  destruct (lookup_lt_is_Some_2 selected_indices _ Hd1) as [i1 Hi1].
  destruct (lookup_lt_is_Some_2 selected_indices _ Hd2) as [i2 Hi2].
  rewrite Hi1, Hi2. cbn [mbind option_bind].
  rewrite Forall_lookup in Hsel.
  destruct (lookup_lt_is_Some_2 population i1 (Hsel _ _ Hi1)) as [p1 Hp1].
  destruct (lookup_lt_is_Some_2 population i2 (Hsel _ _ Hi2)) as [p2 Hp2].
  rewrite Forall_lookup in Hpop.
  destruct (lookup_lt_is_Some_2 heap p1 (Hpop _ _ Hp1)) as [g1 Hg1].
  destruct (lookup_lt_is_Some_2 heap p2 (Hpop _ _ Hp2)) as [g2 Hg2].
  pose proof Hheap as Hall. rewrite Forall_lookup in Hall.
  pose proof (Hall _ _ Hg1) as Hin1. pose proof (Hall _ _ Hg2) as Hin2.
  destruct (Qlt_bool (d_crossover draws) crossover_rate).
  - rewrite Hp1, Hp2. cbn [mbind option_bind]. rewrite Hg1, Hg2.
    cbn [mbind option_bind].
    set (cp := d_point draws).
    assert (Hnew : in_ranges gene_ranges (take cp g1 ++ drop cp g2)).
    { unfold in_ranges. rewrite <- (take_drop cp gene_ranges).
      apply Forall2_app; [by apply Forall2_take|by apply Forall2_drop]. }
    rewrite lookup_app_r by lia. rewrite Nat.sub_diag. cbn [lookup list_lookup].
    cbn [mbind option_bind].
    destruct (mutate_from_in_ranges (d_mutation draws) 0 _ Hnew)
      as (genes & Hgenes & Hin); [lia|].
    rewrite Hgenes. cbn.
    eexists _, _. split; [reflexivity|].
    rewrite length_insert, length_app. cbn [length].
    split; [lia|]. split; [lia|].
    apply Forall_insert; [|exact Hin].
    apply Forall_app. split; [exact Hheap|by constructor].
  - rewrite Hp1. cbn [mbind option_bind]. rewrite Hg1. cbn [mbind option_bind].
    destruct (mutate_from_in_ranges (d_mutation draws) 0 _ Hin1)
      as (genes & Hgenes & Hin); [lia|].
    rewrite Hgenes. cbn.
    eexists _, _. split; [reflexivity|].
    rewrite length_insert.
    split; [exact (Hpop _ _ Hp1)|]. split; [lia|].
    by apply Forall_insert.
Qed.

(** X23.  One generation of crossover and mutation, for a population
    whose individuals lie in the gene ranges and for valid random indices:
    the loop returns one child per pass, every child is an object of the
    heap, and every object of the heap, old or new, still lies in the gene
    ranges, although children made without crossover are mutated in
    place.  No individual is removed from the heap. *)
Theorem reproduce_keeps_gene_ranges (draws : list child_draws)
    (heap : list (list Q)) :
  Forall (in_ranges gene_ranges) heap ->
  Forall (fun r => (r < length heap)%nat) population ->
  Forall (fun i => (i < length population)%nat) selected_indices ->
  Forall (fun d =>
            (d_parent1 d < length selected_indices)%nat
            /\ (d_parent2 d < length selected_indices)%nat
            /\ (length (d_mutation d) <= length gene_ranges)%nat) draws ->
  exists (next_generation : list nat) (heap' : list (list Q)),
    reproduce gene_ranges crossover_rate mutation_rate
              population selected_indices draws heap
    = Some (next_generation, heap')
    /\ length next_generation = length draws
    /\ Forall (fun r => (r < length heap')%nat) next_generation
    /\ (length heap <= length heap')%nat
    /\ Forall (in_ranges gene_ranges) heap'.
Proof using ranges_ok.
  intros Hheap Hpop Hsel Hdraws. revert heap Hheap Hpop.
  induction Hdraws as [|d rest (Hd1 & Hd2 & Hmut) _ IH]; intros heap Hheap Hpop.
  - exists [], heap. by repeat split.
  - cbn [reproduce].
    destruct (reproduce_one_in_ranges d heap Hheap Hpop Hsel Hd1 Hd2 Hmut)
      as (child & heap1 & Hone & Hchild & Hgrow & Hheap1).
    rewrite Hone. cbn [mbind option_bind].
    destruct (IH heap1 Hheap1) as (next & heap2 & Hrest & Hlen & Hnext & Hgrow2 & Hheap2).
    { eapply Forall_impl; [exact Hpop|]. cbv beta. intros r Hr. lia. }
    rewrite Hrest. cbn [mbind option_bind].
    exists (child :: next), heap2. split; [reflexivity|].
    split; [cbn; by rewrite Hlen|].
    split; [constructor; [lia|exact Hnext]|].
    split; [lia|exact Hheap2].
Qed.
End ReproductionFacts.

Lemma reproduce_one_child (gene_ranges : list (Q * Q))
    (crossover_rate mutation_rate : Q)
    (population selected_indices : list nat) (draws : child_draws)
    (heap : list (list Q)) (child : nat) (heap' : list (list Q)) :
  reproduce_one gene_ranges crossover_rate mutation_rate
                population selected_indices draws heap
  = Some (child, heap') ->
  Qlt_bool (d_crossover draws) crossover_rate = false ->
  exists (parent1_index : nat) (genes genes' : list Q),
    selected_indices !! d_parent1 draws = Some parent1_index
    /\ population !! parent1_index = Some child
    /\ heap !! child = Some genes
    /\ mutate_from gene_ranges mutation_rate 0 (d_mutation draws) genes
       = Some genes'
    /\ heap' = <[child := genes']> heap.
Proof.
  unfold reproduce_one. intros Hone Hno. rewrite Hno in Hone.
  destruct (selected_indices !! d_parent1 draws) as [i1|]; [|discriminate].
  destruct (selected_indices !! d_parent2 draws) as [i2|]; [|discriminate].
  cbn [mbind option_bind] in Hone.
  destruct (population !! i1) as [p1|] eqn:Hp1; [|discriminate].
  cbn [mbind option_bind] in Hone.
  destruct (heap !! p1) as [genes|] eqn:Hg; [|discriminate].
  cbn [mbind option_bind] in Hone.
  destruct (mutate_from _ _ _ _ genes) as [genes'|] eqn:Hm; [|discriminate].
  cbn in Hone. injection Hone as <- <-.
  by exists i1, genes, genes'.
Qed.

Lemma reproduce_lookup (gene_ranges : list (Q * Q))
    (crossover_rate mutation_rate : Q)
    (population selected_indices : list nat) (draws : list child_draws) :
  forall (heap : list (list Q)) (next_generation : list nat)
         (heap' : list (list Q)) (k : nat) (d : child_draws),
    reproduce gene_ranges crossover_rate mutation_rate
              population selected_indices draws heap
    = Some (next_generation, heap') ->
    draws !! k = Some d ->
    exists (child : nat) (heap1 heap2 : list (list Q)),
      next_generation !! k = Some child
      /\ reproduce_one gene_ranges crossover_rate mutation_rate
                       population selected_indices d heap1
         = Some (child, heap2).
Proof.
  induction draws as [|d0 rest IH]; intros heap next heap' k d Hrun Hk;
    [discriminate|].
  cbn [reproduce] in Hrun.
  destruct (reproduce_one _ _ _ _ _ d0 heap) as [[child heap1]|] eqn:Hone;
    [|discriminate].
  cbn [mbind option_bind] in Hrun.
  destruct (reproduce _ _ _ _ _ rest heap1) as [[next1 heap2]|] eqn:Hrest;
    [|discriminate].
  cbn in Hrun. injection Hrun as <- <-.
  destruct k as [|k].
  - cbn in Hk. injection Hk as <-. by exists child, heap, heap1.
  - cbn in Hk. apply (IH _ _ _ _ _ Hrest Hk).
Qed.

(** X24.  A child made without crossover is not a copy: it is the
    parent object [population[parent1_index]] itself.  So two children of
    one generation made without crossover from the same selected parent are
    one and the same object of the heap, and end the generation with the
    same genes whatever their mutation draws were; the parent in the old
    population carries these genes too. *)
Theorem children_without_crossover_share_parent (gene_ranges : list (Q * Q))
    (crossover_rate mutation_rate : Q)
    (population selected_indices : list nat) (draws : list child_draws)
    (heap : list (list Q)) (next_generation : list nat)
    (heap' : list (list Q)) (k1 k2 : nat) (d1 d2 : child_draws) :
  reproduce gene_ranges crossover_rate mutation_rate
            population selected_indices draws heap
  = Some (next_generation, heap') ->
  draws !! k1 = Some d1 ->
  draws !! k2 = Some d2 ->
  (crossover_rate <= d_crossover d1)%Q ->
  (crossover_rate <= d_crossover d2)%Q ->
  selected_indices !! d_parent1 d1 = selected_indices !! d_parent1 d2 ->
  exists (parent1_index child : nat),
    selected_indices !! d_parent1 d1 = Some parent1_index
    /\ population !! parent1_index = Some child
    /\ next_generation !! k1 = Some child
    /\ next_generation !! k2 = Some child.
Proof.
  intros Hrun Hk1 Hk2 Hc1 Hc2 Hsame.
  assert (Hno : forall d, (crossover_rate <= d_crossover d)%Q ->
                          Qlt_bool (d_crossover d) crossover_rate = false).
  { intros d Hd. unfold Qlt_bool. apply negb_false_iff.
    by apply Qle_bool_iff. }
  destruct (reproduce_lookup _ _ _ _ _ _ _ _ _ _ _ Hrun Hk1)
    as (c1 & h1 & h1' & Hn1 & Hone1).
  destruct (reproduce_lookup _ _ _ _ _ _ _ _ _ _ _ Hrun Hk2)
    as (c2 & h2 & h2' & Hn2 & Hone2).
  destruct (reproduce_one_child _ _ _ _ _ _ _ _ _ Hone1 (Hno _ Hc1))
    as (i1 & _ & _ & Hs1 & Hp1 & _).
  destruct (reproduce_one_child _ _ _ _ _ _ _ _ _ Hone2 (Hno _ Hc2))
    as (i2 & _ & _ & Hs2 & Hp2 & _).
  rewrite Hs1, Hs2 in Hsame. injection Hsame as ->.
  rewrite Hp1 in Hp2. injection Hp2 as ->.
  by exists i2, c2.
Qed.

Lemma reproduce_keeps_gene_ranges_witness :
  exists (next_generation : list nat) (heap' : list (list Q)),
    reproduce ranges2 (1 # 2) (1 # 2) [0%nat; 1%nat] [0%nat; 1%nat]
              draws3 heap2
    = Some (next_generation, heap')
    /\ length next_generation = length draws3
    /\ Forall (fun r => (r < length heap')%nat) next_generation
    /\ (length heap2 <= length heap')%nat
    /\ Forall (in_ranges ranges2) heap'.
Proof.
  apply (reproduce_keeps_gene_ranges
           ranges2 (1 # 2) (1 # 2) [0%nat; 1%nat] [0%nat; 1%nat]).
  - repeat constructor; discriminate.
  - repeat constructor; discriminate.
  - repeat constructor.
  - repeat constructor.
  - repeat constructor.
Defined.

Lemma children_without_crossover_share_parent_witness :
  exists (parent1_index child : nat),
    [0%nat; 1%nat] !! d_parent1
      (ChildDraws 0 0 (9 # 10) 1 [(9 # 10, 0); (9 # 10, 0)]%Q)
    = Some parent1_index
    /\ [0%nat; 1%nat] !! parent1_index = Some child
    /\ [2%nat; 0%nat; 0%nat] !! 1%nat = Some child
    /\ [2%nat; 0%nat; 0%nat] !! 2%nat = Some child.
Proof.
  apply (children_without_crossover_share_parent
           ranges2 (1 # 2) (1 # 2) [0%nat; 1%nat] [0%nat; 1%nat]
           draws3 heap2 [2%nat; 0%nat; 0%nat]
           [[Qmin (Qmax ((1 # 20) + (1 # 10)) 0) (1 # 10); 1 # 2];
            [1 # 10; 0]; [1 # 20; 0]]%Q
           1 2
           (ChildDraws 0 0 (9 # 10) 1 [(9 # 10, 0); (9 # 10, 0)]%Q)
           (ChildDraws 0 0 (9 # 10) 1 [(0, 1 # 10); (9 # 10, 0)]%Q)).
  - reflexivity.
  - reflexivity.
  - reflexivity.
  - discriminate.
  - discriminate.
  - reflexivity.
Defined.

Import Population.

Lemma uniform_between (a b u : Q) :
  (a <= b)%Q -> (0 <= u <= 1)%Q -> (a <= uniform a b u <= b)%Q.
Proof.
  intros Hab [Hu0 Hu1]. unfold uniform.
  assert (H0 : (0 <= (b - a) * u)%Q).
  { apply Qmult_le_0_compat; [Lqa.lra|exact Hu0]. }
  assert (H1 : (0 <= (b - a) * (1 - u))%Q).
  { apply Qmult_le_0_compat; Lqa.lra. }
  split; [Lqa.lra|].
  assert (Heq : (b - (a + (b - a) * u) == (b - a) * (1 - u))%Q) by ring.
  Lqa.lra.
Qed.

Lemma generate_individual_in_ranges (input_ranges : list (Q * Q))
    (draw : nat -> Q) :
  Forall (fun range => (range.1 <= range.2)%Q) input_ranges ->
  (forall i, (0 <= draw i <= 1)%Q) ->
  exists individual,
    generate_individual input_ranges (length input_ranges) draw
    = Some individual
    /\ in_ranges input_ranges individual.
Proof.
  intros Hranges Hdraw. unfold generate_individual.
  rewrite (mapM_seq_lookup
             (fun i range => uniform range.1 range.2 (draw i)) input_ranges).
  eexists. split; [reflexivity|].
  unfold in_ranges. apply Forall2_same_length_lookup. split.
  - by rewrite length_imap.
  - intros i g range Hg Hr. rewrite list_lookup_imap, Hr in Hg.
    cbn in Hg. assert (g = uniform range.1 range.2 (draw i)) as ->
      by congruence.
    apply uniform_between; [|apply Hdraw].
    exact (Forall_lookup_1 (fun range => (range.1 <= range.2)%Q)
                           input_ranges i range Hranges Hr).
Qed.

Lemma generate_individual_raises (input_ranges : list (Q * Q))
    (individual_length : nat) (draw : nat -> Q) :
  (length input_ranges < individual_length)%nat ->
  generate_individual input_ranges individual_length draw = None.
Proof.
  intros Hlen. unfold generate_individual.
  destruct (mapM _ _) as [individual|] eqn:Hrun; [|reflexivity].
  apply mapM_Some in Hrun.
  assert (Hi : seq 0 individual_length !! length input_ranges
               = Some (length input_ranges)).
  { by apply lookup_seq. }
  destruct (Forall2_lookup_l _ _ _ _ _ Hrun Hi) as (g & _ & Hg).
  by rewrite (lookup_ge_None_2 input_ranges (length input_ranges)) in Hg.
Qed.

Lemma foldl_prepend {A : Type} (initial_values : list A)
    (population : list A) :
  foldl (fun population initial_value => [initial_value] ++ population)
        population initial_values
  = reverse initial_values ++ population.
Proof.
  revert population.
  induction initial_values as [|v vs IH]; intros population; [reflexivity|].
  cbn [foldl]. rewrite IH, reverse_cons, <- app_assoc. reflexivity.
Qed.

(** X25.  The initial population of the genetic algorithm: the values
    loaded from the yaml files come first, in the reverse of the order in
    which they were read, followed by [pop_size - len(initial_values)]
    generated individuals, each of which lies in the gene ranges.  The
    population has at least [pop_size] individuals, and exactly [pop_size]
    only if no more than [pop_size] initial values were loaded: surplus
    initial values are not dropped.  An individual asked for with more
    genes than there are ranges makes [generate_individual] raise. *)
Theorem initial_population_layout (gene_ranges : list (Q * Q))
    (pop_size : nat) (initial_values : list (list Q))
    (draws : nat -> nat -> Q) :
  (1 < pop_size)%nat ->
  Forall (fun range => (range.1 <= range.2)%Q) gene_ranges ->
  (forall k i, (0 <= draws k i <= 1)%Q) ->
  (exists generated,
     initial_population gene_ranges (length gene_ranges) pop_size
                        initial_values draws
     = Some (reverse initial_values ++ generated)
     /\ length generated = (pop_size - length initial_values)%nat
     /\ Forall (in_ranges gene_ranges) generated
     /\ length (reverse initial_values ++ generated)
        = Nat.max pop_size (length initial_values))
  /\ (forall n_genes draw,
        (length gene_ranges < n_genes)%nat ->
        generate_individual gene_ranges n_genes draw = None).
Proof.
  intros Hpop Hranges Hdraws. split;
    [|intros n_genes draw; apply generate_individual_raises].
  unfold initial_population. rewrite bool_decide_eq_true_2 by exact Hpop.
  set (n := (pop_size - length initial_values)%nat).
  assert (Hgen : exists generated,
             mapM (fun k => generate_individual gene_ranges
                                                (length gene_ranges)
                                                (draws k)) (seq 0 n)
             = Some generated
             /\ length generated = n
             /\ Forall (in_ranges gene_ranges) generated).
  { generalize 0%nat as start.
    induction n as [|n IH]; intros start.
    - exists []. by repeat split.
    - destruct (generate_individual_in_ranges gene_ranges (draws start)
                  Hranges (Hdraws start)) as (individual & Hrun & Hin).
      destruct (IH (S start)) as (generated & Hrest & Hlen & Hall).
      exists (individual :: generated). cbn [seq]. split.
      + apply mapM_Some. constructor; [exact Hrun|by apply mapM_Some].
      + split; [by cbn; rewrite Hlen|by constructor]. }
  destruct Hgen as (generated & Hrun & Hlen & Hall).
  exists generated. rewrite Hrun. cbn [mbind option_bind].
  rewrite foldl_prepend. split; [reflexivity|].
  split; [exact Hlen|]. split; [exact Hall|].
  rewrite length_app, length_reverse, Hlen. unfold n. lia.
Qed.

Lemma initial_population_layout_witness :
  (exists generated,
     initial_population ranges2 (length ranges2) 3
                        [[1 # 20; 1 # 2]; [1 # 10; 0]]%Q draws_half
     = Some (reverse [[1 # 20; 1 # 2]; [1 # 10; 0]]%Q ++ generated)
     /\ length generated = (3 - 2)%nat
     /\ Forall (in_ranges ranges2) generated
     /\ length (reverse [[1 # 20; 1 # 2]; [1 # 10; 0]]%Q ++ generated)
        = Nat.max 3 2)
  /\ (forall n_genes draw,
        (length ranges2 < n_genes)%nat ->
        generate_individual ranges2 n_genes draw = None).
Proof.
  apply (initial_population_layout
           ranges2 3 [[1 # 20; 1 # 2]; [1 # 10; 0]]%Q draws_half).
  - lia.
  - repeat constructor; discriminate.
  - intros k i. split; discriminate.
Defined.
